(** * LocalRagService: a shallow embedding of the local retrieval engine

    The development follows [LocalRagService] (the workspace indexer and the
    relevance search of the extension).  JavaScript strings are modelled as
    sequences of 8-bit code units (the range U+0000..U+00FF of UTF-16), numbers
    that the code uses as integers (token counts, time stamps, result caps) as
    [Z], and relevance scores as exact rationals [Q]: every summand of a score
    is a multiple of 0.5, so only the final division is idealised.  Where the
    code adds, multiplies or divides numbers that can leave the range in
    which doubles are exact (the running token total, the context budget,
    the cost estimate), the result is rounded as binary64 rounds it.

    Built-ins of the host (the [RegExp] constructor applied to a run-time
    pattern, the [path] module, [JSON], the file system and the access filter)
    are parameters of the model; the regular-expression literals of the source
    are translated to a small backtracking matcher. *)

From Stdlib Require Import String Ascii List Bool Arith PeanoNat ZArith Lia.
From Stdlib Require Import QArith Qround Qpower Lqa Permutation Sorted.
Import ListNotations.

Local Open Scope string_scope.
Local Open Scope list_scope.

(* ================================================================== *)
(** ** JavaScript string primitives *)
(* ================================================================== *)

Module JsString.

Definition code (c : ascii) : nat := nat_of_ascii c.

(** LineTerminator code units below U+0100: LF and CR. *)
Definition isLineTerminator (c : ascii) : bool :=
  (code c =? 10)%nat || (code c =? 13)%nat.

(** What [\s] and [trim] treat as white space below U+0100:
    TAB, LF, VT, FF, CR, SP and NBSP. *)
Definition isWhiteSpace (c : ascii) : bool :=
  let n := code c in
  ((9 <=? n) && (n <=? 13))%nat || (n =? 32)%nat || (n =? 160)%nat.

(** [toLowerCase] on one code unit: A-Z and the Latin-1 capitals
    U+00C0..U+00DE (without the multiplication sign U+00D7). *)
Definition toLowerChar (c : ascii) : ascii :=
  let n := code c in
  if (((65 <=? n) && (n <=? 90))
      || ((192 <=? n) && (n <=? 222) && negb (n =? 215)))%nat
  then ascii_of_nat (n + 32) else c.

Fixpoint toLowerCase (s : string) : string :=
  match s with
  | EmptyString => EmptyString
  | String c s' => String (toLowerChar c) (toLowerCase s')
  end.

Definition startsWith (s p : string) : bool := String.prefix p s.

(** [s.includes(sub)] *)
Fixpoint includes (s sub : string) : bool :=
  if String.prefix sub s then true
  else match s with
       | EmptyString => false
       | String _ s' => includes s' sub
       end.

Fixpoint endsWith (s suf : string) : bool :=
  if String.eqb s suf then true
  else match s with
       | EmptyString => false
       | String _ s' => endsWith s' suf
       end.

Fixpoint trimStart (s : string) : string :=
  match s with
  | EmptyString => EmptyString
  | String c s' => if isWhiteSpace c then trimStart s' else s
  end.

Fixpoint trimEnd (s : string) : string :=
  match s with
  | EmptyString => EmptyString
  | String c s' =>
      match trimEnd s' with
      | EmptyString => if isWhiteSpace c then EmptyString
                       else String c EmptyString
      | t => String c t
      end
  end.

Definition trim (s : string) : string := trimEnd (trimStart s).

(** Truthiness of a string: [if (name)] holds for the non-empty ones. *)
Definition truthy (s : string) : bool :=
  match s with EmptyString => false | _ => true end.

(** [s.slice(0, n)] for [n <= s.length]. *)
Definition take (n : nat) (s : string) : string := String.substring 0 n s.

End JsString.

(* ================================================================== *)
(** ** Regular expressions of the source *)
(* ================================================================== *)

Module Regex.
Import JsString.

(** The constructs that the regular-expression literals of the service
    use.  [Chr p] matches one code unit satisfying [p] (a literal, a class,
    the dot); [Star true r] is the greedy [r*], [Star false r] the lazy
    [r*?]; [Group1 r] is the first capturing group; [Eol] is [$] under the
    [m] flag. *)
Inductive re : Type :=
| Eps
| Chr (p : ascii -> bool)
| Seq (a b : re)
| Alt (a b : re)
| Star (greedy : bool) (a : re)
| Group1 (a : re)
| Eol.

(** Backtracking matcher in continuation-passing style.  The state is the
    rest of the input and the text of capture 1.  An iteration of a star
    that consumes nothing is rejected, as in the RepeatMatcher of
    ECMAScript, so the input length bounds the number of iterations. *)
Fixpoint m {X : Type} (r : re)
  : string -> option string ->
    (string -> option string -> option X) -> option X :=
  match r with
  | Eps => fun s c k => k s c
  | Chr p => fun s c k =>
      match s with
      | String a s' => if p a then k s' c else None
      | EmptyString => None
      end
  | Seq a b => fun s c k => m a s c (fun s' c' => m b s' c' k)
  | Alt a b => fun s c k =>
      match m a s c k with
      | Some x => Some x
      | None => m b s c k
      end
  | Star g a =>
      let ma := m a in
      fun s c k =>
        (fix loop (n : nat) (s : string) (c : option string) {struct n}
           : option X :=
           match n with
           | O => k s c
           | S n' =>
               let again :=
                 ma s c (fun s' c' =>
                           if (String.length s' <? String.length s)%nat
                           then loop n' s' c' else None) in
               if g then match again with
                         | Some x => Some x
                         | None => k s c
                         end
               else match k s c with
                    | Some x => Some x
                    | None => again
                    end
           end) (S (String.length s)) s c
  | Group1 a => fun s c k =>
      m a s c (fun s' c' =>
                 k s' (Some (take (String.length s - String.length s') s)))
  | Eol => fun s c k =>
      match s with
      | EmptyString => k s c
      | String a _ => if isLineTerminator a then k s c else None
      end
  end.

(** One match attempt at the start of [s]: the rest after the match and
    capture 1. *)
Definition match_here (r : re) (s : string)
  : option (string * option string) :=
  m r s None (fun s' c => Some (s', c)).

Record MatchResult : Type := mkMatch {
  m_index : nat;              (* start of the match *)
  m_text : string;            (* match[0] *)
  m_rest : string;            (* input after the match *)
  m_group1 : option string    (* match[1] *)
}.

(** Leftmost match in [s]; [pre] counts the code units already passed. *)
Fixpoint exec_from (r : re) (pre : nat) (s : string) : option MatchResult :=
  match match_here r s with
  | Some (rest, c) =>
      Some (mkMatch pre (take (String.length s - String.length rest) s)
              rest c)
  | None =>
      match s with
      | EmptyString => None
      | String _ s' => exec_from r (S pre) s'
      end
  end.

(** [s.match(/r/)] without the [g] flag. *)
Definition exec (r : re) (s : string) : option MatchResult :=
  exec_from r 0 s.

(** [s.match(/r/g) || []]: all matches from left to right; after an empty
    match the search resumes one code unit further. *)
Fixpoint match_g_fuel (fuel : nat) (r : re) (s : string) : list string :=
  match fuel with
  | O => []
  | S fuel' =>
      match exec r s with
      | None => []
      | Some mr =>
          m_text mr ::
            match m_text mr, m_rest mr with
            | EmptyString, EmptyString => []
            | EmptyString, String _ rest' => match_g_fuel fuel' r rest'
            | _, rest => match_g_fuel fuel' r rest
            end
      end
  end.

Definition match_g (r : re) (s : string) : list string :=
  match_g_fuel (S (String.length s)) r s.

(** [s.replace(/r/, repl)] without the [g] flag, for a replacement text
    free of [$]. *)
Definition replace (r : re) (repl : string) (s : string) : string :=
  match exec r s with
  | None => s
  | Some mr => take (m_index mr) s ++ repl ++ m_rest mr
  end.

(** [s.split(/r/)] for an [r] without capturing groups: [piece] is the text
    since the last separator, [s] the input still to scan. *)
Fixpoint split_fuel (fuel : nat) (r : re) (piece s : string) : list string :=
  match fuel with
  | O => [piece]
  | S fuel' =>
      match s with
      | EmptyString => [piece]
      | String a s' =>
          match match_here r s with
          | None => split_fuel fuel' r (piece ++ String a EmptyString) s'
          | Some (rest, _) =>
              if ((String.length rest =? String.length s)%nat
                  && negb (truthy piece))%bool
              then split_fuel fuel' r (piece ++ String a EmptyString) s'
              else piece :: split_fuel fuel' r EmptyString rest
          end
      end
  end.

Definition split (r : re) (s : string) : list string :=
  match s with
  | EmptyString =>
      match match_here r s with
      | Some _ => []
      | None => [EmptyString]
      end
  | _ => split_fuel (2 * String.length s + 2) r EmptyString s
  end.

(** *** Building blocks for the literals *)

Definition chr (c : ascii) : re := Chr (Ascii.eqb c).

Fixpoint lit (s : string) : re :=
  match s with
  | EmptyString => Eps
  | String c s' => Seq (chr c) (lit s')
  end.

Definition star (r : re) : re := Star true r.
Definition lazy_star (r : re) : re := Star false r.
Definition plus (r : re) : re := Seq r (Star true r).
Definition opt (r : re) : re := Alt r Eps.

Definition dot : re := Chr (fun c => negb (isLineTerminator c)).
Definition ws : re := Chr isWhiteSpace.                    (* \s *)
Definition any : re := Chr (fun _ => true).                (* [\s\S] *)

Definition isAlnum (c : ascii) : bool :=
  let n := code c in
  (((97 <=? n) && (n <=? 122)) || ((65 <=? n) && (n <=? 90))
   || ((48 <=? n) && (n <=? 57)))%nat.

Definition one_of (cs : string) (c : ascii) : bool :=
  existsb (Ascii.eqb c) (list_ascii_of_string cs).

(** [[a-zA-Z0-9_$]], [[a-zA-Z0-9_]] and [[a-zA-Z0-9_.]] *)
Definition ident_js : re := Chr (fun c => isAlnum c || one_of "_$" c).
Definition ident_py : re := Chr (fun c => isAlnum c || one_of "_" c).
Definition dotted_py : re := Chr (fun c => isAlnum c || one_of "_." c).

Definition seq (rs : list re) : re := fold_right Seq Eps rs.

End Regex.

(* ================================================================== *)
(** ** Data model *)
(* ================================================================== *)

(** [interface IndexedDocument]; the fields marked [?] are optional. *)
Record IndexedDocument : Type := mkDoc {
  path : string;
  content : string;
  language : string;
  lastModified : Z;
  tokens : Z;
  symbols : option (list string);
  imports : option (list string);
  exports : option (list string);
  comments : option (list string);
  fileType : option string
}.

(** [interface SearchResult] *)
Record SearchResult : Type := mkResult {
  document : IndexedDocument;
  relevanceScore : Q
}.

(** What a rejected promise or a thrown exception carries. *)
Inductive Error : Type :=
| SyntaxError          (* new RegExp on an invalid pattern *)
| GlobError            (* the directory enumeration failed *)
| LoadError.           (* "Failed to load RAG index: ..." *)

Inductive Result (A : Type) : Type :=
| Ok (a : A)
| Throw (e : Error).
Arguments Ok {A} a.
Arguments Throw {A} e.

(** *** [Map<string, IndexedDocument>]

    A JavaScript [Map] iterates in insertion order and [set] on a present key
    keeps its position, so the store is an association list in insertion
    order. *)
Module JsMap.

Definition t : Type := list (string * IndexedDocument).

Definition empty : t := [].

Fixpoint get (mp : t) (k : string) : option IndexedDocument :=
  match mp with
  | [] => None
  | (k', d) :: mp' => if String.eqb k' k then Some d else get mp' k
  end.

Fixpoint set (mp : t) (k : string) (d : IndexedDocument) : t :=
  match mp with
  | [] => [(k, d)]
  | (k', d') :: mp' =>
      if String.eqb k' k then (k', d) :: mp' else (k', d') :: set mp' k d
  end.

Definition values (mp : t) : list IndexedDocument := map snd mp.
Definition keys (mp : t) : list string := map fst mp.

(** [Array.from(map.entries())] *)
Definition entries (mp : t) : list (string * IndexedDocument) := mp.

(** [new Map(entries)] *)
Definition of_entries (es : list (string * IndexedDocument)) : t :=
  fold_left (fun mp e => set mp (fst e) (snd e)) es empty.

End JsMap.

(** [[...new Set(xs)]]: the distinct elements in order of first occurrence. *)
Fixpoint array_from_Set_acc (seen xs : list string) : list string :=
  match xs with
  | [] => []
  | x :: xs' =>
      if existsb (String.eqb x) seen then array_from_Set_acc seen xs'
      else x :: array_from_Set_acc (x :: seen) xs'
  end.

Definition array_from_Set (xs : list string) : list string :=
  array_from_Set_acc [] xs.

(** [xs.forEach(x => { const v = f(x); if (v) out.push(v) })] *)
Definition push_truthy (f : string -> string) (xs : list string)
  : list string :=
  filter JsString.truthy (map f xs).

(* ================================================================== *)
(** ** Metadata extraction *)
(* ================================================================== *)

Module Extract.
Import JsString Regex.

(** In the comments below, [Q] stands for the class of the two quote
    characters and [^Q] for its complement. *)
Definition dq : ascii := ascii_of_nat 34.
Definition quotes : string := String "'" (String dq EmptyString).
Definition quote : re := Chr (one_of quotes).
Definition not_quote : re := Chr (fun c => negb (one_of quotes c)).
Definition not_rparen : re := Chr (fun c => negb (Ascii.eqb c ")")).

Definition isJsTs (language : string) : bool :=
  String.eqb language "javascript" || String.eqb language "typescript".

(** /function\s+([a-zA-Z0-9_$]+)\s*\(/g *)
Definition re_function : re :=
  seq [lit "function"; plus ws; Group1 (plus ident_js); star ws; chr "("].
(** /class\s+([a-zA-Z0-9_$]+)/g *)
Definition re_class : re := seq [lit "class"; plus ws; Group1 (plus ident_js)].
(** /const\s+([a-zA-Z0-9_$]+)\s*=/g and the same for let and var *)
Definition re_binding (kw : string) : re :=
  seq [lit kw; plus ws; Group1 (plus ident_js); star ws; chr "="].
(** /const\s+([a-zA-Z0-9_$]+)\s*=\s*\([^)]*\)\s*=>/g *)
Definition re_arrow : re :=
  seq [lit "const"; plus ws; Group1 (plus ident_js); star ws; chr "=";
       star ws; chr "("; star not_rparen; chr ")"; star ws; lit "=>"].
(** /def\s+([a-zA-Z0-9_]+)\s*\(/g *)
Definition re_def : re :=
  seq [lit "def"; plus ws; Group1 (plus ident_py); star ws; chr "("].
(** /class\s+([a-zA-Z0-9_]+)/g *)
Definition re_class_py : re :=
  seq [lit "class"; plus ws; Group1 (plus ident_py)].

(** /function\s+/, /class\s+/, /const\s+/, ... *)
Definition re_kw (kw : string) : re := seq [lit kw; plus ws].
(** /\s*\(.*/ *)
Definition re_from_paren : re := seq [star ws; chr "("; star dot].
(** /\s*=.*/ *)
Definition re_from_eq : re := seq [star ws; chr "="; star dot].

Definition strip_decl (kw : string) (tail : re) (mt : string) : string :=
  replace tail "" (replace (re_kw kw) "" mt).

Definition extractSymbols (content language : string) : list string :=
  let symbols :=
    if isJsTs language then
      let functionMatches := match_g re_function content in
      let classMatches := match_g re_class content in
      let constMatches := match_g (re_binding "const") content in
      let letMatches := match_g (re_binding "let") content in
      let varMatches := match_g (re_binding "var") content in
      let arrowFunctionMatches := match_g re_arrow content in
      push_truthy (strip_decl "function" re_from_paren) functionMatches
      ++ push_truthy (replace (re_kw "class") "") classMatches
      ++ push_truthy (strip_decl "const" re_from_eq) constMatches
      ++ push_truthy (strip_decl "let" re_from_eq) letMatches
      ++ push_truthy (strip_decl "var" re_from_eq) varMatches
      ++ push_truthy (strip_decl "const" re_from_eq) arrowFunctionMatches
    else if String.eqb language "python" then
      let functionMatches := match_g re_def content in
      let classMatches := match_g re_class_py content in
      push_truthy (strip_decl "def" re_from_paren) functionMatches
      ++ push_truthy (replace (re_kw "class") "") classMatches
    else [] in
  array_from_Set symbols.

(** /from\s+Q([^Q]+)Q;?/ *)
Definition re_from : re :=
  seq [lit "from"; plus ws; quote; Group1 (plus not_quote); quote;
       opt (chr ";")].
(** /import\s+.*?from\s+Q([^Q]+)Q;?/g *)
Definition re_import : re :=
  seq [lit "import"; plus ws; lazy_star dot; re_from].
(** /require\s*\(Q([^Q]+)Q\)/, with and without the g flag *)
Definition re_require : re :=
  seq [lit "require"; star ws; chr "("; quote; Group1 (plus not_quote);
       quote; chr ")"].
(** /import\s+([a-zA-Z0-9_.]+)/g *)
Definition re_import_py : re :=
  seq [lit "import"; plus ws; Group1 (plus dotted_py)].
(** /from\s+([a-zA-Z0-9_.]+)\s+import/g *)
Definition re_from_import_py : re :=
  seq [lit "from"; plus ws; Group1 (plus dotted_py); plus ws; lit "import"].
(** /\s+import.*/ *)
Definition re_import_tail : re := seq [plus ws; lit "import"; star dot].

(** [const p = mt.match(r); if (p && p[1]) out.push(p[1])] *)
Definition push_group1 (r : re) (ms : list string) : list string :=
  flat_map (fun mt =>
              match exec r mt with
              | Some mr =>
                  match m_group1 mr with
                  | Some g => if truthy g then [g] else []
                  | None => []
                  end
              | None => []
              end) ms.

Definition extractImports (content language : string) : list string :=
  let imports :=
    if isJsTs language then
      let importMatches := match_g re_import content in
      let requireMatches := match_g re_require content in
      push_group1 re_from importMatches
      ++ push_group1 re_require requireMatches
    else if String.eqb language "python" then
      let importMatches := match_g re_import_py content in
      let fromImportMatches := match_g re_from_import_py content in
      push_truthy (replace (re_kw "import") "") importMatches
      ++ push_truthy (strip_decl "from" re_import_tail) fromImportMatches
    else [] in
  array_from_Set imports.

Fixpoint alt_lits (ws_ : list string) : re :=
  match ws_ with
  | [] => Chr (fun _ => false)
  | [w] => lit w
  | w :: rest => Alt (lit w) (alt_lits rest)
  end.

(** /export\s+(?:const|let|var|function|class)\s+([a-zA-Z0-9_$]+)/g *)
Definition re_export_named : re :=
  seq [lit "export"; plus ws;
       alt_lits ["const"; "let"; "var"; "function"; "class"];
       plus ws; Group1 (plus ident_js)].
(** /export\s+default\s+(?:class|function)?\s*([a-zA-Z0-9_$]+)/g *)
Definition re_export_default : re :=
  seq [lit "export"; plus ws; lit "default"; plus ws;
       opt (alt_lits ["class"; "function"]); star ws;
       Group1 (plus ident_js)].

Definition extractExports (content language : string) : list string :=
  let exports :=
    if isJsTs language then
      let namedExportMatches := match_g re_export_named content in
      let defaultExportMatches := match_g re_export_default content in
      flat_map (fun mt =>
                  let parts := split (plus ws) mt in
                  if (3 <=? length parts)%nat
                  then [nth 2 parts ""] else [])
               namedExportMatches
      ++ flat_map (fun mt =>
                     let parts := split (plus ws) mt in
                     if (3 <=? length parts)%nat
                     then [("default: "
                            ++ nth (length parts - 1) parts "")%string]
                     else [])
                  defaultExportMatches
    else [] in
  array_from_Set exports.

(** /\/\/.*$/gm *)
Definition re_line_comment : re := seq [lit "//"; star dot; Eol].
(** /\/\*[\s\S]*?\*\//g *)
Definition re_block_comment : re := seq [lit "/*"; lazy_star any; lit "*/"].
(** /#.*$/gm *)
Definition re_hash_comment : re := seq [chr "#"; star dot; Eol].
(** /\/\/\s*/, /\/\*\s*/, /\s*\*\// and /#\s*/ *)
Definition re_line_open : re := seq [lit "//"; star ws].
Definition re_block_open : re := seq [lit "/*"; star ws].
Definition re_block_close : re := seq [star ws; lit "*/"].
Definition re_hash_open : re := seq [chr "#"; star ws].

(** The list [comments] is returned as it was filled. *)
Definition extractComments (content language : string) : list string :=
  let singleLineComments := match_g re_line_comment content in
  let multiLineComments := match_g re_block_comment content in
  let hashComments := match_g re_hash_comment content in
  push_truthy (fun c => trim (replace re_line_open "" c)) singleLineComments
  ++ push_truthy (fun c => trim (replace re_block_close ""
                                   (replace re_block_open "" c)))
                 multiLineComments
  ++ push_truthy (fun c => trim (replace re_hash_open "" c)) hashComments.

End Extract.

(* ================================================================== *)
(** ** JavaScript numbers *)
(* ================================================================== *)

Module Double.
Local Open Scope Q_scope.

(** A JavaScript number is a binary64 double.  The result of an arithmetic
    operation is the exact result rounded to 53 significant bits, to the
    nearest representable value and to the one with an even significand when
    two are equally near.  The model covers the finite numbers between the
    smallest normal double, 2^-1022, and the largest, just below 2^1024, in
    magnitude, and zero: it has neither infinities nor NaN and no gradual
    underflow. *)

(** For [0 < x], the [b] with [2^b <= x < 2^(b+1)]. *)
Definition binade (x : Q) : Z :=
  let b := (Z.log2 (Qnum x) - Z.log2 (Zpos (Qden x)))%Z in
  if Qle_bool (2 ^ b) x then b else (b - 1)%Z.

(** The integer nearest to [x], the even one of two that are equally near. *)
Definition nearestEven (x : Q) : Z :=
  let f := Qfloor x in
  match Qcompare (x - inject_Z f) (1 # 2) with
  | Lt => f
  | Gt => (f + 1)%Z
  | Eq => if Z.even f then f else (f + 1)%Z
  end.

(** [x] scaled to a significand between 2^52 and 2^53, rounded and scaled
    back. *)
Definition roundPositive (x : Q) : Q :=
  let e := (binade x - 52)%Z in
  inject_Z (nearestEven (x / 2 ^ e)) * 2 ^ e.

Definition round (x : Q) : Q :=
  match Qcompare x 0 with
  | Eq => 0
  | Gt => roundPositive x
  | Lt => - roundPositive (- x)
  end.

(** The double nearest to an integer, which is an integer again. *)
Definition roundZ (z : Z) : Z := Qfloor (round (inject_Z z)).

(** The operators [+], [*] and [/] on numbers. *)
Definition add (x y : Q) : Q := round (x + y).
Definition mul (x y : Q) : Q := round (x * y).
Definition div (x y : Q) : Q := round (x / y).

(** The same on numbers that are integers. *)
Definition addZ (a b : Z) : Z := roundZ (a + b).
Definition subZ (a b : Z) : Z := roundZ (a - b).
Definition mulZ (a b : Z) : Z := roundZ (a * b).

(** 2^-53, the largest relative error of one rounding. *)
Definition eps : Q := 1 # 9007199254740992.

End Double.

(* ================================================================== *)
(** ** The host and the service state *)
(* ================================================================== *)

(** Built-ins that the service calls.  [RegExp p] is [new RegExp(p, 'g')]:
    [None] when the constructor throws a SyntaxError, otherwise the function
    that sends a subject [s] to [(s.match(re) || []).length].
    [JSON_parse_entries] is [JSON.parse] followed by the iteration that
    [new Map] performs over the parsed value, [None] when either throws.
    [kodelyIgnoreController] is the [validateAccess] predicate of the ignore
    controller, absent when the window has no workspace folder. *)
Record Host : Type := mkHost {
  RegExp : string -> option (string -> nat);
  path_join : string -> string -> string;
  path_extname : string -> string;
  path_basename : string -> string;
  JSON_stringify : list (string * IndexedDocument) -> string;
  JSON_parse_entries : string -> option (list (string * IndexedDocument));
  kodelyIgnoreController : option (string -> bool)
}.

(** [fs.Stats], as far as the indexer looks at it. *)
Record Stats : Type := mkStats {
  size : Z;
  mtime : Z            (* stats.mtime.getTime() *)
}.

(** The workspace as one indexing pass sees it; [None] is a rejected
    promise.  [writable] tells whether [mkdir] and [writeFile] of the index
    file succeed. *)
Record FileSystem : Type := mkFs {
  glob : string -> option (list string);
  stat : string -> option Stats;
  readFile : string -> option string;
  writable : bool
}.

(** The file at [indexPath]. *)
Inductive IndexFile : Type :=
| Absent                      (* fs.access rejects *)
| Unreadable                  (* fs.access resolves, fs.readFile rejects *)
| Blob (data : string).

Record State : Type := mkState {
  indexedDocuments : JsMap.t;
  isIndexing : bool;
  indexFile : IndexFile
}.

Definition set_indexedDocuments (st : State) (docs : JsMap.t) : State :=
  mkState docs (isIndexing st) (indexFile st).
Definition set_isIndexing (st : State) (b : bool) : State :=
  mkState (indexedDocuments st) b (indexFile st).
Definition set_indexFile (st : State) (f : IndexFile) : State :=
  mkState (indexedDocuments st) (isIndexing st) f.

(** [Math.ceil(text.length / 4)] *)
Definition estimateTokenCount (text : string) : Z :=
  Qceiling (inject_Z (Z.of_nat (String.length text)) / 4).

Definition languageMap : list (string * string) :=
  [(".js", "javascript"); (".ts", "typescript"); (".jsx", "javascript");
   (".tsx", "typescript"); (".py", "python"); (".java", "java"); (".c", "c");
   (".cpp", "cpp"); (".cs", "csharp"); (".go", "go"); (".rb", "ruby");
   (".php", "php"); (".html", "html"); (".css", "css"); (".json", "json");
   (".md", "markdown"); (".yml", "yaml"); (".yaml", "yaml"); (".sh", "bash");
   (".bat", "batch"); (".ps1", "powershell"); (".sql", "sql");
   (".rs", "rust"); (".swift", "swift"); (".kt", "kotlin");
   (".scala", "scala"); (".dart", "dart"); (".lua", "lua"); (".r", "r")].

Fixpoint lookup (tbl : list (string * string)) (k : string) : option string :=
  match tbl with
  | [] => None
  | (k', v) :: tbl' => if String.eqb k' k then Some v else lookup tbl' k
  end.

(** Sequence of results of a [for ... of] loop body that may throw. *)
Definition bind {A B : Type} (r : Result A) (f : A -> Result B) : Result B :=
  match r with
  | Ok a => f a
  | Throw e => Throw e
  end.

(** [xs.slice(0, e)]: a negative [e] counts from the end. *)
Definition slice0 {A : Type} (xs : list A) (e : Z) : list A :=
  let len := Z.of_nat (length xs) in
  let final := if (e <? 0)%Z then Z.max (len + e) 0 else Z.min e len in
  firstn (Z.to_nat final) xs.

Definition Qpositive (q : Q) : bool :=
  match (0 ?= q)%Q with Lt => true | _ => false end.

Section Service.
Import JsString.

Variable h : Host.

Definition getLanguageFromPath (filePath : string) : string :=
  let ext := toLowerCase (path_extname h filePath) in
  match lookup languageMap ext with
  | Some l => l
  | None => "plaintext"
  end.

Definition detectFileType (filePath content language : string) : string :=
  let fileName := toLowerCase (path_basename h filePath) in
  if includes fileName ".test." || includes fileName ".spec."
     || startsWith fileName "test_" || includes content "@test"
     || (includes content "describe(" && includes content "it(")
  then (language ++ "-test")%string
  else if Extract.isJsTs language
          && (includes content "import React"
              || includes content
                   ("from " ++ String Extract.dq "react"
                      ++ String Extract.dq "")%string
              || includes content "extends Component"
              || includes content "React.Component"
              || includes content "useState("
              || includes content "useEffect(")
  then (language ++ "-react")%string
  else if String.eqb fileName "package.json"
          || String.eqb fileName "tsconfig.json"
          || endsWith fileName ".config.js"
          || endsWith fileName ".config.ts"
  then "config"
  else if String.eqb language "markdown" || endsWith fileName ".md"
          || String.eqb fileName "readme"
          || String.eqb fileName "readme.txt"
  then "documentation"
  else language.

(** *** search *)

(** [query.toLowerCase().split(/\s+/).filter(term => term.length > 2)] *)
Definition queryTerms (query : string) : list string :=
  filter (fun term => (2 <? String.length term)%nat)
         (Regex.split (Regex.plus Regex.ws) (toLowerCase query)).

(** [(content.match(new RegExp(term, 'g')) || []).length] *)
Definition countMatches (content term : string) : Result nat :=
  match RegExp h term with
  | None => Throw SyntaxError
  | Some re => Ok (re content)
  end.

(** The first loop over the terms: [score += count]. *)
Fixpoint contentScore (content : string) (terms : list string) (score : Q)
  : Result Q :=
  match terms with
  | [] => Ok score
  | term :: rest =>
      bind (countMatches content term)
           (fun count =>
              contentScore content rest
                           (score + inject_Z (Z.of_nat count))%Q)
  end.

(** The nested loops over the terms and one metadata list. *)
Definition boost (weight : Q) (items : option (list string))
           (terms : list string) (score : Q) : Q :=
  match items with
  | None => score
  | Some xs =>
      fold_left
        (fun sc term =>
           fold_left
             (fun sc' x =>
                if includes (toLowerCase x) term
                then (sc' + weight)%Q else sc')
             xs sc)
        terms score
  end.

Definition fileTypeMentioned (ft : option string) (terms : list string)
  : bool :=
  match ft with
  | None => false
  | Some ft =>
      truthy ft
      && existsb
           (fun term =>
              includes (toLowerCase ft) term
              || (String.eqb term "test" && includes ft "-test")
              || (String.eqb term "react" && includes ft "-react"))
           terms
  end.

(** [doc.tokens || 1] *)
Definition tokensOr1 (doc : IndexedDocument) : Z :=
  if (tokens doc =? 0)%Z then 1%Z else tokens doc.

(** The body of the loop over the documents, up to the normalised score. *)
Definition scoreDocument (doc : IndexedDocument) (terms : list string)
  : Result Q :=
  bind (contentScore (toLowerCase (content doc)) terms 0%Q)
       (fun score =>
          let score := boost 5%Q (symbols doc) terms score in
          let score := boost 2%Q (imports doc) terms score in
          let score := boost 3%Q (exports doc) terms score in
          let score := boost (3 # 2)%Q (comments doc) terms score in
          let score := if fileTypeMentioned (fileType doc) terms
                       then (score + 4)%Q else score in
          Ok (score / inject_Z (tokensOr1 doc))%Q).

Fixpoint scoreDocuments (docs : list IndexedDocument) (terms : list string)
  : Result (list SearchResult) :=
  match docs with
  | [] => Ok []
  | doc :: rest =>
      bind (scoreDocument doc terms)
           (fun score =>
              bind (scoreDocuments rest terms)
                   (fun results =>
                      Ok (if Qpositive score
                          then mkResult doc score :: results
                          else results)))
  end.

(** [(a, b) => b.relevanceScore - a.relevanceScore] *)
Definition compareFn (a b : SearchResult) : Q :=
  (relevanceScore b - relevanceScore a)%Q.

(** [Array.prototype.sort] is stable: [x], which stood before the elements
    of [l], moves behind [y] only when [compareFn x y > 0]. *)
Fixpoint insert (x : SearchResult) (l : list SearchResult)
  : list SearchResult :=
  match l with
  | [] => [x]
  | y :: l' => if Qpositive (compareFn x y) then y :: insert x l'
               else x :: l
  end.

Definition sort (l : list SearchResult) : list SearchResult :=
  fold_right insert [] l.

(** The last loop: keep a result when it still fits the token budget.  The
    sum [totalTokens + result.document.tokens] is a sum of doubles, in the
    test as in the update of [totalTokens]. *)
Fixpoint filterByTokens (maxTokens totalTokens : Z)
         (results : list SearchResult) : list SearchResult :=
  match results with
  | [] => []
  | result :: rest =>
      if (Double.addZ totalTokens (tokens (document result)) <=? maxTokens)%Z
      then result :: filterByTokens maxTokens
                       (Double.addZ totalTokens (tokens (document result)))
                       rest
      else filterByTokens maxTokens totalTokens rest
  end.

Definition searchDocuments (docs : JsMap.t) (query : string)
           (maxResults maxTokens : Z) : Result (list SearchResult) :=
  let queryTerms := queryTerms query in
  bind (scoreDocuments (JsMap.values docs) queryTerms)
       (fun results =>
          let results := sort results in
          Ok (filterByTokens maxTokens 0 (slice0 results maxResults))).

(** [search] as a method: it reads [this.indexedDocuments] and leaves the
    instance as it was. *)
Definition search (st : State) (query : string) (maxResults maxTokens : Z)
  : State * Result (list SearchResult) :=
  (st, searchDocuments (indexedDocuments st) query maxResults maxTokens).

(** [search(query)] with the default values of the other parameters. *)
Definition search_default (st : State) (query : string)
  : State * Result (list SearchResult) :=
  search st query 5 10000.

(** [search] on an engine whose [Array.prototype.sort] works as [sortFn]:
    the algorithm of the built-in is left to the engine. *)
Definition searchDocumentsWith
           (sortFn : list SearchResult -> list SearchResult)
           (docs : JsMap.t) (query : string) (maxResults maxTokens : Z)
  : Result (list SearchResult) :=
  let queryTerms := queryTerms query in
  bind (scoreDocuments (JsMap.values docs) queryTerms)
       (fun results =>
          let results := sortFn results in
          Ok (filterByTokens maxTokens 0 (slice0 results maxResults))).

Definition searchWith (sortFn : list SearchResult -> list SearchResult)
           (st : State) (query : string) (maxResults maxTokens : Z)
  : State * Result (list SearchResult) :=
  (st, searchDocumentsWith sortFn (indexedDocuments st) query maxResults
                           maxTokens).

(** *** Persistence *)

(** [saveIndex] catches every failure of [mkdir] and [writeFile]. *)
Definition saveIndex (fs : FileSystem) (st : State) : State :=
  if writable fs
  then set_indexFile st
         (Blob (JSON_stringify h (JsMap.entries (indexedDocuments st))))
  else st.

(** [loadIndex] rethrows a failure of [readFile], [JSON.parse] or
    [new Map]. *)
Definition loadIndex (st : State) : State * Result unit :=
  match indexFile st with
  | Blob data =>
      match JSON_parse_entries h data with
      | Some serializedIndex =>
          (set_indexedDocuments st (JsMap.of_entries serializedIndex),
           Ok tt)
      | None => (st, Throw LoadError)
      end
  | _ => (st, Throw LoadError)
  end.

Definition initialize (fs : FileSystem) (st : State) : State * Result unit :=
  match indexFile st with
  | Absent =>
      (saveIndex fs (set_indexedDocuments st JsMap.empty), Ok tt)
  | _ =>
      match loadIndex st with
      | (st', Ok _) => (st', Ok tt)
      | (st', Throw _) =>
          (saveIndex fs (set_indexedDocuments st' JsMap.empty), Ok tt)
      end
  end.

(** *** Indexing *)

Definition denied (filePath : string) : bool :=
  match kodelyIgnoreController h with
  | Some validateAccess => negb (validateAccess filePath)
  | None => false
  end.

(** [existingDoc && existingDoc.lastModified >= stats.mtime.getTime()] *)
Definition upToDate (existingDoc : option IndexedDocument) (stats : Stats)
  : bool :=
  match existingDoc with
  | Some d => (mtime stats <=? lastModified d)%Z
  | None => false
  end.

(** The document that the indexer builds from what it read. *)
Definition buildDocument (filePath : string) (stats : Stats)
           (content : string) : IndexedDocument :=
  let language := getLanguageFromPath filePath in
  mkDoc filePath content language (mtime stats)
        (estimateTokenCount content)
        (Some (Extract.extractSymbols content language))
        (Some (Extract.extractImports content language))
        (Some (Extract.extractExports content language))
        (Some (Extract.extractComments content language))
        (Some (detectFileType filePath content language)).

(** The body of the loop over the files of a folder.  The second component
    lists the paths handed to [fs.readFile]. *)
Definition indexFile1 (fs : FileSystem) (docs : JsMap.t) (filePath : string)
  : JsMap.t * list string :=
  if denied filePath then (docs, [])
  else
    match stat fs filePath with
    | None => (docs, [])
    | Some stats =>
        if (size stats >? 1024 * 1024)%Z then (docs, [])
        else if upToDate (JsMap.get docs filePath) stats then (docs, [])
        else
          match readFile fs filePath with
          | None => (docs, [filePath])
          | Some content =>
              (JsMap.set docs filePath
                         (buildDocument filePath stats content),
               [filePath])
          end
    end.

Fixpoint indexFiles (fs : FileSystem) (docs : JsMap.t)
         (filePaths : list string) : JsMap.t * list string :=
  match filePaths with
  | [] => (docs, [])
  | filePath :: rest =>
      let (docs1, r1) := indexFile1 fs docs filePath in
      let (docs2, r2) := indexFiles fs docs1 rest in
      (docs2, r1 ++ r2)
  end.

(** The loop over the workspace folders; a rejected [glob] leaves it. *)
Fixpoint indexFolders (fs : FileSystem) (docs : JsMap.t)
         (folders : list string) : JsMap.t * list string * Result unit :=
  match folders with
  | [] => (docs, [], Ok tt)
  | folderPath :: rest =>
      match glob fs folderPath with
      | None => (docs, [], Throw GlobError)
      | Some files =>
          let (docs1, r1) :=
            indexFiles fs docs (map (path_join h folderPath) files) in
          let '(docs2, r2, res) := indexFolders fs docs1 rest in
          (docs2, r1 ++ r2, res)
      end
  end.

(** One call of [indexWorkspace] that runs to its end without another call
    in between: the state after it, the files it read and how it ended. *)
Definition indexWorkspace (fs : FileSystem) (st : State)
           (folders : list string) : State * list string * Result unit :=
  if isIndexing st then (st, [], Ok tt)
  else
    let st := set_isIndexing st true in
    let '(docs, reads, res) :=
      indexFolders fs (indexedDocuments st) folders in
    let st := set_indexedDocuments st docs in
    let st := match res with
              | Ok _ => saveIndex fs st
              | Throw _ => st
              end in
    (set_isIndexing st false, reads, res).

End Service.

(* ================================================================== *)
(** ** [indexWorkspace] between its suspension points *)
(* ================================================================== *)

(** An [async] call runs until its next [await] and is resumed later, so
    calls of [indexWorkspace] can overlap in time.  [Pc] is the [await] at
    which a call is suspended. *)
Inductive Pc : Type :=
| AwaitGlob (folderPath : string) (folders : list string)
| AwaitStat (filePath folderPath : string) (files folders : list string)
| AwaitRead (filePath : string) (stats : Stats) (folderPath : string)
            (files folders : list string)
| AwaitMkdir
| AwaitWrite (data : string)
| Returned (res : Result unit).

Definition inFlight (pc : Pc) : bool :=
  match pc with
  | Returned _ => false
  | _ => true
  end.

Section Suspended.

Variable h : Host.
Variable fs : FileSystem.

(** After the last folder the call enters [saveIndex]. *)
Definition nextFolder (folders : list string) : Pc :=
  match folders with
  | [] => AwaitMkdir
  | folderPath :: rest => AwaitGlob folderPath rest
  end.

(** The loop over the files up to its next [await fs.stat]. *)
Fixpoint nextFile (folderPath : string) (files folders : list string) : Pc :=
  match files with
  | [] => nextFolder folders
  | file :: rest =>
      let filePath := path_join h folderPath file in
      if denied h filePath then nextFile folderPath rest folders
      else AwaitStat filePath folderPath rest folders
  end.

(** The call itself: the guard is read and set before the first [await]. *)
Definition call (st : State) (folders : list string) : State * Pc :=
  if isIndexing st then (st, Returned (Ok tt))
  else (set_isIndexing st true, nextFolder folders).

(** The awaited promise settles and the call runs to its next [await]. *)
Definition resume (st : State) (pc : Pc) : State * Pc :=
  match pc with
  | AwaitGlob folderPath folders =>
      match glob fs folderPath with
      | None => (set_isIndexing st false, Returned (Throw GlobError))
      | Some files => (st, nextFile folderPath files folders)
      end
  | AwaitStat filePath folderPath files folders =>
      match stat fs filePath with
      | None => (st, nextFile folderPath files folders)
      | Some stats =>
          if (size stats >? 1024 * 1024)%Z
          then (st, nextFile folderPath files folders)
          else if upToDate (JsMap.get (indexedDocuments st) filePath) stats
          then (st, nextFile folderPath files folders)
          else (st, AwaitRead filePath stats folderPath files folders)
      end
  | AwaitRead filePath stats folderPath files folders =>
      match readFile fs filePath with
      | None => (st, nextFile folderPath files folders)
      | Some content =>
          (set_indexedDocuments st
             (JsMap.set (indexedDocuments st) filePath
                        (buildDocument h filePath stats content)),
           nextFile folderPath files folders)
      end
  | AwaitMkdir =>
      if writable fs
      then (st, AwaitWrite
                  (JSON_stringify h (JsMap.entries (indexedDocuments st))))
      else (set_isIndexing st false, Returned (Ok tt))
  | AwaitWrite data =>
      (set_isIndexing (set_indexFile st (Blob data)) false,
       Returned (Ok tt))
  | Returned res => (st, Returned res)
  end.

(** [n] resumptions of one call with nothing in between. *)
Fixpoint run (n : nat) (st : State) (pc : Pc) : State * Pc :=
  match n with
  | O => (st, pc)
  | S n' => let (st', pc') := resume st pc in run n' st' pc'
  end.

(** The instance together with the calls made so far. *)
Record System : Type := mkSystem {
  service : State;
  calls : list Pc
}.

Fixpoint update_nth (i : nat) (pc : Pc) (l : list Pc) : list Pc :=
  match l, i with
  | [], _ => []
  | _ :: l', O => pc :: l'
  | x :: l', S i' => x :: update_nth i' pc l'
  end.

Inductive step : System -> System -> Prop :=
| step_call : forall sys folders,
    step sys
         (mkSystem (fst (call (service sys) folders))
                   (calls sys ++ [snd (call (service sys) folders)]))
| step_resume : forall sys i pc,
    nth_error (calls sys) i = Some pc ->
    inFlight pc = true ->
    step sys
         (mkSystem (fst (resume (service sys) pc))
                   (update_nth i (snd (resume (service sys) pc))
                               (calls sys))).

Inductive reachable (init : State) : System -> Prop :=
| reach_init : reachable init (mkSystem init [])
| reach_step : forall s s', reachable init s -> step s s' ->
                            reachable init s'.

Definition inFlightCount (sys : System) : nat :=
  length (filter inFlight (calls sys)).

End Suspended.

(* ================================================================== *)
(** ** The contract in the words of the specification *)
(* ================================================================== *)


(** Ranked order: no later result scores higher than an earlier one. *)
Definition descending (a b : SearchResult) : Prop :=
  (relevanceScore b <= relevanceScore a)%Q.

(** The results that the comparator of [search] does not tell apart from a
    result of score [q]. *)
Definition sameScore (q : Q) (r : SearchResult) : bool :=
  Qeq_bool (relevanceScore r) q.

(** What ECMAScript requires of [Array.prototype.sort] under the comparator
    of [search], whatever algorithm the engine uses: the result is a
    permutation of the array, no element stands behind one that the
    comparator puts after it, and elements that the comparator does not
    tell apart keep the order they had (the sort is stable). *)
Definition conformingSort (sortFn : list SearchResult -> list SearchResult)
  : Prop :=
  forall l,
    Permutation (sortFn l) l
    /\ StronglySorted descending (sortFn l)
    /\ forall q, filter (sameScore q) (sortFn l) = filter (sameScore q) l.


(** Occurrences of [term] in [text], counted from left to right without
    overlap. *)
Fixpoint countOccurrences_fuel (fuel : nat) (term text : string) : nat :=
  match fuel with
  | O => O
  | S fuel' =>
      if String.prefix term text
      then S (countOccurrences_fuel fuel' term
                (String.substring (String.length term)
                   (String.length text - String.length term) text))
      else match text with
           | EmptyString => O
           | String _ text' => countOccurrences_fuel fuel' term text'
           end
  end.

Definition countOccurrences (term text : string) : nat :=
  match term with
  | EmptyString => S (String.length text)
  | _ => countOccurrences_fuel (S (String.length text)) term text
  end.

(** Number of pairs of a term and an item whose case-folded text contains
    the term. *)
Definition pairCount (items : option (list string)) (terms : list string)
  : nat :=
  match items with
  | None => O
  | Some xs =>
      length (filter (fun p => JsString.includes
                                 (JsString.toLowerCase (snd p)) (fst p))
                     (list_prod terms xs))
  end.

Definition fileTypeBoost (ft : option string) (terms : list string) : bool :=
  match ft with
  | None => false
  | Some ft =>
      existsb (fun term => JsString.includes (JsString.toLowerCase ft) term)
              terms
      || (existsb (String.eqb "test") terms && JsString.includes ft "-test")
      || (existsb (String.eqb "react") terms && JsString.includes ft "-react")
  end.

Definition natQ (n : nat) : Q := inject_Z (Z.of_nat n).

(** The score of the scoring algorithm, for a given way [count] of counting
    a term in the case-folded content. *)
Definition statedScore (count : string -> string -> nat)
           (doc : IndexedDocument) (terms : list string) : Q :=
  ((natQ (fold_right (fun term acc =>
                        (count term (JsString.toLowerCase (content doc))
                         + acc)%nat) O terms)
    + 5 * natQ (pairCount (symbols doc) terms)
    + 3 * natQ (pairCount (exports doc) terms)
    + 2 * natQ (pairCount (imports doc) terms)
    + (3 # 2) * natQ (pairCount (comments doc) terms)
    + (if fileTypeBoost (fileType doc) terms then 4 else 0))
   / inject_Z (if (tokens doc =? 0)%Z then 1%Z else tokens doc))%Q.

(* ================================================================== *)
(** ** A fragment of the pattern language of [RegExp] *)
(* ================================================================== *)

Module Fragment.
Import JsString Regex.

(** Patterns whose only syntax characters are the dot and the two
    parentheses: every other code unit stands for itself, the dot for any
    code unit but a line terminator, and parentheses group.  The
    constructor throws for an unmatched [)] and for an unterminated
    group. *)
Definition inFragment (p : string) : bool :=
  forallb (fun c => negb (one_of "^$\*+?[]{}|" c))
          (list_ascii_of_string p).

Definition isLiteral (p : string) : bool :=
  forallb (fun c => negb (one_of "^$\.*+?()[]{}|" c))
          (list_ascii_of_string p).

Fixpoint parse (depth : nat) (p : string) : option re :=
  match p with
  | EmptyString => if (depth =? 0)%nat then Some Eps else None
  | String c p' =>
      if Ascii.eqb c "(" then parse (S depth) p'
      else if Ascii.eqb c ")" then
             match depth with
             | O => None
             | S d => parse d p'
             end
      else
        match parse depth p' with
        | Some r => Some (Seq (if Ascii.eqb c "." then dot else chr c) r)
        | None => None
        end
  end.

(** A host implements the fragment when its constructor agrees with
    [parse] on the patterns of the fragment. *)
Definition conforms (h : Host) : Prop :=
  forall p, inFragment p = true ->
    match parse 0 p with
    | None => RegExp h p = None
    | Some r =>
        exists f, RegExp h p = Some f
                  /\ forall s, f s = length (match_g r s)
    end.

(** The constructor of a host that knows the fragment and rejects every
    other pattern. *)
Definition fragmentRegExp (p : string) : option (string -> nat) :=
  if inFragment p
  then match parse 0 p with
       | Some r => Some (fun s => length (match_g r s))
       | None => None
       end
  else None.

End Fragment.

(* ================================================================== *)
(** ** A concrete host and workspace *)
(* ================================================================== *)

Module Example.

Fixpoint afterLast (sep : ascii) (acc s : string) : string :=
  match s with
  | EmptyString => acc
  | String c s' => if Ascii.eqb c sep then afterLast sep s' s'
                   else afterLast sep acc s'
  end.

Definition basename (p : string) : string := afterLast "/" p p.

Definition extname (p : string) : string :=
  let b := basename p in
  let e := afterLast "." EmptyString b in
  if JsString.truthy e then String "." e else EmptyString.

Definition host : Host :=
  mkHost Fragment.fragmentRegExp
         (fun a b => (a ++ "/" ++ b)%string)
         extname basename
         (fun _ => "[]") (fun _ => None) None.

(** A plain-text document without symbols, imports, exports or comments,
    as the indexer stores it. *)
Definition doc (p c : string) (mt tk : Z) : IndexedDocument :=
  mkDoc p c "plaintext" mt tk (Some []) (Some []) (Some []) (Some [])
        (Some "plaintext").

Definition state (docs : JsMap.t) : State := mkState docs false Absent.

Definition nl : string := String (ascii_of_nat 10) EmptyString.

(** A workspace [/w] with the two files [a.ts] and [b.py]. *)
Definition fs : FileSystem :=
  mkFs (fun d => if String.eqb d "/w" then Some ["a.ts"; "b.py"] else None)
       (fun p => if String.eqb p "/w/a.ts" then Some (mkStats 17 100)
                 else if String.eqb p "/w/b.py" then Some (mkStats 12 200)
                 else None)
       (fun p => if String.eqb p "/w/a.ts" then Some "function foo() {}"
                 else if String.eqb p "/w/b.py" then Some "def bar(): 0"
                 else None)
       true.

(** Another stable sort, as an engine might have it: the array is walked
    from the left and each element is put behind the elements placed so far
    that score at least as high. *)
Fixpoint placeBehind (x : SearchResult) (l : list SearchResult)
  : list SearchResult :=
  match l with
  | [] => [x]
  | y :: l' => if Qpositive (compareFn y x) then x :: l
               else y :: placeBehind x l'
  end.

Definition sortFromLeft (l : list SearchResult) : list SearchResult :=
  fold_left (fun placed x => placeBehind x placed) l [].

End Example.

(* ================================================================== *)
(** ** [getRelevantContext] *)
(* ================================================================== *)

Module Context.

Definition LF : string := String (ascii_of_nat 10) EmptyString.

(** [xs.join(sep)] *)
Fixpoint join (sep : string) (xs : list string) : string :=
  match xs with
  | [] => EmptyString
  | [x] => x
  | x :: rest => (x ++ sep ++ join sep rest)%string
  end.

Definition header : string :=
  ("Relevant code from the codebase:" ++ LF ++ LF)%string.

(** [if (doc.symbols && doc.symbols.length > 0) context += ...] *)
Definition listLine (label : string) (items : option (list string))
  : string :=
  match items with
  | Some (x :: xs) => (label ++ join ", " (x :: xs) ++ LF)%string
  | _ => EmptyString
  end.

(** The part of the file line between the parentheses. *)
Definition typeSuffix (doc : IndexedDocument) : string :=
  match fileType doc with
  | Some ft =>
      if JsString.truthy ft && negb (String.eqb ft (language doc))
      then (", " ++ ft)%string else EmptyString
  | None => EmptyString
  end.

(** What one pass of the loop over the results appends to [context]. *)
Definition formatDocument (asRelativePath : string -> string)
           (doc : IndexedDocument) : string :=
  ("File: " ++ asRelativePath (path doc) ++ " (" ++ language doc
   ++ typeSuffix doc ++ ")" ++ LF
   ++ listLine "Symbols: " (symbols doc)
   ++ listLine "Imports: " (imports doc)
   ++ listLine "Exports: " (exports doc)
   ++ "```" ++ language doc ++ LF ++ content doc ++ LF ++ "```" ++ LF
   ++ LF)%string.

Fixpoint formatDocuments (asRelativePath : string -> string)
         (results : list SearchResult) : string :=
  match results with
  | [] => EmptyString
  | result :: rest =>
      (formatDocument asRelativePath (document result)
       ++ formatDocuments asRelativePath rest)%string
  end.

(** [asRelativePath] is [vscode.workspace.asRelativePath]. *)
Definition getRelevantContext (h : Host) (asRelativePath : string -> string)
           (st : State) (query : string) (maxTokens : Z)
  : State * Result string :=
  match search h st query 10 maxTokens with
  | (st', Ok results) =>
      (st', Ok (match results with
                | [] => EmptyString
                | _ => (header ++ formatDocuments asRelativePath results)
                         %string
                end))
  | (st', Throw e) => (st', Throw e)
  end.

End Context.

(* ================================================================== *)
(** ** KodelyIgnoreController *)
(* ================================================================== *)

Module Ignore.
Import JsString.

(** The controller as its methods see it.  [kodelyIgnoreContent] is the text
    of the ignore file, absent when there is none.  [ignores p] is the body
    of the [try] block of [validateAccess] up to the negation: the path is
    resolved against [cwd], made relative and handed to the ignore instance;
    [None] when any of that throws. *)
Record Controller : Type := mkController {
  kodelyIgnoreContent : option string;
  ignores : string -> option bool
}.

(** [!this.kodelyIgnoreContent] *)
Definition noContent (c : Controller) : bool :=
  match kodelyIgnoreContent c with
  | Some text => negb (truthy text)
  | None => true
  end.

Definition validateAccess (c : Controller) (filePath : string) : bool :=
  if noContent c then true
  else match ignores c filePath with
       | Some ignored => negb ignored
       | None => true
       end.

Definition fileReadingCommands : list string :=
  ["cat"; "less"; "more"; "head"; "tail"; "grep"; "awk"; "sed";
   "get-content"; "gc"; "type"; "select-string"; "sls"].

(** The two [continue]s of the loop over the arguments. *)
Definition skipped (arg : string) : bool :=
  startsWith arg "-" || startsWith arg "/" || includes arg ":".

(** The loop over [parts[1..]]. *)
Fixpoint firstBlocked (c : Controller) (args : list string)
  : option string :=
  match args with
  | [] => None
  | arg :: rest =>
      if skipped arg then firstBlocked c rest
      else if negb (validateAccess c arg) then Some arg
      else firstBlocked c rest
  end.

(** [command.trim().split(/\s+/)] *)
Definition commandParts (command : string) : list string :=
  Regex.split (Regex.plus Regex.ws) (trim command).

Definition validateCommand (c : Controller) (command : string)
  : option string :=
  if noContent c then None
  else
    let parts := commandParts command in
    let baseCommand := toLowerCase (hd EmptyString parts) in
    if existsb (String.eqb baseCommand) fileReadingCommands
    then firstBlocked c (tl parts)
    else None.

(** [paths.map(...).filter(x => x.allowed).map(x => x.path)] *)
Definition filterPaths (c : Controller) (paths : list string)
  : list string :=
  map fst
      (filter (fun x => snd x)
              (map (fun p => (p, validateAccess c p)) paths)).

End Ignore.

(* ================================================================== *)
(** ** CostOptimizationManager *)
(* ================================================================== *)

Module Cost.

Inductive CostOptimizationLevel : Type := LOW | BALANCED | HIGH.

(** The percentages and token counts are integers: the settings view offers
    them in steps of 5 and of 500. *)
Record CostOptimizationSettings : Type := mkSettings {
  optimizationLevel : CostOptimizationLevel;
  maxContextWindowUsage : Z;
  useLocalRag : bool;
  maxOutputTokens : Z;
  compressCodeInContext : bool
}.

Definition DEFAULT_SETTINGS (level : CostOptimizationLevel)
  : CostOptimizationSettings :=
  match level with
  | LOW => mkSettings LOW 95 false 4000 false
  | BALANCED => mkSettings BALANCED 85 true 2000 false
  | HIGH => mkSettings HIGH 70 true 1000 true
  end.

(** [Partial<CostOptimizationSettings>]: [None] is a key that the object
    does not have. *)
Record PartialSettings : Type := mkPartial {
  p_optimizationLevel : option CostOptimizationLevel;
  p_maxContextWindowUsage : option Z;
  p_useLocalRag : option bool;
  p_maxOutputTokens : option Z;
  p_compressCodeInContext : option bool
}.

Definition orElse {A : Type} (o : option A) (a : A) : A :=
  match o with
  | Some x => x
  | None => a
  end.

(** [{ ...settings, ...partial }] *)
Definition spread (settings : CostOptimizationSettings)
           (partial : PartialSettings) : CostOptimizationSettings :=
  mkSettings
    (orElse (p_optimizationLevel partial) (optimizationLevel settings))
    (orElse (p_maxContextWindowUsage partial)
            (maxContextWindowUsage settings))
    (orElse (p_useLocalRag partial) (useLocalRag settings))
    (orElse (p_maxOutputTokens partial) (maxOutputTokens settings))
    (orElse (p_compressCodeInContext partial)
            (compressCodeInContext settings)).

(** The two keys of [context.globalState] that the manager uses. *)
Record GlobalState : Type := mkGlobal {
  costOptimizationLevel : option CostOptimizationLevel;
  costOptimizationSettings : option CostOptimizationSettings
}.

(** The manager together with the global state behind it. *)
Record Manager : Type := mkManager {
  settings : CostOptimizationSettings;
  globalState : GlobalState
}.

(** The constructor: [globalState.get(key, default)] for both keys. *)
Definition construct (g : GlobalState) : Manager :=
  let savedLevel := orElse (costOptimizationLevel g) BALANCED in
  let savedSettings :=
    orElse (costOptimizationSettings g) (DEFAULT_SETTINGS savedLevel) in
  mkManager savedSettings g.

Definition getSettings (mg : Manager) : CostOptimizationSettings :=
  settings mg.

(** How an [async] method of the manager ends: [Rejected key] when
    [globalState.update(key, ...)] rejects. *)
Inductive Settled : Type :=
| Resolved
| Rejected (key : string).

(** [saveSettings]: two updates one after the other; [rejects key] tells
    whether [globalState.update(key, ...)] rejects. *)
Definition saveSettings (rejects : string -> bool) (mg : Manager)
  : Manager * Settled :=
  if rejects "costOptimizationLevel"
  then (mg, Rejected "costOptimizationLevel")
  else
    let g1 := mkGlobal (Some (optimizationLevel (settings mg)))
                       (costOptimizationSettings (globalState mg)) in
    if rejects "costOptimizationSettings"
    then (mkManager (settings mg) g1, Rejected "costOptimizationSettings")
    else (mkManager (settings mg)
                    (mkGlobal (costOptimizationLevel g1)
                              (Some (settings mg))),
          Resolved).

Definition setOptimizationLevel (rejects : string -> bool) (mg : Manager)
           (level : CostOptimizationLevel) : Manager * Settled :=
  saveSettings rejects (mkManager (DEFAULT_SETTINGS level) (globalState mg)).

Definition updateSettings (rejects : string -> bool) (mg : Manager)
           (partial : PartialSettings) : Manager * Settled :=
  saveSettings rejects
               (mkManager (spread (settings mg) partial) (globalState mg)).

(** The fields of [ModelInfo] that the manager reads; [None] is a missing
    field.  Prices are per million tokens; a price is a double, given by the
    rational number that it is. *)
Record ModelInfo : Type := mkModel {
  contextWindow : option Z;
  maxTokens : option Z;
  inputPrice : option Q;
  outputPrice : option Q
}.

(** Truthiness of a number that may be missing. *)
Definition truthyZ (o : option Z) : bool :=
  match o with
  | Some z => negb (z =? 0)%Z
  | None => false
  end.

Definition truthyQ (o : option Q) : bool :=
  match o with
  | Some q => negb (Qeq_bool q 0)
  | None => false
  end.

(** The product, the quotient and the difference are those of doubles;
    [Math.floor] and [Math.max] are exact. *)
Definition calculateMaxContextTokens (mg : Manager) (modelInfo : ModelInfo)
  : Z :=
  if negb (truthyZ (contextWindow modelInfo)) then 0%Z
  else
    let maxTokens :=
      Qfloor
        (Double.div
           (inject_Z
              (Double.mulZ (orElse (contextWindow modelInfo) 0%Z)
                           (maxContextWindowUsage (settings mg))))
           100) in
    let reservedForOutput := maxOutputTokens (settings mg) in
    Z.max 0%Z (Double.subZ maxTokens reservedForOutput).

Definition getMaxOutputTokens (mg : Manager) (modelInfo : ModelInfo) : Z :=
  if truthyZ (maxTokens modelInfo)
     && (orElse (maxTokens modelInfo) 0%Z
         <? maxOutputTokens (settings mg))%Z
  then orElse (maxTokens modelInfo) 0%Z
  else maxOutputTokens (settings mg).

Definition estimateRequestCost (modelInfo : ModelInfo)
           (inputTokens estimatedOutputTokens : Z) : Q :=
  if negb (truthyQ (inputPrice modelInfo))
     || negb (truthyQ (outputPrice modelInfo))
  then 0%Q
  else
    let inputCost :=
      Double.mul (Double.div (orElse (inputPrice modelInfo) 0) 1000000)
                 (inject_Z inputTokens) in
    let outputCost :=
      Double.mul (Double.div (orElse (outputPrice modelInfo) 0) 1000000)
                 (inject_Z estimatedOutputTokens) in
    Double.add inputCost outputCost.

End Cost.

(* ================================================================== *)
(** ** Passes one after the other *)
(* ================================================================== *)

(** The states that an instance reaches from [init] by calls of
    [indexWorkspace] each of which ends before the next begins. *)
Inductive afterPasses (h : Host) (fs : FileSystem) (init : State)
  : State -> Prop :=
| afterPasses_none : afterPasses h fs init init
| afterPasses_more : forall st folders,
    afterPasses h fs init st ->
    afterPasses h fs init (fst (fst (indexWorkspace h fs st folders))).

(** A host whose JSON functions carry one fixed list of entries, and an
    index file written by it. *)
Module ExampleJson.

Definition entries : list (string * IndexedDocument) :=
  JsMap.entries
    (indexedDocuments
       (fst (fst (indexWorkspace Example.host Example.fs
                    (Example.state []) ["/w"])))).

Definition host : Host :=
  mkHost Fragment.fragmentRegExp
         (fun a b => (a ++ "/" ++ b)%string)
         Example.extname Example.basename
         (fun _ => "entries")
         (fun s => if String.eqb s "entries" then Some entries else None)
         None.

End ExampleJson.

(* ================================================================== *)
(** ** CodeCompressor *)
(* ================================================================== *)

Module Compress.
Import JsString Regex.

(** Whether the position after [consumed] is the start of a line, given
    whether the position before it was. *)
Fixpoint lineStartAfter (bol : bool) (consumed : string) : bool :=
  match consumed with
  | EmptyString => bol
  | String a rest => lineStartAfter (isLineTerminator a) rest
  end.

(** [s.replace(/r/g, repl)] for a replacement text free of [$]; with
    [anchored] the pattern is [^r] under the [m] flag, which matches only at
    the start of the input or behind a line terminator.  [bol] tells whether
    the scan stands at such a position.  After an empty match the next code
    unit is copied and the scan resumes behind it. *)
Fixpoint replace_g_fuel (fuel : nat) (anchored : bool) (r : re)
         (repl : string) (bol : bool) (s : string) : string :=
  match fuel with
  | O => s
  | S fuel' =>
      match (if anchored && negb bol then None else match_here r s) with
      | Some (rest, _) =>
          match take (String.length s - String.length rest) s with
          | EmptyString =>
              match s with
              | EmptyString => repl
              | String a s' =>
                  (repl ++ String a
                     (replace_g_fuel fuel' anchored r repl
                        (isLineTerminator a) s'))%string
              end
          | consumed =>
              (repl ++ replace_g_fuel fuel' anchored r repl
                         (lineStartAfter bol consumed) rest)%string
          end
      | None =>
          match s with
          | EmptyString => EmptyString
          | String a s' =>
              String a (replace_g_fuel fuel' anchored r repl
                          (isLineTerminator a) s')
          end
      end
  end.

Definition replace_g (anchored : bool) (r : re) (repl : string)
           (s : string) : string :=
  replace_g_fuel (S (String.length s)) anchored r repl true s.

(** /^\s*[\r\n]/gm without its anchor *)
Definition re_blank_line : re := seq [star ws; Chr isLineTerminator].
(** /\s{2,}/g *)
Definition re_spaces : re := seq [ws; ws; star ws].
(** /console\.log\(.*?\);?/g *)
Definition re_console_log : re :=
  seq [lit "console.log("; lazy_star dot; chr ")"; opt (chr ";")].
(** /debugger;/g *)
Definition re_debugger : re := lit "debugger;".
(** The two docstring patterns: three quote characters, any text as short
    as possible, three quote characters. *)
Definition re_docstring (q : ascii) : re :=
  seq [chr q; chr q; chr q; lazy_star any; chr q; chr q; chr q].
(** /print\(.*?\)/g *)
Definition re_print : re := seq [lit "print("; lazy_star dot; chr ")"].
(** /System\.out\.println\(.*?\);/g *)
Definition re_println : re :=
  seq [lit "System.out.println("; lazy_star dot; lit ");"].
(** /printf\(.*?\);/g *)
Definition re_printf : re := seq [lit "printf("; lazy_star dot; lit ");"].
(** /cout\s*<<\s*.*?;/g *)
Definition re_cout : re :=
  seq [lit "cout"; star ws; lit "<<"; star ws; lazy_star dot; chr ";"].

Definition basicCompression (code : string) : string :=
  let compressed := replace_g false Extract.re_line_comment "" code in
  let compressed :=
    replace_g false Extract.re_block_comment "" compressed in
  let compressed := replace_g true re_blank_line "" compressed in
  let compressed := replace_g false re_spaces " " compressed in
  compressed.

Definition compressJavaScript (code : string) : string :=
  let compressed := basicCompression code in
  let compressed := replace_g false re_console_log "" compressed in
  let compressed := replace_g false re_debugger "" compressed in
  compressed.

Definition compressPython (code : string) : string :=
  let compressed := replace_g false Extract.re_hash_comment "" code in
  let compressed :=
    replace_g false (re_docstring Extract.dq) "" compressed in
  let compressed := replace_g false (re_docstring "'") "" compressed in
  let compressed := replace_g true re_blank_line "" compressed in
  let compressed := replace_g false re_spaces " " compressed in
  let compressed := replace_g false re_print "" compressed in
  compressed.

Definition compressJava (code : string) : string :=
  let compressed := basicCompression code in
  replace_g false re_println "" compressed.

Definition compressCFamily (code : string) : string :=
  let compressed := basicCompression code in
  let compressed := replace_g false re_printf "" compressed in
  let compressed := replace_g false re_cout "" compressed in
  compressed.

Definition compress (code language : string) : string :=
  let l := toLowerCase language in
  if existsb (String.eqb l) ["javascript"; "typescript"; "js"; "ts"]
  then compressJavaScript code
  else if existsb (String.eqb l) ["python"; "py"]
  then compressPython code
  else if String.eqb l "java"
  then compressJava code
  else if existsb (String.eqb l) ["c"; "cpp"; "c++"; "csharp"; "c#"; "cs"]
  then compressCFamily code
  else basicCompression code.

End Compress.

(* ================================================================== *)
(** ** Predicates used in the statements *)
(* ================================================================== *)

(** [t] is the least integer with [n <= 4 * t], that is [ceil(n / 4)]. *)
Definition isCeilQuarter (n t : Z) : Prop :=
  (4 * (t - 1) < n <= 4 * t)%Z.

(** The token count of a document is the one its content gives. *)
Definition tokensFromContent (d : IndexedDocument) : Prop :=
  isCeilQuarter (Z.of_nat (String.length (content d))) (tokens d).

Section Staleness.

Variable h : Host.
Variable fs : FileSystem.

(** The indexer goes on to [fs.readFile] for [filePath]: access is granted,
    [fs.stat] resolves, the file is not too large and the store has no entry
    that is up to date. *)
Definition needsRead (docs : JsMap.t) (filePath : string) : bool :=
  negb (denied h filePath)
  && match stat fs filePath with
     | Some stats =>
         negb (size stats >? 1024 * 1024)%Z
         && negb (upToDate (JsMap.get docs filePath) stats)
     | None => false
     end.

(** A pass has nothing left to do for [filePath]. *)
Definition settled (docs : JsMap.t) (filePath : string) : Prop :=
  needsRead docs filePath = true -> readFile fs filePath = None.

(** The entry of [filePath] was built from the file as it is now. *)
Definition indexedFrom (docs : JsMap.t) (filePath : string) : Prop :=
  exists stats content,
    stat fs filePath = Some stats
    /\ readFile fs filePath = Some content
    /\ JsMap.get docs filePath
       = Some (buildDocument h filePath stats content).

(** The files that the loop over the folders comes to, in order: it stops
    at the first folder whose enumeration fails. *)
Fixpoint visited (folders : list string) : list string :=
  match folders with
  | [] => []
  | folderPath :: rest =>
      match glob fs folderPath with
      | None => []
      | Some files => map (path_join h folderPath) files ++ visited rest
      end
  end.

Fixpoint globOutcome (folders : list string) : Result unit :=
  match folders with
  | [] => Ok tt
  | folderPath :: rest =>
      match glob fs folderPath with
      | None => Throw GlobError
      | Some _ => globOutcome rest
      end
  end.

End Staleness.

(** The guard is set exactly while one call is in flight. *)
Definition guardInvariant (sys : System) : Prop :=
  inFlightCount sys = if isIndexing (service sys) then 1%nat else 0%nat.

(** The number of matches that the host's [RegExp] finds for [term] in
    [text]; a pattern that does not compile finds none. *)
Definition engineCount (h : Host) (term text : string) : nat :=
  match RegExp h term with
  | Some re => re text
  | None => O
  end.

(** While a call is in flight, the instance is where that call, begun in a
    state that passes one after the other reach, has come to; otherwise it
    is in such a state. *)
Definition linearInvariant (h : Host) (fs : FileSystem) (init : State)
           (sys : System) : Prop :=
  exists st0,
    afterPasses h fs init st0
    /\ ((isIndexing (service sys) = false /\ service sys = st0)
        \/ (isIndexing (service sys) = true
            /\ exists folders n,
                 forall i pc,
                   nth_error (calls sys) i = Some pc ->
                   inFlight pc = true ->
                   run h fs n (fst (call st0 folders))
                       (snd (call st0 folders))
                   = (service sys, pc))).

(** What the callers and the event loop do next: a new call of
    [indexWorkspace], or the resumption of the call made as the [i]-th. *)
Inductive Action : Type :=
| Call (folders : list string)
| Resume (i : nat).

(** One action carried out; the resumption of a call that has returned, or
    that was never made, changes nothing. *)
Definition act (h : Host) (fs : FileSystem) (sys : System) (a : Action)
  : System :=
  match a with
  | Call folders =>
      mkSystem (fst (call (service sys) folders))
               (calls sys ++ [snd (call (service sys) folders)])
  | Resume i =>
      match nth_error (calls sys) i with
      | Some pc =>
          if inFlight pc
          then mkSystem (fst (resume h fs (service sys) pc))
                        (update_nth i (snd (resume h fs (service sys) pc))
                                    (calls sys))
          else sys
      | None => sys
      end
  end.

Definition schedule (h : Host) (fs : FileSystem) (init : State)
           (actions : list Action) : System :=
  fold_left (act h fs) actions (mkSystem init []).

(** No update of the global state is rejected. *)
Definition noRejection (rejects : string -> bool) : Prop :=
  forall key, rejects key = false.

(** The keys of [q] laid over those of [p]. *)
Definition mergePartial (p q : Cost.PartialSettings) : Cost.PartialSettings :=
  Cost.mkPartial
    (match Cost.p_optimizationLevel q with
     | Some x => Some x | None => Cost.p_optimizationLevel p end)
    (match Cost.p_maxContextWindowUsage q with
     | Some x => Some x | None => Cost.p_maxContextWindowUsage p end)
    (match Cost.p_useLocalRag q with
     | Some x => Some x | None => Cost.p_useLocalRag p end)
    (match Cost.p_maxOutputTokens q with
     | Some x => Some x | None => Cost.p_maxOutputTokens p end)
    (match Cost.p_compressCodeInContext q with
     | Some x => Some x | None => Cost.p_compressCodeInContext p end).

(** The text starts with a white-space character. *)
Definition firstIsWhiteSpace (s : string) : bool :=
  match s with
  | String a _ => JsString.isWhiteSpace a
  | EmptyString => false
  end.

(** No two white-space characters in a row. *)
Fixpoint noWhiteSpaceRun (s : string) : bool :=
  match s with
  | String a s' =>
      negb (JsString.isWhiteSpace a && firstIsWhiteSpace s')
      && noWhiteSpaceRun s'
  | EmptyString => true
  end.


(* ================================================================== *)
(** * Properties *)
(* ================================================================== *)

(* ================================================================== *)
(** ** Rounding to a double *)
(* ================================================================== *)

Section DoubleFacts.
Import Double.
Local Open Scope Q_scope.

(** *** Powers of two *)

Lemma pow2_pos : forall e : Z, 0 < 2 ^ e.
Proof. intro e. apply Qpower_0_lt. reflexivity. Qed.

Lemma two_neq_0 : ~ 2 == 0.
Proof. intro H. discriminate H. Qed.

Lemma pow2_neq_0 : forall e : Z, ~ 2 ^ e == 0.
Proof.
  intros e E. pose proof (pow2_pos e) as P. rewrite E in P. discriminate P.
Qed.

Lemma pow2_succ : forall e : Z, 2 ^ (e + 1) == 2 * 2 ^ e.
Proof.
  intro e. rewrite Qpower_plus by exact two_neq_0.
  change (2 ^ 1) with 2. ring.
Qed.

Lemma pow2_Z : forall n : Z, (0 <= n)%Z -> inject_Z (2 ^ n) == 2 ^ n.
Proof. intros n Hn. apply (Zpower_Qpower 2 n Hn). Qed.

Lemma pow2_le : forall a b : Z, (a <= b)%Z -> 2 ^ a <= 2 ^ b.
Proof. intros a b H. apply Qpower_le_compat_l; [exact H | discriminate]. Qed.

Lemma pow2_lt_inv : forall a b : Z, 2 ^ a < 2 ^ b -> (a < b)%Z.
Proof. intros a b H. apply (Qpower_lt_compat_l_inv 2); [exact H | reflexivity]. Qed.

(** *** The binade of a positive number *)

Lemma binade_spec : forall x, 0 < x ->
  2 ^ binade x <= x /\ x < 2 ^ (binade x + 1).
Proof.
  intros [n d] Hx.
  assert (Hn : (0 < n)%Z).
  { unfold Qlt in Hx. simpl in Hx. lia. }
  unfold binade. cbn [Qnum Qden].
  set (ln := Z.log2 n). set (ld := Z.log2 (Zpos d)).
  destruct (Z.log2_spec n Hn) as [Hn1 Hn2].
  destruct (Z.log2_spec (Zpos d) eq_refl) as [Hd1 Hd2].
  fold ln in Hn1, Hn2. fold ld in Hd1, Hd2.
  assert (Hln : (0 <= ln)%Z) by apply Z.log2_nonneg.
  assert (Hld : (0 <= ld)%Z) by apply Z.log2_nonneg.
  set (x := n # d) in *.
  set (N := inject_Z n). set (D := inject_Z (Zpos d)).
  assert (HD : 0 < D) by reflexivity.
  assert (EN : x * D == N).
  { unfold x. rewrite (Qmake_Qdiv n d). fold N D. field.
    intro E. rewrite E in HD. discriminate HD. }
  pose proof (pow2_pos ln) as PA. pose proof (pow2_pos ld) as PB.
  assert (PN1 : 2 ^ ln <= N).
  { rewrite <- pow2_Z by exact Hln. unfold N. rewrite <- Zle_Qle. exact Hn1. }
  assert (PN2 : N < 2 * 2 ^ ln).
  { rewrite <- pow2_succ, <- pow2_Z by lia. unfold N. rewrite <- Zlt_Qlt.
    replace (ln + 1)%Z with (Z.succ ln) by lia. exact Hn2. }
  assert (PD1 : 2 ^ ld <= D).
  { rewrite <- pow2_Z by exact Hld. unfold D. rewrite <- Zle_Qle. exact Hd1. }
  assert (PD2 : D < 2 * 2 ^ ld).
  { rewrite <- pow2_succ, <- pow2_Z by lia. unfold D. rewrite <- Zlt_Qlt.
    replace (ld + 1)%Z with (Z.succ ld) by lia. exact Hd2. }
  assert (Hb : 2 ^ (ln - ld) * 2 ^ ld == 2 ^ ln).
  { rewrite <- Qpower_plus by exact two_neq_0.
    replace (ln - ld + ld)%Z with ln by lia. reflexivity. }
  pose proof (pow2_pos (ln - ld)) as PY.
  set (A := 2 ^ ln) in *. set (B := 2 ^ ld) in *.
  destruct (Qle_bool (2 ^ (ln - ld)) x) eqn:E.
  - apply Qle_bool_iff in E. split; [exact E |].
    rewrite pow2_succ. set (y := 2 ^ (ln - ld)) in *.
    destruct (Qlt_le_dec x (2 * y)) as [Hlt | Hge]; [exact Hlt | exfalso].
    nra.
  - assert (E' : x < 2 ^ (ln - ld)).
    { apply Qnot_le_lt. intro H. apply Qle_bool_iff in H. congruence. }
    replace (ln - ld - 1 + 1)%Z with (ln - ld)%Z by lia.
    split; [| exact E'].
    assert (Hh : 2 * 2 ^ (ln - ld - 1) == 2 ^ (ln - ld)).
    { rewrite <- pow2_succ. replace (ln - ld - 1 + 1)%Z with (ln - ld)%Z by lia.
      reflexivity. }
    set (y := 2 ^ (ln - ld)) in *. set (hy := 2 ^ (ln - ld - 1)) in *.
    destruct (Qlt_le_dec x hy) as [Hlt | Hge]; [exfalso | exact Hge].
    nra.
Qed.

Lemma binade_unique : forall x c, 0 < x ->
  2 ^ c <= x -> x < 2 ^ (c + 1) -> binade x = c.
Proof.
  intros x c Hx H1 H2. destruct (binade_spec x Hx) as [B1 B2].
  assert (binade x < c + 1)%Z
    by (apply pow2_lt_inv; eapply Qle_lt_trans; eassumption).
  assert (c < binade x + 1)%Z
    by (apply pow2_lt_inv; eapply Qle_lt_trans; eassumption).
  lia.
Qed.

Lemma binade_mono : forall x y, 0 < x -> x <= y ->
  (binade x <= binade y)%Z.
Proof.
  intros x y Hx Hxy.
  assert (Hy : 0 < y) by (eapply Qlt_le_trans; eassumption).
  destruct (binade_spec x Hx) as [B1 _].
  destruct (binade_spec y Hy) as [_ B2].
  assert (binade x < binade y + 1)%Z.
  { apply pow2_lt_inv. eapply Qle_lt_trans; [exact B1 |].
    eapply Qle_lt_trans; eassumption. }
  lia.
Qed.

(** *** Rounding to the nearest integer, ties to even *)

Lemma nearestEven_cases : forall x,
  nearestEven x = Qfloor x \/ nearestEven x = (Qfloor x + 1)%Z.
Proof.
  intro x. unfold nearestEven.
  destruct (Qcompare (x - inject_Z (Qfloor x)) (1 # 2)); auto.
  destruct (Z.even (Qfloor x)); auto.
Qed.

Lemma nearestEven_near : forall x,
  inject_Z (nearestEven x) - (1 # 2) <= x
  /\ x <= inject_Z (nearestEven x) + (1 # 2).
Proof.
  intro x. unfold nearestEven.
  pose proof (Qfloor_le x) as H1. pose proof (Qlt_floor x) as H2.
  rewrite inject_Z_plus in H2. change (inject_Z 1) with 1 in H2.
  destruct (Qcompare (x - inject_Z (Qfloor x)) (1 # 2)) eqn:C.
  - apply (proj2 (Qeq_alt _ _)) in C.
    destruct (Z.even (Qfloor x));
      [| rewrite inject_Z_plus; change (inject_Z 1) with 1]; lra.
  - apply (proj2 (Qlt_alt _ _)) in C. lra.
  - apply (proj2 (Qgt_alt _ _)) in C. rewrite inject_Z_plus.
    change (inject_Z 1) with 1. lra.
Qed.

Lemma nearestEven_Z : forall x z, x == inject_Z z -> nearestEven x = z.
Proof.
  intros x z E. unfold nearestEven.
  assert (Hf : Qfloor x = z) by (rewrite E; apply Qfloor_Z).
  rewrite Hf.
  assert (C : Qcompare (x - inject_Z z) (1 # 2) = Lt).
  { apply (proj1 (Qlt_alt _ _)). lra. }
  rewrite C. reflexivity.
Qed.

Lemma nearestEven_mono : forall x y, x <= y ->
  (nearestEven x <= nearestEven y)%Z.
Proof.
  intros x y Hxy.
  pose proof (Qfloor_resp_le x y Hxy) as Hf.
  destruct (Z.eq_dec (Qfloor x) (Qfloor y)) as [Efl | Nfl].
  - unfold nearestEven. rewrite <- Efl.
    destruct (Qcompare (x - inject_Z (Qfloor x)) (1 # 2)) eqn:Cx;
      destruct (Qcompare (y - inject_Z (Qfloor x)) (1 # 2)) eqn:Cy;
      try apply (proj2 (Qeq_alt _ _)) in Cx; try apply (proj2 (Qlt_alt _ _)) in Cx;
      try apply (proj2 (Qgt_alt _ _)) in Cx; try apply (proj2 (Qeq_alt _ _)) in Cy;
      try apply (proj2 (Qlt_alt _ _)) in Cy; try apply (proj2 (Qgt_alt _ _)) in Cy;
      destruct (Z.even (Qfloor x)); try lia; exfalso; lra.
  - destruct (nearestEven_cases x) as [-> | ->];
      destruct (nearestEven_cases y) as [-> | ->]; lia.
Qed.

(** *** Rounding a positive number to 53 significant bits *)

Lemma pow2_52 : 2 ^ 52 == 4503599627370496.
Proof. reflexivity. Qed.

Lemma scale_split : forall b : Z, 2 ^ b == 4503599627370496 * 2 ^ (b - 52).
Proof.
  intro b. rewrite <- pow2_52, <- Qpower_plus by exact two_neq_0.
  replace (52 + (b - 52))%Z with b by lia. reflexivity.
Qed.

Lemma mantissa_range : forall x, 0 < x ->
  4503599627370496 <= x / 2 ^ (binade x - 52)
  /\ x / 2 ^ (binade x - 52) < 9007199254740992.
Proof.
  intros x Hx. destruct (binade_spec x Hx) as [B1 B2].
  rewrite pow2_succ, (scale_split (binade x)) in B2.
  rewrite (scale_split (binade x)) in B1.
  pose proof (pow2_pos (binade x - 52)) as PE.
  split.
  - apply Qle_shift_div_l; [exact PE | exact B1].
  - apply Qlt_shift_div_r; [exact PE |]. lra.
Qed.

Lemma mantissa_scaled : forall x e, x / 2 ^ e * 2 ^ e == x.
Proof.
  intros x e. field. apply pow2_neq_0.
Qed.

Lemma nearestEven_range : forall x, 0 < x ->
  (4503599627370496
   <= nearestEven (x / 2 ^ (binade x - 52))
   <= 9007199254740992)%Z.
Proof.
  intros x Hx. destruct (mantissa_range x Hx) as [M1 M2].
  split.
  - rewrite <- (nearestEven_Z (inject_Z 4503599627370496) _ (Qeq_refl _)).
    apply nearestEven_mono. exact M1.
  - rewrite <- (nearestEven_Z (inject_Z 9007199254740992) _ (Qeq_refl _)).
    apply nearestEven_mono. apply Qlt_le_weak. exact M2.
Qed.

Lemma roundPositive_range : forall x, 0 < x ->
  2 ^ binade x <= roundPositive x
  /\ roundPositive x <= 2 ^ (binade x + 1).
Proof.
  intros x Hx. unfold roundPositive.
  destruct (nearestEven_range x Hx) as [N1 N2].
  rewrite Zle_Qle in N1, N2.
  rewrite pow2_succ, (scale_split (binade x)).
  pose proof (pow2_pos (binade x - 52)) as PE.
  set (E := 2 ^ (binade x - 52)) in *.
  set (m := inject_Z (nearestEven (x / E))) in *.
  change (inject_Z 4503599627370496) with 4503599627370496 in N1.
  change (inject_Z 9007199254740992) with 9007199254740992 in N2.
  split; nra.
Qed.

Lemma roundPositive_pos : forall x, 0 < x -> 0 < roundPositive x.
Proof.
  intros x Hx. destruct (roundPositive_range x Hx) as [R _].
  eapply Qlt_le_trans; [apply pow2_pos | exact R].
Qed.

Lemma roundPositive_err : forall x, 0 < x ->
  x - x * eps <= roundPositive x /\ roundPositive x <= x + x * eps.
Proof.
  intros x Hx. unfold roundPositive.
  destruct (binade_spec x Hx) as [B1 _].
  rewrite (scale_split (binade x)) in B1.
  pose proof (pow2_pos (binade x - 52)) as PE.
  pose proof (mantissa_scaled x (binade x - 52)) as HM.
  destruct (nearestEven_near (x / 2 ^ (binade x - 52))) as [N1 N2].
  set (E := 2 ^ (binade x - 52)) in *.
  set (M := x / E) in *.
  set (m := inject_Z (nearestEven M)) in *.
  unfold eps. split; nra.
Qed.

Lemma roundPositive_mono : forall x y, 0 < x -> x <= y ->
  roundPositive x <= roundPositive y.
Proof.
  intros x y Hx Hxy.
  assert (Hy : 0 < y) by (eapply Qlt_le_trans; eassumption).
  pose proof (binade_mono x y Hx Hxy) as Hb.
  destruct (Z.eq_dec (binade x) (binade y)) as [Eb | Nb].
  - unfold roundPositive. rewrite Eb.
    pose proof (pow2_pos (binade y - 52)) as PE.
    assert (HM : x / 2 ^ (binade y - 52) <= y / 2 ^ (binade y - 52)).
    { apply Qmult_le_compat_r; [exact Hxy |].
      apply Qlt_le_weak, Qinv_lt_0_compat, PE. }
    apply nearestEven_mono in HM. rewrite Zle_Qle in HM.
    apply Qmult_le_compat_r; [exact HM | apply Qlt_le_weak, PE].
  - destruct (roundPositive_range x Hx) as [_ R1].
    destruct (roundPositive_range y Hy) as [R2 _].
    eapply Qle_trans; [exact R1 |].
    eapply Qle_trans; [| exact R2].
    apply pow2_le. lia.
Qed.

Lemma roundPositive_exact : forall x k, 0 < x ->
  x / 2 ^ (binade x - 52) == inject_Z k -> roundPositive x == x.
Proof.
  intros x k Hx Hk. unfold roundPositive.
  rewrite (nearestEven_Z _ k Hk), <- Hk. apply mantissa_scaled.
Qed.

Lemma inject_Z_pos : forall z, (0 < z)%Z -> 0 < inject_Z z.
Proof.
  intros z H. change (inject_Z 0 < inject_Z z). rewrite <- Zlt_Qlt. exact H.
Qed.

Lemma binade_Z : forall z, (0 < z)%Z -> binade (inject_Z z) = Z.log2 z.
Proof.
  intros z Hz. destruct (Z.log2_spec z Hz) as [L1 L2].
  assert (Hl : (0 <= Z.log2 z)%Z) by apply Z.log2_nonneg.
  apply binade_unique.
  - apply inject_Z_pos, Hz.
  - rewrite <- pow2_Z by exact Hl. rewrite <- Zle_Qle. exact L1.
  - rewrite <- pow2_Z by lia. rewrite <- Zlt_Qlt.
    replace (Z.log2 z + 1)%Z with (Z.succ (Z.log2 z)) by lia. exact L2.
Qed.

Lemma roundPositive_Z_small : forall z,
  (0 < z < 9007199254740992)%Z ->
  roundPositive (inject_Z z) == inject_Z z.
Proof.
  intros z [Hz Hlt].
  assert (Hq : 0 < inject_Z z) by (apply inject_Z_pos, Hz).
  assert (Hl : (Z.log2 z < 53)%Z).
  { apply Z.log2_lt_pow2; [exact Hz | exact Hlt]. }
  apply (roundPositive_exact _ (z * 2 ^ (52 - Z.log2 z)) Hq).
  rewrite (binade_Z z Hz), inject_Z_mult, pow2_Z by lia.
  replace (Z.log2 z - 52)%Z with (- (52 - Z.log2 z))%Z by lia.
  rewrite Qpower_opp. field. apply pow2_neq_0.
Qed.

Lemma roundPositive_Z_large : forall z,
  (9007199254740992 <= z)%Z ->
  exists k, roundPositive (inject_Z z) == inject_Z k.
Proof.
  intros z Hz.
  assert (Hz0 : (0 < z)%Z) by lia.
  assert (Hl : (53 <= Z.log2 z)%Z).
  { change 53%Z with (Z.log2 9007199254740992).
    apply Z.log2_le_mono. exact Hz. }
  unfold roundPositive. rewrite (binade_Z z Hz0).
  exists (nearestEven (inject_Z z / 2 ^ (Z.log2 z - 52))
          * 2 ^ (Z.log2 z - 52))%Z.
  rewrite inject_Z_mult, pow2_Z by lia. reflexivity.
Qed.

(** *** Rounding with sign *)

Lemma round_pos : forall x, 0 < x -> round x = roundPositive x.
Proof.
  intros x Hx. unfold round.
  rewrite (proj1 (Qgt_alt x 0) Hx). reflexivity.
Qed.

Lemma round_neg : forall x, x < 0 -> round x = - roundPositive (- x).
Proof.
  intros x Hx. unfold round.
  rewrite (proj1 (Qlt_alt x 0) Hx). reflexivity.
Qed.

Lemma round_zero : forall x, x == 0 -> round x = 0.
Proof.
  intros x Hx. unfold round.
  rewrite (proj1 (Qeq_alt x 0) Hx). reflexivity.
Qed.

Lemma round_nonneg : forall x, 0 <= x -> 0 <= round x.
Proof.
  intros x Hx. destruct (Qlt_le_dec 0 x) as [Hp | Hz].
  - rewrite (round_pos x Hp). apply Qlt_le_weak, roundPositive_pos, Hp.
  - rewrite (round_zero x); [apply Qle_refl | lra].
Qed.

Lemma round_nonpos : forall x, x <= 0 -> round x <= 0.
Proof.
  intros x Hx. destruct (Qlt_le_dec x 0) as [Hn | Hz].
  - rewrite (round_neg x Hn).
    assert (Hp : 0 < - x) by lra.
    pose proof (roundPositive_pos (- x) Hp). lra.
  - rewrite (round_zero x); [apply Qle_refl | lra].
Qed.

Lemma round_mono : forall x y, x <= y -> round x <= round y.
Proof.
  intros x y Hxy.
  destruct (Qlt_le_dec 0 x) as [Hx | Hx].
  - assert (Hy : 0 < y) by lra.
    rewrite (round_pos x Hx), (round_pos y Hy).
    apply roundPositive_mono; assumption.
  - destruct (Qlt_le_dec y 0) as [Hy | Hy].
    + assert (Hx' : x < 0) by lra.
      rewrite (round_neg x Hx'), (round_neg y Hy).
      assert (Hm : roundPositive (- y) <= roundPositive (- x))
        by (apply roundPositive_mono; lra).
      lra.
    + eapply Qle_trans; [apply round_nonpos, Hx | apply round_nonneg, Hy].
Qed.

Lemma round_comp : forall x y, x == y -> round x == round y.
Proof.
  intros x y E. apply Qle_antisym; apply round_mono; rewrite E;
    apply Qle_refl.
Qed.

Lemma round_err : forall x, 0 <= x ->
  x - x * eps <= round x /\ round x <= x + x * eps.
Proof.
  intros x Hx. destruct (Qlt_le_dec 0 x) as [Hp | Hz].
  - rewrite (round_pos x Hp). apply roundPositive_err, Hp.
  - rewrite (round_zero x) by lra. unfold eps. split; lra.
Qed.

Lemma round_Z_exact : forall z,
  (0 <= z <= 9007199254740992)%Z -> round (inject_Z z) == inject_Z z.
Proof.
  intros z [H0 H1].
  destruct (Z.eq_dec z 0) as [-> | Hn]; [reflexivity |].
  assert (Hq : 0 < inject_Z z) by (apply inject_Z_pos; lia).
  rewrite (round_pos _ Hq).
  destruct (Z.eq_dec z 9007199254740992) as [-> | Hm].
  - apply (roundPositive_exact _ 4503599627370496 Hq).
    rewrite (binade_Z 9007199254740992 eq_refl). reflexivity.
  - apply roundPositive_Z_small. lia.
Qed.

Lemma round_Z_integer : forall z, exists k, round (inject_Z z) == inject_Z k.
Proof.
  assert (Hpos : forall z, (0 < z)%Z ->
                 exists k, roundPositive (inject_Z z) == inject_Z k).
  { intros z Hz. destruct (Z_lt_le_dec z 9007199254740992) as [Hs | Hl].
    - exists z. apply roundPositive_Z_small. lia.
    - apply roundPositive_Z_large, Hl. }
  intro z. destruct (Z.lt_total z 0) as [Hn | [-> | Hp]].
  - assert (Hq : inject_Z z < 0).
    { change (inject_Z z < inject_Z 0). rewrite <- Zlt_Qlt. exact Hn. }
    rewrite (round_neg _ Hq).
    change (- inject_Z z) with (inject_Z (- z)).
    destruct (Hpos (- z)%Z) as [k Hk]; [lia |].
    exists (- k)%Z. rewrite Hk. rewrite inject_Z_opp. reflexivity.
  - exists 0%Z. reflexivity.
  - rewrite (round_pos _ (inject_Z_pos z Hp)). apply Hpos, Hp.
Qed.

Lemma round_roundZ : forall z, round (inject_Z z) == inject_Z (roundZ z).
Proof.
  intro z. destruct (round_Z_integer z) as [k Hk].
  unfold roundZ. rewrite Hk, Qfloor_Z. reflexivity.
Qed.

Lemma roundZ_exact : forall z,
  (0 <= z <= 9007199254740992)%Z -> roundZ z = z.
Proof.
  intros z Hz. unfold roundZ. rewrite (round_Z_exact z Hz).
  apply Qfloor_Z.
Qed.

Lemma roundZ_mono : forall a b, (a <= b)%Z -> (roundZ a <= roundZ b)%Z.
Proof.
  intros a b H. unfold roundZ. apply Qfloor_resp_le, round_mono.
  rewrite <- Zle_Qle. exact H.
Qed.

Lemma roundZ_nonpos : forall z, (z <= 0)%Z -> (roundZ z <= 0)%Z.
Proof.
  intros z H. change 0%Z with (roundZ 0). apply roundZ_mono, H.
Qed.


End DoubleFacts.


(** ** Arithmetic of scores and token counts *)

Lemma Qpositive_spec : forall q, Qpositive q = true <-> (0 < q)%Q.
Proof.
  intro q. unfold Qpositive. rewrite Qlt_alt.
  destruct (0 ?= q)%Q; split; congruence.
Qed.

Lemma compareFn_positive : forall a b,
  Qpositive (compareFn a b) = true <->
  (relevanceScore a < relevanceScore b)%Q.
Proof.
  intros a b. rewrite Qpositive_spec. unfold compareFn.
  symmetry. apply Qlt_minus_iff.
Qed.

Lemma compareFn_not_positive : forall a b,
  Qpositive (compareFn a b) = false -> descending a b.
Proof.
  intros a b H. unfold descending. apply Qnot_lt_le. intro Hlt.
  apply compareFn_positive in Hlt. congruence.
Qed.

Lemma estimateTokenCount_ceil : forall text,
  isCeilQuarter (Z.of_nat (String.length text)) (estimateTokenCount text).
Proof.
  intro text. unfold isCeilQuarter, estimateTokenCount.
  set (n := Z.of_nat (String.length text)).
  set (q := (inject_Z n / 4)%Q).
  assert (Hq : (q * 4 == inject_Z n)%Q).
  { unfold q. field. }
  pose proof (Qle_ceiling q) as Hle.
  pose proof (Qceiling_lt q) as Hlt.
  split.
  - apply (Qmult_lt_r _ _ 4%Q) in Hlt; [| reflexivity].
    rewrite Hq in Hlt.
    assert (E : (inject_Z (Qceiling q - 1) * 4 ==
                 inject_Z (4 * (Qceiling q - 1)))%Q).
    { rewrite inject_Z_mult. change (inject_Z 4) with 4%Q. ring. }
    rewrite E in Hlt. rewrite <- Zlt_Qlt in Hlt. exact Hlt.
  - apply (Qmult_le_r _ _ 4%Q) in Hle; [| reflexivity].
    rewrite Hq in Hle.
    assert (E : (inject_Z (Qceiling q) * 4 == inject_Z (4 * Qceiling q))%Q).
    { rewrite inject_Z_mult. change (inject_Z 4) with 4%Q. ring. }
    rewrite E in Hle. rewrite <- Zle_Qle in Hle. exact Hle.
Qed.

Lemma estimateTokenCount_div : forall text,
  estimateTokenCount text = ((Z.of_nat (String.length text) + 3) / 4)%Z.
Proof.
  intro text. pose proof (estimateTokenCount_ceil text) as [H1 H2].
  set (n := Z.of_nat (String.length text)) in *.
  pose proof (Z.div_mod (n + 3) 4 ltac:(lia)) as Hd.
  pose proof (Z.mod_pos_bound (n + 3) 4 ltac:(lia)) as Hb.
  lia.
Qed.

(** ** Ranking and the token budget *)

Section SearchFacts.

Variable h : Host.

Lemma insert_perm : forall x l, Permutation (insert x l) (x :: l).
Proof.
  intros x l. induction l as [| y l IH]; simpl.
  - apply Permutation_refl.
  - destruct (Qpositive (compareFn x y)).
    + eapply perm_trans; [apply perm_skip, IH | apply perm_swap].
    + apply Permutation_refl.
Qed.

Lemma sort_perm : forall l, Permutation (sort l) l.
Proof.
  induction l as [| x l IH]; simpl.
  - apply perm_nil.
  - eapply perm_trans; [apply insert_perm | apply perm_skip, IH].
Qed.

Lemma descending_trans : forall a b c,
  descending a b -> descending b c -> descending a c.
Proof.
  unfold descending. intros a b c Hab Hbc. eapply Qle_trans; eauto.
Qed.

Lemma insert_sorted : forall x l,
  StronglySorted descending l -> StronglySorted descending (insert x l).
Proof.
  intros x l Hs. induction Hs as [| y l Hs IH Hall]; simpl.
  - constructor; constructor.
  - destruct (Qpositive (compareFn x y)) eqn:E.
    + constructor; [exact IH |].
      apply compareFn_positive in E.
      rewrite Forall_forall in *. intros z Hz.
      apply (Permutation_in _ (insert_perm x l)) in Hz.
      destruct Hz as [<- | Hz]; [| auto].
      unfold descending. apply Qlt_le_weak. exact E.
    + apply compareFn_not_positive in E.
      constructor; [constructor; assumption |].
      constructor; [exact E |].
      rewrite Forall_forall in *. intros z Hz.
      eapply descending_trans; eauto.
Qed.

Lemma sort_sorted : forall l, StronglySorted descending (sort l).
Proof.
  induction l as [| x l IH]; simpl.
  - constructor.
  - apply insert_sorted, IH.
Qed.


Lemma slice0_incl : forall (A : Type) (xs : list A) e x,
  In x (slice0 xs e) -> In x xs.
Proof.
  intros A xs e x Hx. unfold slice0 in Hx.
  eapply (In_nth_error) in Hx. destruct Hx as [n Hn].
  rewrite <- (firstn_skipn (Z.to_nat
    (if (e <? 0)%Z then Z.max (Z.of_nat (length xs) + e) 0
     else Z.min e (Z.of_nat (length xs)))) xs).
  apply in_or_app. left. eapply nth_error_In. exact Hn.
Qed.

Lemma filterByTokens_incl : forall maxTokens l total x,
  In x (filterByTokens maxTokens total l) -> In x l.
Proof.
  intros maxTokens l. induction l as [| r l IH]; simpl; intros total x Hx.
  - exact Hx.
  - destruct (Double.addZ total (tokens (document r)) <=? maxTokens)%Z.
    + destruct Hx as [-> | Hx]; [left; reflexivity | right; eauto].
    + right; eauto.
Qed.




(** What the loop over the documents pushes. *)
Lemma scoreDocuments_sound : forall terms docs results,
  scoreDocuments h docs terms = Ok results ->
  forall r, In r results ->
    In (document r) docs
    /\ scoreDocument h (document r) terms = Ok (relevanceScore r)
    /\ (0 < relevanceScore r)%Q.
Proof.
  intros terms docs. induction docs as [| d docs IH]; simpl;
    intros results H r Hr.
  - inversion H; subst. destruct Hr.
  - destruct (scoreDocument h d terms) as [score |] eqn:Es;
      simpl in H; [| discriminate].
    destruct (scoreDocuments h docs terms) as [rs |] eqn:Er;
      simpl in H; [| discriminate].
    inversion H; subst; clear H.
    destruct (Qpositive score) eqn:Ep.
    + destruct Hr as [<- | Hr].
      * simpl. repeat split; auto. apply Qpositive_spec, Ep.
      * destruct (IH rs eq_refl r Hr) as (Hin & Hs & Hp). auto.
    + destruct (IH rs eq_refl r Hr) as (Hin & Hs & Hp). auto.
Qed.

Lemma searchDocuments_inv : forall docs query maxResults maxTokens results,
  searchDocuments h docs query maxResults maxTokens = Ok results ->
  exists scored,
    scoreDocuments h (JsMap.values docs) (queryTerms query) = Ok scored
    /\ results = filterByTokens maxTokens 0
                   (slice0 (sort scored) maxResults).
Proof.
  intros docs query maxResults maxTokens results H.
  unfold searchDocuments in H.
  destruct (scoreDocuments h (JsMap.values docs) (queryTerms query))
    as [scored |] eqn:E; simpl in H; [| discriminate].
  exists scored. split; [reflexivity |]. congruence.
Qed.

End SearchFacts.

(** C4.  Every result that [search] returns carries the score that the
    scoring loop computed for its document, that score is strictly positive,
    and a document of the store whose score is zero or negative is the
    document of no result. *)
Theorem search_scores_positive :
  forall (h : Host) (st : State) (query : string) (maxResults maxTokens : Z)
         (results : list SearchResult),
    snd (search h st query maxResults maxTokens) = Ok results ->
    (forall r, In r results ->
       In (document r) (JsMap.values (indexedDocuments st))
       /\ scoreDocument h (document r) (queryTerms query)
          = Ok (relevanceScore r)
       /\ (0 < relevanceScore r)%Q)
    /\ (forall doc score,
          scoreDocument h doc (queryTerms query) = Ok score ->
          (score <= 0)%Q ->
          forall r, In r results -> document r <> doc).
Proof.
  intros h st query maxResults maxTokens results H.
  simpl in H. apply searchDocuments_inv in H.
  destruct H as (scored & Hs & ->).
  assert (Hall : forall r,
    In r (filterByTokens maxTokens 0 (slice0 (sort scored) maxResults)) ->
    In (document r) (JsMap.values (indexedDocuments st))
    /\ scoreDocument h (document r) (queryTerms query)
       = Ok (relevanceScore r)
    /\ (0 < relevanceScore r)%Q).
  { intros r Hr.
    apply filterByTokens_incl, slice0_incl in Hr.
    apply (Permutation_in _ (sort_perm scored)) in Hr.
    eapply scoreDocuments_sound; eauto. }
  split; [exact Hall |].
  intros doc score Hscore Hle r Hr Heq.
  destruct (Hall r Hr) as (_ & Hsr & Hpos).
  rewrite Heq, Hscore in Hsr. inversion Hsr; subst.
  apply (Qlt_not_le _ _ Hpos). exact Hle.
Qed.

Lemma search_scores_positive_witness :
  exists results,
    snd (search Example.host
           (Example.state [("a", Example.doc "a" "foo foo" 0 100);
                           ("z", Example.doc "z" "nothing here" 0 3)])
           "foo" 5 1000) = Ok results
    /\ map (fun r => path (document r)) results = ["a"]
    /\ forall r, In r results -> (0 < relevanceScore r)%Q.
Proof.
  eexists. split; [vm_compute; reflexivity |].
  split; [reflexivity |].
  intros r Hr.
  apply (search_scores_positive Example.host
           (Example.state [("a", Example.doc "a" "foo foo" 0 100);
                           ("z", Example.doc "z" "nothing here" 0 3)])
           "foo" 5 1000 _ eq_refl).
  exact Hr.
Defined.

(** A negative cap is not a count: [slice(0, e)] then drops [-e] results
    from the end of the ranking. *)
Lemma slice0_negative : forall (A : Type) (xs : list A) e,
  (e < 0)%Z ->
  slice0 xs e = firstn (length xs - Z.to_nat (- e)) xs.
Proof.
  intros A xs e He. unfold slice0.
  destruct (e <? 0)%Z eqn:E; [| apply Z.ltb_ge in E; lia].
  f_equal. lia.
Qed.

(** The scenarios of the specification. *)
Example scenario_symbol_boost :
  exists r,
    snd (search Example.host
           (Example.state
              [("a.ts",
                mkDoc "a.ts" "function foo() {}" "typescript" 0 5
                      (Some ["foo"]) (Some []) (Some []) (Some [])
                      (Some "typescript"))])
           "foo" 5 10000) = Ok [r]
    /\ path (document r) = "a.ts"
    /\ (relevanceScore r == 6 # 5)%Q.
Proof.
  eexists. split; [vm_compute; reflexivity |].
  split; reflexivity.
Qed.

Example scenario_budget_skip :
  let first := mkResult (Example.doc "one" "" 0 100) 10 in
  let second := mkResult (Example.doc "two" "" 0 50) 5 in
  filterByTokens 120 0 (slice0 (sort [second; first]) 5) = [first].
Proof. vm_compute. reflexivity. Qed.

Example scenario_no_match :
  snd (search Example.host
         (Example.state [("a", Example.doc "a" "foo bar" 0 2)])
         "nonexistent_term_zzz" 10 1000) = Ok [].
Proof. vm_compute. reflexivity. Qed.

Lemma contentScore_host : forall h h' terms text acc,
  RegExp h' = RegExp h ->
  contentScore h' text terms acc = contentScore h text terms acc.
Proof.
  intros h h' terms text acc E. revert acc.
  induction terms as [| t terms IH]; intro acc; simpl; [reflexivity |].
  unfold countMatches. rewrite E.
  destruct (RegExp h t); simpl; [apply IH | reflexivity].
Qed.

Lemma scoreDocuments_host : forall h h' docs terms,
  RegExp h' = RegExp h ->
  scoreDocuments h' docs terms = scoreDocuments h docs terms.
Proof.
  intros h h' docs terms E.
  induction docs as [| d docs IH]; simpl; [reflexivity |].
  unfold scoreDocument. rewrite (contentScore_host h h' _ _ _ E), IH.
  reflexivity.
Qed.

(** ** The order of the results is fixed by the store *)

Lemma sameScore_refl : forall r, sameScore (relevanceScore r) r = true.
Proof. intro r. apply Qeq_bool_iff. reflexivity. Qed.

Lemma filter_In_head : forall (q : Q) x l l',
  filter (sameScore q) l = x :: l' -> In x l /\ sameScore q x = true.
Proof.
  intros q x l l' H.
  assert (Hin : In x (filter (sameScore q) l)) by (rewrite H; left; reflexivity).
  apply filter_In in Hin. exact Hin.
Qed.

(** A list in ranked order is determined by the order among the results of
    equal score. *)
Lemma stable_sort_unique : forall l1 l2,
  StronglySorted descending l1 ->
  StronglySorted descending l2 ->
  (forall q, filter (sameScore q) l1 = filter (sameScore q) l2) ->
  l1 = l2.
Proof.
  induction l1 as [| x l1 IH]; intros l2 S1 S2 Hf.
  - destruct l2 as [| y l2]; [reflexivity | exfalso].
    specialize (Hf (relevanceScore y)). simpl in Hf.
    rewrite sameScore_refl in Hf. discriminate Hf.
  - destruct l2 as [| y l2].
    { exfalso. specialize (Hf (relevanceScore x)). simpl in Hf.
      rewrite sameScore_refl in Hf. discriminate Hf. }
    inversion S1 as [| ? ? S1' A1]; subst.
    inversion S2 as [| ? ? S2' A2]; subst.
    rewrite Forall_forall in A1, A2.
    assert (Hhead : forall z l,
      filter (sameScore (relevanceScore z)) (z :: l)
      = z :: filter (sameScore (relevanceScore z)) l).
    { intros z l. cbn [filter]. rewrite sameScore_refl. reflexivity. }
    assert (Hxy : (relevanceScore x <= relevanceScore y)%Q).
    { pose proof (Hf (relevanceScore x)) as H. rewrite Hhead in H.
      symmetry in H. apply filter_In_head in H.
      destruct H as [[<- | Hin] _].
      - apply Qle_refl.
      - apply (A2 x Hin). }
    assert (Hyx : (relevanceScore y <= relevanceScore x)%Q).
    { pose proof (Hf (relevanceScore y)) as H. rewrite (Hhead y) in H.
      apply filter_In_head in H. destruct H as [[<- | Hin] _].
      - apply Qle_refl.
      - apply (A1 y Hin). }
    assert (Hq : sameScore (relevanceScore x) y = true).
    { apply Qeq_bool_iff. apply Qle_antisym; assumption. }
    assert (Exy : x = y).
    { pose proof (Hf (relevanceScore x)) as H. simpl in H.
      rewrite sameScore_refl, Hq in H. congruence. }
    subst y. f_equal. apply IH; [exact S1' | exact S2' |].
    intro q. specialize (Hf q). simpl in Hf.
    destruct (sameScore q x); congruence.
Qed.

Lemma conformingSort_unique : forall sort1 sort2,
  conformingSort sort1 -> conformingSort sort2 ->
  forall l, sort1 l = sort2 l.
Proof.
  intros sort1 sort2 H1 H2 l.
  destruct (H1 l) as (_ & S1 & F1). destruct (H2 l) as (_ & S2 & F2).
  apply stable_sort_unique; [exact S1 | exact S2 |].
  intro q. rewrite F1, F2. reflexivity.
Qed.

Lemma insert_stable : forall q x l,
  filter (sameScore q) (insert x l) = filter (sameScore q) (x :: l).
Proof.
  intros q x l. induction l as [| y l IH]; [reflexivity |].
  cbn [insert].
  destruct (Qpositive (compareFn x y)) eqn:E; [| reflexivity].
  apply compareFn_positive in E.
  cbn [filter] in *. rewrite IH.
  destruct (sameScore q x) eqn:Ex; [| reflexivity].
  destruct (sameScore q y) eqn:Ey; [exfalso | reflexivity].
  apply Qeq_bool_iff in Ex. apply Qeq_bool_iff in Ey.
  rewrite Ex, Ey in E. apply (Qlt_irrefl q), E.
Qed.

(** The sort of the model is one of the sorts that an engine may have. *)
Lemma sort_conforming : conformingSort sort.
Proof.
  intro l. split; [apply sort_perm | split; [apply sort_sorted |]].
  intro q. induction l as [| x l IH]; [reflexivity |].
  cbn [sort fold_right]. fold (sort l).
  rewrite insert_stable. cbn [filter]. rewrite IH. reflexivity.
Qed.

Lemma filter_none : forall (A : Type) (f : A -> bool) l,
  (forall z, In z l -> f z = false) -> filter f l = [].
Proof.
  intros A f l. induction l as [| x l IH]; intro H; [reflexivity |].
  cbn [filter]. rewrite (H x (or_introl eq_refl)).
  apply IH. intros z Hz. apply H. right. exact Hz.
Qed.

(** The sort that works from the left is another one. *)
Lemma placeBehind_perm : forall x l,
  Permutation (Example.placeBehind x l) (x :: l).
Proof.
  intros x l. induction l as [| y l IH]; simpl.
  - apply Permutation_refl.
  - destruct (Qpositive (compareFn y x)); [apply Permutation_refl |].
    eapply perm_trans; [apply perm_skip, IH | apply perm_swap].
Qed.

Lemma placeBehind_sorted : forall x l,
  StronglySorted descending l ->
  StronglySorted descending (Example.placeBehind x l).
Proof.
  intros x l Hs. induction Hs as [| y l Hs IH Hall]; simpl.
  - constructor; constructor.
  - destruct (Qpositive (compareFn y x)) eqn:E.
    + apply compareFn_positive in E.
      constructor; [constructor; assumption |].
      constructor; [unfold descending; apply Qlt_le_weak, E |].
      rewrite Forall_forall in *. intros z Hz. specialize (Hall z Hz).
      unfold descending in *. apply Qlt_le_weak in E.
      eapply Qle_trans; eassumption.
    + apply compareFn_not_positive in E.
      constructor; [exact IH |].
      rewrite Forall_forall in *. intros z Hz.
      apply (Permutation_in _ (placeBehind_perm x l)) in Hz.
      destruct Hz as [<- | Hz]; [exact E | apply Hall, Hz].
Qed.

Lemma placeBehind_stable : forall q x l,
  StronglySorted descending l ->
  filter (sameScore q) (Example.placeBehind x l)
  = filter (sameScore q) l ++ filter (sameScore q) [x].
Proof.
  intros q x l Hs. induction Hs as [| y l Hs IH Hall]; [reflexivity |].
  cbn [Example.placeBehind].
  destruct (Qpositive (compareFn y x)) eqn:E.
  - apply compareFn_positive in E.
    destruct (sameScore q x) eqn:Ex.
    + assert (Hnone : filter (sameScore q) (y :: l) = []).
      { apply filter_none. intros z Hz.
        apply not_true_is_false. intro Ez.
        apply Qeq_bool_iff in Ex. apply Qeq_bool_iff in Ez.
        rewrite Ex in E.
        destruct Hz as [<- | Hz].
        - rewrite Ez in E. apply (Qlt_irrefl q), E.
        - rewrite Forall_forall in Hall. specialize (Hall z Hz).
          unfold descending in Hall. rewrite Ez in Hall.
          apply (Qlt_irrefl q). eapply Qle_lt_trans; eassumption. }
      change (filter (sameScore q) (x :: y :: l))
        with (if sameScore q x
              then x :: filter (sameScore q) (y :: l)
              else filter (sameScore q) (y :: l)).
      rewrite Ex, Hnone. cbn [filter app]. rewrite Ex. reflexivity.
    + cbn [filter]. rewrite Ex. rewrite app_nil_r. reflexivity.
  - cbn [filter] in *. rewrite IH.
    destruct (sameScore q y); reflexivity.
Qed.

Lemma sortFromLeft_acc : forall l placed,
  StronglySorted descending placed ->
  Permutation (fold_left (fun p x => Example.placeBehind x p) l placed)
              (placed ++ l)
  /\ StronglySorted descending
       (fold_left (fun p x => Example.placeBehind x p) l placed)
  /\ forall q,
       filter (sameScore q)
              (fold_left (fun p x => Example.placeBehind x p) l placed)
       = filter (sameScore q) placed ++ filter (sameScore q) l.
Proof.
  induction l as [| x l IH]; intros placed Hs; cbn [fold_left].
  - rewrite app_nil_r. repeat split; auto.
    intro q. rewrite app_nil_r. reflexivity.
  - destruct (IH (Example.placeBehind x placed)
                 (placeBehind_sorted x placed Hs)) as (P & S & F).
    split; [| split].
    + eapply perm_trans; [exact P |].
      apply (perm_trans (Permutation_app_tail l (placeBehind_perm x placed))).
      cbn [app]. apply Permutation_middle.
    + exact S.
    + intro q. rewrite F, (placeBehind_stable q x placed Hs).
      rewrite <- app_assoc. cbn [filter].
      destruct (sameScore q x); reflexivity.
Qed.

Lemma sortFromLeft_conforming : conformingSort Example.sortFromLeft.
Proof.
  intro l. unfold Example.sortFromLeft.
  destruct (sortFromLeft_acc l [] (SSorted_nil _)) as (P & S & F).
  split; [exact P | split; [exact S | exact F]].
Qed.

(** C8.  [search] leaves the instance as it was, and its result is fixed by
    the stored documents in their order, the query and the two limits: two
    invocations with the same arguments on instances with the same store
    return the same results in the same order.  That order does not depend
    on the algorithm that the engine sorts with either: with every sort that
    works as ECMAScript requires (a stable sort), the results are those that
    the model computes, results of equal score in the order of the store. *)
Theorem search_deterministic :
  forall (h : Host) (st st' : State) (query : string)
         (maxResults maxTokens : Z),
    indexedDocuments st' = indexedDocuments st ->
    fst (search h st query maxResults maxTokens) = st
    /\ snd (search h st' query maxResults maxTokens)
       = snd (search h st query maxResults maxTokens)
    /\ forall sort1 sort2 : list SearchResult -> list SearchResult,
         conformingSort sort1 ->
         conformingSort sort2 ->
         fst (searchWith h sort1 st query maxResults maxTokens) = st
         /\ snd (searchWith h sort2 st' query maxResults maxTokens)
            = snd (searchWith h sort1 st query maxResults maxTokens)
         /\ snd (searchWith h sort1 st query maxResults maxTokens)
            = snd (search h st query maxResults maxTokens).
Proof.
  intros h st st' query maxResults maxTokens Hst.
  split; [reflexivity |].
  split; [unfold search; cbn [snd]; rewrite Hst; reflexivity |].
  intros sort1 sort2 H1 H2.
  assert (Hw : forall sortFn docs,
    conformingSort sortFn ->
    searchDocumentsWith h sortFn docs query maxResults maxTokens
    = searchDocuments h docs query maxResults maxTokens).
  { intros sortFn docs Hc. unfold searchDocumentsWith, searchDocuments.
    destruct (scoreDocuments h (JsMap.values docs) (queryTerms query))
      as [scored | e]; [| reflexivity].
    cbn [bind].
    rewrite (conformingSort_unique sortFn sort Hc sort_conforming scored).
    reflexivity. }
  unfold searchWith, search. cbn [fst snd].
  rewrite Hst, !Hw by assumption. repeat split.
Qed.

Lemma search_deterministic_witness :
  exists results,
    snd (searchWith Example.host sort
           (Example.state [("a", Example.doc "a" "foo" 0 10);
                           ("b", Example.doc "b" "foo foo" 0 10);
                           ("c", Example.doc "c" "foo" 0 10)])
           "foo" 5 100) = Ok results
    /\ map (fun r => path (document r)) results = ["b"; "a"; "c"]
    /\ snd (searchWith Example.host Example.sortFromLeft
              (mkState [("a", Example.doc "a" "foo" 0 10);
                        ("b", Example.doc "b" "foo foo" 0 10);
                        ("c", Example.doc "c" "foo" 0 10)]
                       true (Blob "stale"))
              "foo" 5 100) = Ok results.
Proof.
  eexists. split; [vm_compute; reflexivity |].
  split; [reflexivity |].
  destruct (search_deterministic Example.host
              (Example.state [("a", Example.doc "a" "foo" 0 10);
                              ("b", Example.doc "b" "foo foo" 0 10);
                              ("c", Example.doc "c" "foo" 0 10)])
              (mkState [("a", Example.doc "a" "foo" 0 10);
                        ("b", Example.doc "b" "foo foo" 0 10);
                        ("c", Example.doc "c" "foo" 0 10)]
                       true (Blob "stale"))
              "foo" 5 100 eq_refl)
    as (_ & _ & H).
  destruct (H sort Example.sortFromLeft sort_conforming
              sortFromLeft_conforming) as (_ & H2 & _).
  rewrite H2. vm_compute. reflexivity.
Defined.

(** ** Deduplication of the extracted lists *)

Lemma existsb_eqb_In : forall (x : string) (l : list string),
  existsb (String.eqb x) l = true <-> In x l.
Proof.
  intros x l. rewrite existsb_exists. split.
  - intros (y & Hy & E). apply String.eqb_eq in E. subst. exact Hy.
  - intro H. exists x. split; [exact H | apply String.eqb_refl].
Qed.

Lemma array_from_Set_acc_spec : forall xs seen,
  NoDup (array_from_Set_acc seen xs)
  /\ forall x, In x (array_from_Set_acc seen xs) <->
               (In x xs /\ ~ In x seen).
Proof.
  induction xs as [| y xs IH]; intro seen; simpl.
  - split; [constructor | intro x; tauto].
  - destruct (existsb (String.eqb y) seen) eqn:E.
    + apply existsb_eqb_In in E.
      destruct (IH seen) as [Hnd Hin]. split; [exact Hnd |].
      intro x. rewrite Hin. split.
      * intros [H1 H2]. auto.
      * intros [[<- | H1] H2]; [contradiction | auto].
    + assert (Hy : ~ In y seen).
      { intro Hy. apply existsb_eqb_In in Hy. congruence. }
      destruct (IH (y :: seen)) as [Hnd Hin]. split.
      * constructor; [| exact Hnd].
        rewrite Hin. simpl. tauto.
      * intro x. simpl. rewrite Hin. simpl.
        destruct (string_dec y x) as [-> | Hne]; tauto.
Qed.

Lemma array_from_Set_NoDup : forall xs, NoDup (array_from_Set xs).
Proof. intro xs. apply (array_from_Set_acc_spec xs []). Qed.

Lemma array_from_Set_In : forall xs x, In x (array_from_Set xs) <-> In x xs.
Proof.
  intros xs x. unfold array_from_Set.
  destruct (array_from_Set_acc_spec xs []) as [_ H]. rewrite H.
  simpl. tauto.
Qed.

(** The three extractors that end in [[...new Set(...)]] return lists
    without repetition, whatever the content and the language. *)
Lemma extractSymbols_NoDup : forall content language,
  NoDup (Extract.extractSymbols content language).
Proof. intros. apply array_from_Set_NoDup. Qed.

Lemma extractImports_NoDup : forall content language,
  NoDup (Extract.extractImports content language).
Proof. intros. apply array_from_Set_NoDup. Qed.

Lemma extractExports_NoDup : forall content language,
  NoDup (Extract.extractExports content language).
Proof. intros. apply array_from_Set_NoDup. Qed.

(** C3.  The list of comments is not deduplicated: [extractComments] returns
    the array it filled, so a file with the same comment on two lines yields
    that comment twice, in every language, while the symbols, imports and
    exports of every content come without repetition. *)
Theorem extractComments_keeps_duplicates :
  (forall language,
     Extract.extractComments ("// a" ++ Example.nl ++ "// a") language
     = ["a"; "a"])
  /\ (forall language,
        ~ NoDup (Extract.extractComments
                   ("// a" ++ Example.nl ++ "// a") language))
  /\ (forall content language,
        NoDup (Extract.extractSymbols content language)
        /\ NoDup (Extract.extractImports content language)
        /\ NoDup (Extract.extractExports content language)).
Proof.
  assert (E : forall language,
    Extract.extractComments ("// a" ++ Example.nl ++ "// a") language
    = ["a"; "a"]).
  { intro language. vm_compute. reflexivity. }
  split; [exact E |]. split.
  - intros language Hnd. rewrite E in Hnd.
    inversion Hnd as [| x l Hnin _]; subst. apply Hnin. left. reflexivity.
  - intros content language.
    auto using extractSymbols_NoDup, extractImports_NoDup,
      extractExports_NoDup.
Qed.

(** ** Start-up *)

(** C9.  [initialize] never rejects.  [loadIndex] rejects exactly when the
    index file cannot be read or its text does not parse into entries, and
    in that case, as when the file is absent, the instance starts with the
    empty store; when the file loads, the store holds its entries. *)
Theorem initialize_degrades_to_empty :
  forall (h : Host) (fs : FileSystem) (st : State),
    snd (initialize h fs st) = Ok tt
    /\ (snd (loadIndex h st) = Throw LoadError <->
        match indexFile st with
        | Blob data => JSON_parse_entries h data = None
        | _ => True
        end)
    /\ (indexFile st = Absent \/ snd (loadIndex h st) = Throw LoadError ->
        indexedDocuments (fst (initialize h fs st)) = JsMap.empty)
    /\ (forall data serializedIndex,
          indexFile st = Blob data ->
          JSON_parse_entries h data = Some serializedIndex ->
          indexedDocuments (fst (initialize h fs st))
          = JsMap.of_entries serializedIndex).
Proof.
  intros h fs st.
  assert (Hsave : forall s, indexedDocuments (saveIndex h fs s)
                            = indexedDocuments s).
  { intro s. unfold saveIndex. destruct (writable fs); reflexivity. }
  unfold initialize, loadIndex.
  destruct (indexFile st) as [| | data] eqn:Ef.
  - split; [reflexivity |]. split; [tauto |]. split.
    + intros _. simpl. rewrite Hsave. reflexivity.
    + intros; discriminate.
  - split; [reflexivity |]. split; [tauto |]. split.
    + intros _. simpl. rewrite Hsave. reflexivity.
    + intros; discriminate.
  - destruct (JSON_parse_entries h data) as [es |] eqn:Ep; simpl.
    + split; [reflexivity |]. split; [split; discriminate |]. split.
      * intros [H | H]; discriminate.
      * intros d es' Hd Hes. inversion Hd; subst.
        rewrite Ep in Hes. inversion Hes; subst. reflexivity.
    + split; [reflexivity |]. split; [tauto |]. split.
      * intros _. simpl. rewrite Hsave. reflexivity.
      * intros d es' Hd Hes. inversion Hd; subst.
        rewrite Ep in Hes. discriminate.
Qed.

Lemma initialize_degrades_to_empty_witness :
  indexedDocuments
    (fst (initialize Example.host Example.fs
            (mkState [("old", Example.doc "old" "x" 0 1)] false
                     (Blob "{not json"))))
  = JsMap.empty.
Proof.
  apply (initialize_degrades_to_empty Example.host Example.fs
           (mkState [("old", Example.doc "old" "x" 0 1)] false
                    (Blob "{not json"))).
  right. reflexivity.
Defined.

(** ** The store under [set] *)

Lemma get_set_same : forall mp k d, JsMap.get (JsMap.set mp k d) k = Some d.
Proof.
  induction mp as [| [k' d'] mp IH]; intros k d; simpl.
  - rewrite String.eqb_refl. reflexivity.
  - destruct (String.eqb k' k) eqn:E; simpl; rewrite E; auto.
Qed.

Lemma get_set_other : forall mp k k' d,
  k <> k' -> JsMap.get (JsMap.set mp k d) k' = JsMap.get mp k'.
Proof.
  induction mp as [| [k0 d0] mp IH]; intros k k' d Hne; simpl.
  - destruct (String.eqb k k') eqn:E; [| reflexivity].
    apply String.eqb_eq in E. contradiction.
  - destruct (String.eqb k0 k) eqn:E; simpl.
    + apply String.eqb_eq in E. subst k0.
      destruct (String.eqb k k') eqn:E'; [| reflexivity].
      apply String.eqb_eq in E'. contradiction.
    + destruct (String.eqb k0 k'); [reflexivity | apply IH, Hne].
Qed.

(** ** One indexing pass *)

Section IndexFacts.

Variable h : Host.
Variable fs : FileSystem.

Lemma indexFile1_skip : forall docs p,
  needsRead h fs docs p = false -> indexFile1 h fs docs p = (docs, []).
Proof.
  intros docs p H. unfold needsRead in H. unfold indexFile1.
  destruct (denied h p); [reflexivity |].
  destruct (stat fs p) as [stats |]; [| reflexivity].
  destruct (size stats >? 1024 * 1024)%Z; [reflexivity |].
  destruct (upToDate (JsMap.get docs p) stats); [reflexivity |].
  discriminate.
Qed.

Lemma indexFile1_read : forall docs p,
  needsRead h fs docs p = true ->
  exists stats,
    stat fs p = Some stats
    /\ indexFile1 h fs docs p
       = match readFile fs p with
         | None => (docs, [p])
         | Some content =>
             (JsMap.set docs p (buildDocument h p stats content), [p])
         end.
Proof.
  intros docs p H. unfold needsRead in H. unfold indexFile1.
  destruct (denied h p); [discriminate |].
  destruct (stat fs p) as [stats |]; [| discriminate].
  exists stats. split; [reflexivity |].
  destruct (size stats >? 1024 * 1024)%Z; [discriminate |].
  destruct (upToDate (JsMap.get docs p) stats); [discriminate |].
  reflexivity.
Qed.

Lemma upToDate_built : forall p stats content,
  upToDate (Some (buildDocument h p stats content)) stats = true.
Proof. intros. simpl. apply Z.leb_refl. Qed.

(** Indexing some file never makes another file due for reading. *)
Lemma needsRead_mono : forall docs q p,
  needsRead h fs (fst (indexFile1 h fs docs q)) p = true ->
  needsRead h fs docs p = true.
Proof.
  intros docs q p H.
  destruct (needsRead h fs docs q) eqn:Eq.
  - destruct (indexFile1_read docs q Eq) as (stats & Hst & E).
    rewrite E in H. destruct (readFile fs q) as [c |]; simpl in H; auto.
    unfold needsRead in *.
    destruct (string_dec q p) as [-> | Hne].
    + rewrite get_set_same in H. rewrite Hst in H.
      rewrite upToDate_built in H.
      rewrite !andb_false_r in H. discriminate.
    + rewrite get_set_other in H by assumption. exact H.
  - rewrite (indexFile1_skip docs q Eq) in H. exact H.
Qed.

Lemma settled_after : forall docs p,
  settled h fs (fst (indexFile1 h fs docs p)) p.
Proof.
  intros docs p Hn. pose proof (needsRead_mono docs p p Hn) as Hn0.
  destruct (indexFile1_read docs p Hn0) as (stats & Hst & E).
  rewrite E in Hn. destruct (readFile fs p) as [c |]; [| reflexivity].
  simpl in Hn. unfold needsRead in Hn.
  rewrite get_set_same, Hst, upToDate_built in Hn.
  rewrite !andb_false_r in Hn. discriminate.
Qed.

Lemma settled_preserved : forall docs q p,
  settled h fs docs p -> settled h fs (fst (indexFile1 h fs docs q)) p.
Proof.
  intros docs q p Hs Hn. apply Hs. eapply needsRead_mono; eauto.
Qed.

Lemma indexFile1_settled : forall docs p,
  settled h fs docs p ->
  fst (indexFile1 h fs docs p) = docs
  /\ forall x, In x (snd (indexFile1 h fs docs p)) -> readFile fs x = None.
Proof.
  intros docs p Hs. destruct (needsRead h fs docs p) eqn:En.
  - destruct (indexFile1_read docs p En) as (stats & Hst & E).
    rewrite E. rewrite (Hs En). simpl. split; [reflexivity |].
    intros x [<- | []]. apply Hs, En.
  - rewrite (indexFile1_skip docs p En). simpl. split; [reflexivity |].
    intros x [].
Qed.

Lemma indexFiles_settles : forall ps docs,
  (forall p, In p ps -> settled h fs (fst (indexFiles h fs docs ps)) p)
  /\ (forall p, settled h fs docs p ->
                settled h fs (fst (indexFiles h fs docs ps)) p).
Proof.
  induction ps as [| q ps IH]; intro docs; simpl.
  - split; [intros p [] | auto].
  - destruct (indexFile1 h fs docs q) as [docs1 r1] eqn:E1.
    destruct (indexFiles h fs docs1 ps) as [docs2 r2] eqn:E2.
    simpl. destruct (IH docs1) as [IHa IHb]. rewrite E2 in IHa, IHb.
    simpl in IHa, IHb.
    assert (Hq : settled h fs docs1 q).
    { pose proof (settled_after docs q) as Hq. rewrite E1 in Hq. exact Hq. }
    split.
    + intros p [<- | Hp]; auto.
    + intros p Hp. apply IHb.
      pose proof (settled_preserved docs q p Hp) as H1.
      rewrite E1 in H1. exact H1.
Qed.

Lemma indexFiles_settled : forall ps docs,
  (forall p, In p ps -> settled h fs docs p) ->
  fst (indexFiles h fs docs ps) = docs
  /\ forall x, In x (snd (indexFiles h fs docs ps)) -> readFile fs x = None.
Proof.
  induction ps as [| q ps IH]; intros docs Hall; simpl.
  - split; [reflexivity | intros x []].
  - destruct (indexFile1_settled docs q (Hall q (or_introl eq_refl)))
      as [E1 R1].
    destruct (indexFile1 h fs docs q) as [docs1 r1]. simpl in E1, R1.
    subst docs1.
    destruct (IH docs (fun p Hp => Hall p (or_intror Hp))) as [E2 R2].
    destruct (indexFiles h fs docs ps) as [docs2 r2]. simpl in *.
    split; [exact E2 |].
    intros x Hx. apply in_app_or in Hx. destruct Hx; auto.
Qed.

Lemma indexFiles_app : forall ps qs docs,
  indexFiles h fs docs (ps ++ qs)
  = (fst (indexFiles h fs (fst (indexFiles h fs docs ps)) qs),
     snd (indexFiles h fs docs ps)
     ++ snd (indexFiles h fs (fst (indexFiles h fs docs ps)) qs)).
Proof.
  induction ps as [| p ps IH]; intros qs docs; simpl.
  - destruct (indexFiles h fs docs qs); reflexivity.
  - destruct (indexFile1 h fs docs p) as [docs1 r1].
    rewrite IH.
    destruct (indexFiles h fs docs1 ps) as [docs2 r2]. simpl.
    rewrite app_assoc. reflexivity.
Qed.

(** The loop over the folders is the loop over the files it comes to. *)
Lemma indexFolders_flat : forall folders docs,
  indexFolders h fs docs folders
  = (fst (indexFiles h fs docs (visited h fs folders)),
     snd (indexFiles h fs docs (visited h fs folders)),
     globOutcome fs folders).
Proof.
  induction folders as [| f folders IH]; intro docs; simpl.
  - reflexivity.
  - destruct (glob fs f) as [files |]; [| reflexivity].
    rewrite indexFiles_app.
    destruct (indexFiles h fs docs (map (path_join h f) files))
      as [docs1 r1]. simpl.
    rewrite IH. reflexivity.
Qed.

(** Only files that are due at the start of the loop are read in it. *)
Lemma indexFiles_reads_due : forall ps docs p,
  In p (snd (indexFiles h fs docs ps)) -> needsRead h fs docs p = true.
Proof.
  induction ps as [| q ps IH]; simpl; intros docs p Hp.
  - destruct Hp.
  - destruct (indexFile1 h fs docs q) as [docs1 r1] eqn:E1.
    destruct (indexFiles h fs docs1 ps) as [docs2 r2] eqn:E2.
    simpl in Hp. apply in_app_or in Hp. destruct Hp as [Hp | Hp].
    + destruct (needsRead h fs docs q) eqn:En.
      * destruct (indexFile1_read docs q En) as (stats & _ & E).
        rewrite E in E1.
        destruct (readFile fs q); inversion E1; subst;
          destruct Hp as [<- | []]; exact En.
      * rewrite (indexFile1_skip docs q En) in E1. inversion E1; subst.
        destruct Hp.
    + apply (needsRead_mono docs q p).
      rewrite E1. simpl. apply (IH docs1 p).
      rewrite E2. exact Hp.
Qed.

Lemma upToDate_not_due : forall docs p d stats,
  JsMap.get docs p = Some d ->
  stat fs p = Some stats ->
  (mtime stats <= lastModified d)%Z ->
  needsRead h fs docs p = false.
Proof.
  intros docs p d stats Hg Hs Hle. unfold needsRead.
  rewrite Hs, Hg. simpl. apply Z.leb_le in Hle. rewrite Hle.
  rewrite !andb_false_r. reflexivity.
Qed.

Lemma indexedFrom_preserved : forall docs q p,
  indexedFrom h fs docs p ->
  indexedFrom h fs (fst (indexFile1 h fs docs q)) p.
Proof.
  intros docs q p (stats & c & Hs & Hr & Hg).
  destruct (needsRead h fs docs q) eqn:En.
  - destruct (indexFile1_read docs q En) as (stats' & Hs' & E).
    rewrite E. destruct (readFile fs q) as [c' |] eqn:Er; simpl.
    + destruct (string_dec q p) as [-> | Hne].
      * exfalso. unfold needsRead in En. rewrite Hs, Hg in En.
        rewrite upToDate_built in En.
        rewrite !andb_false_r in En. discriminate.
      * exists stats, c. rewrite get_set_other by assumption. auto.
    + exists stats, c. auto.
  - rewrite (indexFile1_skip docs q En). exists stats, c. auto.
Qed.

Lemma indexFiles_indexedFrom : forall ps docs p,
  (indexedFrom h fs docs p ->
   indexedFrom h fs (fst (indexFiles h fs docs ps)) p)
  /\ (forall c, In p (snd (indexFiles h fs docs ps)) ->
                readFile fs p = Some c ->
                indexedFrom h fs (fst (indexFiles h fs docs ps)) p).
Proof.
  induction ps as [| q ps IH]; intros docs p; simpl.
  - split; [auto | intros c []].
  - destruct (indexFile1 h fs docs q) as [docs1 r1] eqn:E1.
    destruct (IH docs1 p) as [IHa IHb].
    destruct (indexFiles h fs docs1 ps) as [docs2 r2] eqn:E2.
    simpl in *. split.
    + intro Hp. apply IHa.
      pose proof (indexedFrom_preserved docs q p Hp) as H1.
      rewrite E1 in H1. exact H1.
    + intros c Hin Hr. apply in_app_or in Hin.
      destruct Hin as [Hin | Hin]; [| eauto].
      apply IHa.
      destruct (needsRead h fs docs q) eqn:En.
      * destruct (indexFile1_read docs q En) as (stats & Hs & E).
        rewrite E in E1.
        destruct (readFile fs q) as [c' |] eqn:Er; inversion E1; subst;
          destruct Hin as [<- | []].
        -- exists stats, c'. rewrite get_set_same. auto.
        -- congruence.
      * rewrite (indexFile1_skip docs q En) in E1. inversion E1; subst.
        destruct Hin.
Qed.

Lemma indexFile1_tokens : forall docs q,
  (forall k d, JsMap.get docs k = Some d -> tokensFromContent d) ->
  forall k d, JsMap.get (fst (indexFile1 h fs docs q)) k = Some d ->
              tokensFromContent d.
Proof.
  intros docs q Hall k d Hg.
  destruct (needsRead h fs docs q) eqn:En.
  - destruct (indexFile1_read docs q En) as (stats & Hs & E).
    rewrite E in Hg. destruct (readFile fs q) as [c |]; simpl in Hg.
    + destruct (string_dec q k) as [-> | Hne].
      * rewrite get_set_same in Hg. inversion Hg; subst.
        unfold tokensFromContent. simpl. apply estimateTokenCount_ceil.
      * rewrite get_set_other in Hg by assumption. eauto.
    + eauto.
  - rewrite (indexFile1_skip docs q En) in Hg. eauto.
Qed.

Lemma indexFiles_tokens : forall ps docs,
  (forall k d, JsMap.get docs k = Some d -> tokensFromContent d) ->
  forall k d, JsMap.get (fst (indexFiles h fs docs ps)) k = Some d ->
              tokensFromContent d.
Proof.
  induction ps as [| q ps IH]; simpl; intros docs Hall k d Hg.
  - eauto.
  - pose proof (indexFile1_tokens docs q Hall) as H1.
    destruct (indexFile1 h fs docs q) as [docs1 r1]. simpl in H1.
    specialize (IH docs1 H1 k d).
    destruct (indexFiles h fs docs1 ps) as [docs2 r2]. simpl in *. auto.
Qed.

(** What one call does to the instance, in terms of the loop over the files
    it comes to. *)
Lemma indexWorkspace_unfold : forall st folders,
  isIndexing st = false ->
  let docs := fst (indexFiles h fs (indexedDocuments st)
                              (visited h fs folders)) in
  indexWorkspace h fs st folders
  = (mkState docs false
             (match globOutcome fs folders with
              | Ok _ => if writable fs
                        then Blob (JSON_stringify h (JsMap.entries docs))
                        else indexFile st
              | Throw _ => indexFile st
              end),
     snd (indexFiles h fs (indexedDocuments st) (visited h fs folders)),
     globOutcome fs folders).
Proof.
  intros st folders Hg. unfold indexWorkspace. rewrite Hg. simpl.
  rewrite indexFolders_flat.
  destruct (globOutcome fs folders); [| reflexivity].
  unfold saveIndex. simpl. destruct (writable fs); reflexivity.
Qed.

End IndexFacts.

(** C5.  Every file that an indexing pass reads ends the pass with an entry
    that holds the content just read and the token count
    [ceil(length(content) / 4)] of that content, whatever the store held for
    the file before; and a store whose documents all have the token count of
    their content keeps that property through the pass. *)
Theorem tokenCount_recomputed :
  forall (h : Host) (fs : FileSystem) (st : State) (folders : list string)
         (st' : State) (reads : list string) (res : Result unit),
    indexWorkspace h fs st folders = (st', reads, res) ->
    (forall p c,
       In p reads -> readFile fs p = Some c ->
       exists d,
         JsMap.get (indexedDocuments st') p = Some d
         /\ content d = c
         /\ tokens d = estimateTokenCount c
         /\ isCeilQuarter (Z.of_nat (String.length c)) (tokens d))
    /\ ((forall k d, JsMap.get (indexedDocuments st) k = Some d ->
                     tokensFromContent d) ->
        forall k d, JsMap.get (indexedDocuments st') k = Some d ->
                    tokensFromContent d).
Proof.
  intros h fs st folders st' reads res H.
  destruct (isIndexing st) eqn:Eg.
  - unfold indexWorkspace in H. rewrite Eg in H. inversion H; subst.
    split; [intros p c [] | auto].
  - rewrite (indexWorkspace_unfold h fs st folders Eg) in H.
    inversion H; subst; clear H. simpl. split.
    + intros p c Hin Hr.
      destruct (indexFiles_indexedFrom h fs (visited h fs folders)
                  (indexedDocuments st) p) as [_ Hb].
      destruct (Hb c Hin Hr) as (stats & c' & Hs & Hr' & Hg).
      rewrite Hr in Hr'. inversion Hr'; subst c'.
      eexists. split; [exact Hg |]. simpl.
      repeat split; try reflexivity; apply estimateTokenCount_ceil.
    + intros Hall. apply indexFiles_tokens, Hall.
Qed.

Lemma tokenCount_recomputed_witness :
  exists d,
    JsMap.get (indexedDocuments
                 (fst (fst (indexWorkspace Example.host Example.fs
                              (Example.state
                                 [("/w/a.ts",
                                   Example.doc "/w/a.ts" "old" 50 99)])
                              ["/w"]))))
              "/w/a.ts" = Some d
    /\ content d = "function foo() {}"
    /\ tokens d = 5%Z.
Proof.
  destruct (tokenCount_recomputed Example.host Example.fs
              (Example.state [("/w/a.ts", Example.doc "/w/a.ts" "old" 50 99)])
              ["/w"] _ _ _ eq_refl) as [H _].
  destruct (H "/w/a.ts" "function foo() {}") as (d & Hg & Hc & Ht & _).
  - simpl. left. reflexivity.
  - reflexivity.
  - exists d. split; [exact Hg |]. split; [exact Hc |].
    rewrite Ht. reflexivity.
Defined.

(** C6.  A second indexing pass over an unchanged file system leaves the
    whole instance, the store included, as the first pass left it and ends
    the same way; the only reads it issues are reads that fail again.  In any
    pass, a file whose entry has a [lastModified] at or after the file's
    modification time is not read. *)
Theorem reindex_idempotent :
  forall (h : Host) (fs : FileSystem) (st : State) (folders : list string)
         (st1 st2 : State) (r1 r2 : list string) (res1 res2 : Result unit),
    indexWorkspace h fs st folders = (st1, r1, res1) ->
    indexWorkspace h fs st1 folders = (st2, r2, res2) ->
    st2 = st1
    /\ indexedDocuments st2 = indexedDocuments st1
    /\ res2 = res1
    /\ (forall p, In p r2 -> readFile fs p = None)
    /\ (forall p d stats,
          JsMap.get (indexedDocuments st) p = Some d ->
          stat fs p = Some stats ->
          (mtime stats <= lastModified d)%Z ->
          ~ In p r1).
Proof.
  intros h fs st folders st1 st2 r1 r2 res1 res2 H1 H2.
  destruct (isIndexing st) eqn:Eg.
  - unfold indexWorkspace in H1. rewrite Eg in H1. inversion H1; subst.
    unfold indexWorkspace in H2. rewrite Eg in H2. inversion H2; subst.
    repeat split; auto. intros p [].
  - rewrite (indexWorkspace_unfold h fs st folders Eg) in H1.
    inversion H1; subst; clear H1.
    rewrite indexWorkspace_unfold in H2 by reflexivity. simpl in H2.
    set (ps := visited h fs folders) in *.
    set (docs1 := fst (indexFiles h fs (indexedDocuments st) ps)) in *.
    destruct (indexFiles_settles h fs ps (indexedDocuments st)) as [Hs _].
    destruct (indexFiles_settled h fs ps docs1 Hs) as [Hd Hr].
    rewrite Hd in H2. inversion H2; subst; clear H2.
    assert (E : mkState docs1 false
                  match globOutcome fs folders with
                  | Ok _ =>
                      if writable fs
                      then Blob (JSON_stringify h (JsMap.entries docs1))
                      else
                        match globOutcome fs folders with
                        | Ok _ =>
                            if writable fs
                            then Blob (JSON_stringify h
                                         (JsMap.entries docs1))
                            else indexFile st
                        | Throw _ => indexFile st
                        end
                  | Throw _ =>
                      match globOutcome fs folders with
                      | Ok _ =>
                          if writable fs
                          then Blob (JSON_stringify h (JsMap.entries docs1))
                          else indexFile st
                      | Throw _ => indexFile st
                      end
                  end
                = mkState docs1 false
                    match globOutcome fs folders with
                    | Ok _ =>
                        if writable fs
                        then Blob (JSON_stringify h (JsMap.entries docs1))
                        else indexFile st
                    | Throw _ => indexFile st
                    end).
    { destruct (globOutcome fs folders); destruct (writable fs);
        reflexivity. }
    split; [exact E |]. split; [reflexivity |]. split; [reflexivity |].
    split; [exact Hr |].
    intros p d stats Hg Hst Hle Hin.
    apply indexFiles_reads_due in Hin.
    rewrite (upToDate_not_due h fs _ p d stats Hg Hst Hle) in Hin.
    discriminate.
Qed.

Lemma reindex_idempotent_witness :
  fst (fst (indexWorkspace Example.host Example.fs
              (fst (fst (indexWorkspace Example.host Example.fs
                           (Example.state []) ["/w"])))
              ["/w"]))
  = fst (fst (indexWorkspace Example.host Example.fs
                (Example.state []) ["/w"])).
Proof.
  apply (reindex_idempotent Example.host Example.fs (Example.state [])
           ["/w"] _ _ _ _ _ _ eq_refl eq_refl).
Defined.

(** ** Overlapping calls of [indexWorkspace] *)

Section GuardFacts.

Variable h : Host.
Variable fs : FileSystem.

Lemma nextFolder_inFlight : forall folders,
  inFlight (nextFolder folders) = true.
Proof. intros [| f folders]; reflexivity. Qed.

Lemma nextFile_inFlight : forall folderPath files folders,
  inFlight (nextFile h folderPath files folders) = true.
Proof.
  intros folderPath files folders.
  induction files as [| f files IH]; simpl.
  - apply nextFolder_inFlight.
  - destruct (denied h (path_join h folderPath f)); [exact IH | reflexivity].
Qed.

(** A resumed call either stays in flight with the guard untouched or
    returns with the guard cleared. *)
Lemma resume_guard : forall st pc,
  inFlight pc = true ->
  (inFlight (snd (resume h fs st pc)) = true
   /\ isIndexing (fst (resume h fs st pc)) = isIndexing st)
  \/ (inFlight (snd (resume h fs st pc)) = false
      /\ isIndexing (fst (resume h fs st pc)) = false).
Proof.
  intros st pc Hp. destruct pc; simpl in *; try discriminate.
  - destruct (glob fs folderPath); simpl.
    + left. split; [apply nextFile_inFlight | reflexivity].
    + right. split; reflexivity.
  - left. destruct (stat fs filePath) as [stats |]; simpl.
    + destruct (size stats >? _)%Z; simpl;
        [split; [apply nextFile_inFlight | reflexivity] |].
      destruct (upToDate _ stats); simpl;
        split; try apply nextFile_inFlight; reflexivity.
    + split; [apply nextFile_inFlight | reflexivity].
  - left. destruct (readFile fs filePath); simpl;
      split; try apply nextFile_inFlight; reflexivity.
  - destruct (writable fs); simpl; [left | right]; split; reflexivity.
  - right. split; reflexivity.
Qed.

Lemma filter_inFlight_update : forall l i pc pc',
  nth_error l i = Some pc ->
  (length (filter inFlight (update_nth i pc' l))
   + (if inFlight pc then 1 else 0)
   = length (filter inFlight l) + (if inFlight pc' then 1 else 0))%nat.
Proof.
  induction l as [| x l IH]; intros i pc pc' Hn.
  - destruct i; discriminate.
  - destruct i as [| i]; simpl in *.
    + inversion Hn; subst.
      destruct (inFlight pc), (inFlight pc'); simpl; lia.
    + specialize (IH i pc pc' Hn).
      destruct (inFlight x); simpl; lia.
Qed.

Lemma step_guardInvariant : forall s s',
  guardInvariant s -> step h fs s s' -> guardInvariant s'.
Proof.
  intros s s' Hinv Hstep. unfold guardInvariant, inFlightCount in *.
  destruct Hstep as [sys folders | sys i pc Hn Hp].
  - unfold call. destruct (isIndexing (service sys)) eqn:Eg; simpl.
    + rewrite filter_app, length_app. simpl. rewrite Eg. lia.
    + rewrite filter_app, length_app. simpl.
      rewrite nextFolder_inFlight. simpl. lia.
  - simpl.
    pose proof (filter_inFlight_update (calls sys) i pc
                  (snd (resume h fs (service sys) pc)) Hn) as Hc.
    rewrite Hp in Hc.
    assert (Hpos : (1 <= length (filter inFlight (calls sys)))%nat).
    { apply nth_error_In in Hn.
      assert (Hin : In pc (filter inFlight (calls sys)))
        by (apply filter_In; auto).
      destruct (filter inFlight (calls sys)); [destruct Hin | simpl; lia]. }
    destruct (isIndexing (service sys)) eqn:Eg; [| lia].
    destruct (resume_guard (service sys) pc Hp) as [[H1 H2] | [H1 H2]];
      rewrite H1 in Hc; rewrite H2; [rewrite Eg |]; lia.
Qed.

Lemma reachable_guardInvariant : forall init sys,
  isIndexing init = false -> reachable h fs init sys -> guardInvariant sys.
Proof.
  intros init sys Hi Hr. induction Hr as [| s s' Hr IH Hs].
  - unfold guardInvariant, inFlightCount. simpl. rewrite Hi. reflexivity.
  - eapply step_guardInvariant; eauto.
Qed.

End GuardFacts.

(** C7.  In every state that the instance reaches from an idle start by
    calls of [indexWorkspace] and resumptions of suspended calls, at most one
    call is in flight, and the guard is set exactly then.  A call that finds
    the guard set returns at once, successfully, with the instance as it
    was; and a call that returns after a resumption, with success or with a
    failure, leaves the guard cleared. *)
Theorem indexing_passes_never_interleave :
  forall (h : Host) (fs : FileSystem) (init : State) (sys : System),
    isIndexing init = false ->
    reachable h fs init sys ->
    (inFlightCount sys <= 1)%nat
    /\ (isIndexing (service sys) = true <-> inFlightCount sys = 1%nat)
    /\ (forall folders,
          isIndexing (service sys) = true ->
          call (service sys) folders = (service sys, Returned (Ok tt))
          /\ indexWorkspace h fs (service sys) folders
             = (service sys, [], Ok tt))
    /\ (forall pc res,
          inFlight pc = true ->
          snd (resume h fs (service sys) pc) = Returned res ->
          isIndexing (fst (resume h fs (service sys) pc)) = false).
Proof.
  intros h fs init sys Hi Hr.
  pose proof (reachable_guardInvariant h fs init sys Hi Hr) as Hinv.
  unfold guardInvariant in Hinv.
  split; [| split; [| split]].
  - destruct (isIndexing (service sys)); lia.
  - destruct (isIndexing (service sys)); split; intro; try lia;
      try discriminate; reflexivity.
  - intros folders Hg. unfold call, indexWorkspace. rewrite Hg.
    split; reflexivity.
  - intros pc res Hp Hres.
    destruct (resume_guard h fs (service sys) pc Hp) as [[H1 _] | [_ H2]].
    + rewrite Hres in H1. discriminate.
    + exact H2.
Qed.

Lemma indexing_passes_never_interleave_witness :
  let s1 := mkSystem (fst (call (Example.state []) ["/nowhere"]))
                     [snd (call (Example.state []) ["/nowhere"])] in
  let s2 := mkSystem (fst (call (service s1) ["/w"]))
                     (calls s1 ++ [snd (call (service s1) ["/w"])]) in
  calls s2 = [AwaitGlob "/nowhere" []; Returned (Ok tt)]
  /\ (inFlightCount s2 <= 1)%nat
  /\ resume Example.host Example.fs (service s2) (AwaitGlob "/nowhere" [])
     = (Example.state [], Returned (Throw GlobError)).
Proof.
  intros s1 s2.
  assert (R1 : reachable Example.host Example.fs (Example.state []) s1).
  { apply (reach_step _ _ _ (mkSystem (Example.state []) []));
      [apply reach_init |].
    apply (step_call Example.host Example.fs
             (mkSystem (Example.state []) []) ["/nowhere"]). }
  assert (R2 : reachable Example.host Example.fs (Example.state []) s2).
  { apply (reach_step _ _ _ s1); [exact R1 |].
    apply (step_call Example.host Example.fs s1 ["/w"]). }
  split; [reflexivity |]. split; [| reflexivity].
  apply (indexing_passes_never_interleave Example.host Example.fs
           (Example.state []) s2 eq_refl R2).
Defined.

(** ** A call resumed to its end is [indexWorkspace] *)

Section RunFacts.

Variable h : Host.
Variable fs : FileSystem.

Lemma run_add : forall a b st pc,
  run h fs (a + b) st pc
  = run h fs b (fst (run h fs a st pc)) (snd (run h fs a st pc)).
Proof.
  induction a as [| a IH]; intros b st pc; simpl.
  - reflexivity.
  - destruct (resume h fs st pc) as [st' pc']. apply IH.
Qed.

Lemma set_indexedDocuments_same : forall st,
  set_indexedDocuments st (indexedDocuments st) = st.
Proof. intros []; reflexivity. Qed.

Lemma run_step : forall n st pc st' pc' st'' pc'',
  resume h fs st pc = (st', pc') ->
  run h fs n st' pc' = (st'', pc'') ->
  run h fs (S n) st pc = (st'', pc'').
Proof. intros n st pc st' pc' st'' pc'' H1 H2. simpl. rewrite H1. exact H2. Qed.

(** The loop over the files of one folder, resumption by resumption. *)
Lemma run_files : forall files folderPath folders st,
  exists n,
    run h fs n st (nextFile h folderPath files folders)
    = (set_indexedDocuments st
         (fst (indexFiles h fs (indexedDocuments st)
                 (map (path_join h folderPath) files))),
       nextFolder folders).
Proof.
  induction files as [| f files IH]; intros folderPath folders st.
  - exists 0%nat. simpl. rewrite set_indexedDocuments_same. reflexivity.
  - simpl. unfold indexFile1.
    set (p := path_join h folderPath f).
    destruct (denied h p) eqn:Ed.
    { destruct (IH folderPath folders st) as [n Hn]. exists n.
      rewrite Hn.
      destruct (indexFiles h fs (indexedDocuments st)
                  (map (path_join h folderPath) files)). reflexivity. }
    destruct (IH folderPath folders st) as [n Hn].
    assert (Hskip :
      run h fs n st (nextFile h folderPath files folders)
      = (set_indexedDocuments st
           (fst (let (docs2, r2) :=
                   indexFiles h fs (indexedDocuments st)
                     (map (path_join h folderPath) files) in
                 (docs2, [] ++ r2))),
         nextFolder folders)).
    { rewrite Hn.
      destruct (indexFiles h fs (indexedDocuments st)
                  (map (path_join h folderPath) files)). reflexivity. }
    destruct (stat fs p) as [stats |] eqn:Es.
    2:{ exists (S n). eapply run_step; [| exact Hskip].
        simpl. rewrite Es. reflexivity. }
    destruct (size stats >? 1024 * 1024)%Z eqn:El.
    { exists (S n). eapply run_step; [| exact Hskip].
      simpl. rewrite Es. simpl in El. rewrite El. reflexivity. }
    destruct (upToDate (JsMap.get (indexedDocuments st) p) stats) eqn:Eu.
    { exists (S n). eapply run_step; [| exact Hskip].
      simpl. rewrite Es. simpl in El. rewrite El, Eu. reflexivity. }
    destruct (readFile fs p) as [c |] eqn:Er.
    + destruct (IH folderPath folders
                  (set_indexedDocuments st
                     (JsMap.set (indexedDocuments st) p
                        (buildDocument h p stats c)))) as [n' Hn'].
      exists (S (S n')).
      eapply run_step.
      { simpl. rewrite Es. simpl in El. rewrite El, Eu. reflexivity. }
      eapply run_step.
      { simpl. rewrite Er. reflexivity. }
      rewrite Hn'. simpl.
      destruct (indexFiles h fs
                  (JsMap.set (indexedDocuments st) p
                     (buildDocument h p stats c))
                  (map (path_join h folderPath) files)). reflexivity.
    + exists (S (S n)).
      eapply run_step.
      { simpl. rewrite Es. simpl in El. rewrite El, Eu. reflexivity. }
      eapply run_step.
      { simpl. rewrite Er. reflexivity. }
      rewrite Hn.
      destruct (indexFiles h fs (indexedDocuments st)
                  (map (path_join h folderPath) files)). reflexivity.
Qed.

(** The state in which the body of [indexWorkspace], entered in [st], ends. *)
Lemma run_folders : forall folders st,
  exists n,
    run h fs n st (nextFolder folders)
    = (let st' := set_indexedDocuments st
                    (fst (indexFiles h fs (indexedDocuments st)
                            (visited h fs folders))) in
       set_isIndexing
         (match globOutcome fs folders with
          | Ok _ => saveIndex h fs st'
          | Throw _ => st'
          end) false,
       Returned (globOutcome fs folders)).
Proof.
  induction folders as [| f folders IH]; intro st.
  - exists 2%nat. destruct st as [docs g file]. simpl.
    unfold saveIndex. simpl.
    destruct (writable fs); reflexivity.
  - simpl. destruct (glob fs f) as [files |] eqn:Eg.
    + destruct (run_files files f folders st) as [n1 H1].
      destruct (IH (set_indexedDocuments st
                      (fst (indexFiles h fs (indexedDocuments st)
                              (map (path_join h f) files))))) as [n2 H2].
      exists (S (n1 + n2)). simpl. rewrite Eg.
      rewrite run_add, H1. simpl. rewrite H2. simpl.
      rewrite indexFiles_app. simpl.
      destruct st; reflexivity.
    + exists 1%nat. simpl. rewrite Eg. destruct st; reflexivity.
Qed.

(** Resumed often enough with no other call in between, a call ends in the
    state and with the outcome of [indexWorkspace]. *)
Lemma indexWorkspace_refines : forall st folders,
  exists n,
    run h fs n (fst (call st folders)) (snd (call st folders))
    = (fst (fst (indexWorkspace h fs st folders)),
       Returned (snd (indexWorkspace h fs st folders))).
Proof.
  intros st folders. destruct (isIndexing st) eqn:Eg.
  - exists 0%nat. unfold call, indexWorkspace. rewrite Eg. reflexivity.
  - destruct (run_folders folders (set_isIndexing st true)) as [n Hn].
    exists n. unfold call. rewrite Eg. simpl. rewrite Hn.
    unfold indexWorkspace. rewrite Eg. rewrite indexFolders_flat. simpl.
    destruct (globOutcome fs folders); reflexivity.
Qed.

End RunFacts.

(** ** The score as a closed formula *)

Lemma natQ_add : forall a b, (natQ (a + b) == natQ a + natQ b)%Q.
Proof.
  intros a b. unfold natQ. rewrite Nat2Z.inj_add, inject_Z_plus.
  reflexivity.
Qed.

Lemma natQ_S : forall a, (natQ (S a) == natQ a + 1)%Q.
Proof.
  intro a. replace (S a) with (a + 1)%nat by lia. rewrite natQ_add.
  reflexivity.
Qed.

Section ScoreFacts.

Variable h : Host.

Lemma contentScore_sum : forall terms text acc s,
  contentScore h text terms acc = Ok s ->
  (s == acc + natQ (fold_right (fun term a =>
                                  (engineCount h term text + a)%nat)
                               O terms))%Q.
Proof.
  induction terms as [| t terms IH]; simpl; intros text acc s H.
  - inversion H; subst. unfold natQ; simpl; change (inject_Z 0) with 0%Q; ring.
  - unfold countMatches, engineCount in *.
    destruct (RegExp h t) as [re |]; simpl in H; [| discriminate].
    rewrite (IH _ _ _ H). rewrite natQ_add. unfold natQ. ring.
Qed.

(** The first loop throws exactly when some term does not compile. *)
Lemma contentScore_throws : forall terms text acc,
  (exists e, contentScore h text terms acc = Throw e)
  <-> exists t, In t terms /\ RegExp h t = None.
Proof.
  induction terms as [| t terms IH]; simpl; intros text acc.
  - split; [intros [e H]; discriminate | intros (t & [] & _)].
  - unfold countMatches. destruct (RegExp h t) as [re |] eqn:E; simpl.
    + rewrite IH. split.
      * intros (t' & Hin & Hn). exists t'. auto.
      * intros (t' & [<- | Hin] & Hn); [congruence | exists t'; auto].
    + split; [| intros _; exists SyntaxError; reflexivity].
      intros _. exists t. auto.
Qed.

Lemma contentScore_error : forall terms text acc e,
  contentScore h text terms acc = Throw e -> e = SyntaxError.
Proof.
  induction terms as [| t terms IH]; simpl; intros text acc e H.
  - discriminate.
  - unfold countMatches in H.
    destruct (RegExp h t); simpl in H; [eauto | congruence].
Qed.

Lemma boost_inner : forall (P : string -> bool) (w : Q) xs acc,
  (fold_left (fun sc' x => if P x then (sc' + w)%Q else sc') xs acc
   == acc + w * natQ (length (filter P xs)))%Q.
Proof.
  intros P w xs. induction xs as [| x xs IH]; intro acc; simpl.
  - unfold natQ; simpl; change (inject_Z 0) with 0%Q; ring.
  - rewrite IH. destruct (P x); simpl.
    + rewrite natQ_S. ring.
    + reflexivity.
Qed.

Lemma pairCount_cons : forall xs t terms,
  pairCount (Some xs) (t :: terms)
  = (length (filter (fun x => JsString.includes (JsString.toLowerCase x) t)
                    xs)
     + pairCount (Some xs) terms)%nat.
Proof.
  intros xs t terms. unfold pairCount. simpl.
  rewrite filter_app, length_app. f_equal.
  induction xs as [| x xs IH]; simpl; [reflexivity |].
  destruct (JsString.includes (JsString.toLowerCase x) t); simpl;
    rewrite IH; reflexivity.
Qed.

Lemma boost_sum : forall w items terms acc,
  (boost w items terms acc == acc + w * natQ (pairCount items terms))%Q.
Proof.
  intros w [xs |] terms acc; unfold boost.
  - revert acc. induction terms as [| t terms IH]; intro acc.
    + cbn [fold_left].
      replace (pairCount (Some xs) []) with 0%nat by reflexivity.
      change (natQ 0) with 0%Q. ring.
    + cbn [fold_left]. rewrite IH.
      rewrite (boost_inner
                 (fun x => JsString.includes (JsString.toLowerCase x) t)).
      rewrite pairCount_cons, natQ_add. ring.
  - replace (pairCount None terms) with 0%nat by reflexivity.
    change (natQ 0) with 0%Q. ring.
Qed.

Lemma queryTerms_long : forall query t,
  In t (queryTerms query) -> (2 < String.length t)%nat.
Proof.
  intros query t H. unfold queryTerms in H. apply filter_In in H.
  destruct H as [_ H]. apply Nat.ltb_lt in H. exact H.
Qed.

Lemma existsb_orb : forall (A : Type) (f g : A -> bool) l,
  existsb (fun x => f x || g x) l = existsb f l || existsb g l.
Proof.
  intros A f g l. induction l as [| x l IH]; simpl; [reflexivity |].
  rewrite IH. destruct (f x), (g x), (existsb f l); reflexivity.
Qed.

Lemma existsb_andb_const : forall (A : Type) (f : A -> bool) (c : bool) l,
  existsb (fun x => f x && c) l = existsb f l && c.
Proof.
  intros A f c l. induction l as [| x l IH]; simpl; [reflexivity |].
  rewrite IH. destruct (f x), c, (existsb f l); reflexivity.
Qed.

Lemma existsb_ext_eqb : forall (s : string) l,
  existsb (fun t => String.eqb t s) l = existsb (String.eqb s) l.
Proof.
  intros s l. induction l as [| x l IH]; simpl; [reflexivity |].
  rewrite IH, String.eqb_sym. reflexivity.
Qed.

(** The test of the file type is the disjunction of the three cases. *)
Lemma fileTypeMentioned_boost : forall ft terms,
  (forall t, In t terms -> t <> EmptyString) ->
  fileTypeMentioned ft terms = fileTypeBoost ft terms.
Proof.
  intros [ft |] terms Hne; [| reflexivity].
  unfold fileTypeMentioned, fileTypeBoost.
  destruct ft as [| c ft].
  - cbn [JsString.truthy andb JsString.toLowerCase].
    assert (E : existsb (fun term => JsString.includes EmptyString term)
                        terms = false).
    { apply not_true_is_false. intro Hex.
      apply existsb_exists in Hex. destruct Hex as (t & Hin & Ht).
      destruct t as [| a t]; [apply (Hne _ Hin); reflexivity |].
      simpl in Ht. discriminate. }
    rewrite E.
    replace (JsString.includes EmptyString "-test") with false
      by reflexivity.
    replace (JsString.includes EmptyString "-react") with false
      by reflexivity.
    rewrite !andb_false_r. reflexivity.
  - cbn [JsString.truthy andb].
    rewrite !existsb_orb, !existsb_andb_const, !existsb_ext_eqb.
    reflexivity.
Qed.

(** Whenever the scoring of a document returns, the score is the weighted
    sum of the scoring algorithm over the normalising token count, with the
    matches of the host's [RegExp] as the count of a term. *)
Lemma scoreDocument_formula : forall doc query s,
  scoreDocument h doc (queryTerms query) = Ok s ->
  (s == statedScore (engineCount h) doc (queryTerms query))%Q.
Proof.
  intros doc query s H. unfold scoreDocument in H.
  destruct (contentScore h (JsString.toLowerCase (content doc))
              (queryTerms query) 0) as [s0 |] eqn:E0;
    simpl in H; [| discriminate].
  inversion H; subst; clear H.
  apply contentScore_sum in E0.
  unfold statedScore, tokensOr1.
  apply Qmult_comp; [| reflexivity].
  rewrite fileTypeMentioned_boost.
  2:{ intros t Ht. apply queryTerms_long in Ht.
      intro; subst; simpl in Ht; lia. }
  destruct (fileTypeBoost (fileType doc) (queryTerms query));
    rewrite !boost_sum, E0; ring.
Qed.

Lemma scoreDocument_throws : forall doc terms,
  (exists e, scoreDocument h doc terms = Throw e)
  <-> exists t, In t terms /\ RegExp h t = None.
Proof.
  intros doc terms. rewrite <- (contentScore_throws terms
    (JsString.toLowerCase (content doc)) 0).
  unfold scoreDocument.
  destruct (contentScore h _ terms 0) as [s0 | e0]; simpl; split;
    intros [e' H]; try discriminate; eauto.
Qed.

(** The loop over the documents throws exactly when there is a document and
    some term does not compile. *)
Lemma scoreDocuments_throws : forall docs terms,
  (exists e, scoreDocuments h docs terms = Throw e)
  <-> docs <> [] /\ exists t, In t terms /\ RegExp h t = None.
Proof.
  induction docs as [| d docs IH]; intro terms; simpl.
  - split; [intros [e H]; discriminate | intros [H _]; congruence].
  - destruct (scoreDocument h d terms) as [s |] eqn:Es; simpl.
    + assert (Hno : ~ exists t, In t terms /\ RegExp h t = None).
      { intro Hex. apply (scoreDocument_throws d terms) in Hex.
        destruct Hex as [e He]. congruence. }
      split; [| intros [_ Hex]; contradiction].
      intros [e He].
      destruct (scoreDocuments h docs terms) as [rs |] eqn:Er;
        simpl in He; [discriminate |].
      exfalso. apply Hno.
      apply (proj1 (IH terms)). eauto.
    + split; [| intros _; eauto].
      intros _. split; [discriminate |].
      apply (scoreDocument_throws d terms). eauto.
Qed.

Lemma scoreDocuments_error : forall docs terms e,
  scoreDocuments h docs terms = Throw e -> e = SyntaxError.
Proof.
  induction docs as [| d docs IH]; simpl; intros terms e H.
  - discriminate.
  - unfold scoreDocument in H.
    destruct (contentScore h (JsString.toLowerCase (content d)) terms 0)
      as [s |] eqn:Ec; simpl in H.
    + destruct (scoreDocuments h docs terms) eqn:Er; simpl in H;
        [discriminate |].
      inversion H; subst. eapply IH; eauto.
    + inversion H; subst. eapply contentScore_error; eauto.
Qed.

End ScoreFacts.

(** ** Patterns without syntax characters *)

Lemma substring_all : forall s, String.substring 0 (String.length s) s = s.
Proof.
  induction s as [| a s IH]; simpl; [reflexivity | rewrite IH; reflexivity].
Qed.

Lemma prefix_cons : forall a p b s,
  String.prefix (String a p) (String b s)
  = Ascii.eqb a b && String.prefix p s.
Proof.
  intros a p b s. simpl.
  destruct (ascii_dec a b) as [-> | Hne].
  - rewrite Ascii.eqb_refl. reflexivity.
  - destruct (Ascii.eqb_spec a b); [contradiction | reflexivity].
Qed.

Lemma prefix_length : forall p s,
  String.prefix p s = true -> (String.length p <= String.length s)%nat.
Proof.
  induction p as [| a p IH]; intros s H.
  - simpl. lia.
  - destruct s as [| b s]; [discriminate |].
    rewrite prefix_cons in H. apply andb_prop in H. destruct H as [_ H].
    specialize (IH s H). simpl. lia.
Qed.

(** A literal pattern matches where the subject starts with it. *)
Lemma m_lit : forall (X : Type) p s c
                     (k : string -> option string -> option X),
  Regex.m (Regex.lit p) s c k
  = if String.prefix p s
    then k (String.substring (String.length p)
              (String.length s - String.length p) s) c
    else None.
Proof.
  intros X p. induction p as [| a p IH]; intros s c k.
  - simpl. destruct s; simpl.
    + reflexivity.
    + rewrite substring_all. reflexivity.
  - destruct s as [| b s].
    + reflexivity.
    + rewrite prefix_cons. cbn [Regex.lit Regex.m Regex.chr].
      destruct (Ascii.eqb a b); simpl; [| reflexivity].
      rewrite IH. reflexivity.
Qed.

Lemma substring_length_drop : forall n s,
  (n <= String.length s)%nat ->
  String.length (String.substring n (String.length s - n) s)
  = (String.length s - n)%nat.
Proof.
  induction n as [| n IH]; intros s Hn.
  - rewrite Nat.sub_0_r, substring_all. reflexivity.
  - destruct s as [| a s]; simpl in *; [lia |].
    apply IH. lia.
Qed.

Lemma exec_from_shift : forall r s pre,
  Regex.exec_from r pre s
  = option_map (fun mr => Regex.mkMatch (pre + Regex.m_index mr)
                            (Regex.m_text mr) (Regex.m_rest mr)
                            (Regex.m_group1 mr))
               (Regex.exec_from r 0 s).
Proof.
  intros r s. induction s as [| a s IH]; intro pre; simpl.
  - destruct (Regex.match_here r EmptyString) as [[rest c] |]; simpl;
      [rewrite Nat.add_0_r |]; reflexivity.
  - destruct (Regex.match_here r (String a s)) as [[rest c] |]; simpl.
    + rewrite Nat.add_0_r. reflexivity.
    + rewrite (IH (S pre)), (IH 1%nat).
      destruct (Regex.exec_from r 0 s); simpl; [| reflexivity].
      f_equal. f_equal. lia.
Qed.

(** Where the pattern does not match at the first code unit, the matches
    are those of the rest of the subject. *)
Lemma match_g_fuel_skip : forall r fuel a s,
  Regex.match_here r (String a s) = None ->
  Regex.match_g_fuel (S fuel) r (String a s)
  = Regex.match_g_fuel (S fuel) r s.
Proof.
  intros r fuel a s H. cbn [Regex.match_g_fuel]. unfold Regex.exec.
  cbn [Regex.exec_from]. rewrite H. rewrite exec_from_shift.
  destruct (Regex.exec_from r 0 s); reflexivity.
Qed.

Lemma match_g_lit_count : forall p,
  p <> EmptyString ->
  forall n s f1 f2,
    (String.length s <= n)%nat ->
    (String.length s < f1)%nat -> (String.length s < f2)%nat ->
    length (Regex.match_g_fuel f1 (Regex.lit p) s)
    = countOccurrences_fuel f2 p s.
Proof.
  intros p Hp. induction n as [| n IH]; intros s f1 f2 Hn H1 H2;
    (destruct f1 as [| f1]; [lia |]); (destruct f2 as [| f2]; [lia |]).
  - destruct s; [| simpl in Hn; lia].
    destruct p as [| a p]; [congruence |]. reflexivity.
  - cbn [countOccurrences_fuel].
    destruct (String.prefix p s) eqn:Epre.
    + pose proof (prefix_length p s Epre) as Hlen.
      assert (Hplen : (0 < String.length p)%nat).
      { destruct p; [congruence | simpl; lia]. }
      set (rest := String.substring (String.length p)
                     (String.length s - String.length p) s).
      assert (Hrest : String.length rest
                      = (String.length s - String.length p)%nat)
        by (apply substring_length_drop; exact Hlen).
      cbn [Regex.match_g_fuel]. unfold Regex.exec.
      assert (Hex : Regex.exec_from (Regex.lit p) 0 s
                    = Some (Regex.mkMatch 0
                              (JsString.take
                                 (String.length s - String.length rest) s)
                              rest None)).
      { destruct s as [| b s]; cbn [Regex.exec_from];
          unfold Regex.match_here; rewrite m_lit, Epre; reflexivity. }
      rewrite Hex. cbn [Regex.m_text Regex.m_rest].
      assert (Htxt : exists a t,
                 JsString.take (String.length s - String.length rest) s
                 = String a t).
      { rewrite Hrest.
        replace (String.length s - (String.length s - String.length p))%nat
          with (String.length p) by lia.
        destruct s as [| b s]; [simpl in Hlen; lia |].
        destruct (String.length p) as [| m]; [lia |].
        unfold JsString.take. simpl. eauto. }
      destruct Htxt as (a & t & ->).
      cbn [length]. f_equal. apply IH; lia.
    + destruct s as [| a s].
      * cbn [Regex.match_g_fuel]. unfold Regex.exec.
        cbn [Regex.exec_from]. unfold Regex.match_here.
        rewrite m_lit, Epre. reflexivity.
      * rewrite match_g_fuel_skip
          by (unfold Regex.match_here; rewrite m_lit, Epre; reflexivity).
        simpl in Hn, H1, H2. apply IH; lia.
Qed.

Lemma match_g_lit : forall p s,
  p <> EmptyString ->
  length (Regex.match_g (Regex.lit p) s) = countOccurrences p s.
Proof.
  intros p s Hp. unfold Regex.match_g, countOccurrences.
  destruct p as [| a p]; [congruence |].
  apply (match_g_lit_count (String a p) Hp (String.length s)); lia.
Qed.

Lemma one_of_cons : forall a cs c,
  Regex.one_of (String a cs) c = Ascii.eqb c a || Regex.one_of cs c.
Proof. reflexivity. Qed.

Lemma isLiteral_char : forall c,
  Regex.one_of "^$\.*+?()[]{}|" c = false ->
  Ascii.eqb c "(" = false /\ Ascii.eqb c ")" = false
  /\ Ascii.eqb c "." = false
  /\ Regex.one_of "^$\*+?[]{}|" c = false.
Proof.
  intros c H. rewrite !one_of_cons in H.
  repeat (apply orb_false_elim in H;
          let E := fresh "E" in destruct H as [E H]).
  rewrite !one_of_cons.
  repeat split; auto.
  repeat (apply orb_false_intro; [assumption |]). exact H.
Qed.

Lemma isLiteral_inFragment : forall p,
  Fragment.isLiteral p = true -> Fragment.inFragment p = true.
Proof.
  unfold Fragment.isLiteral, Fragment.inFragment.
  induction p as [| c p IH]; simpl; intro H; [reflexivity |].
  apply andb_prop in H. destruct H as [Hc Hp].
  apply negb_true_iff in Hc. apply isLiteral_char in Hc.
  destruct Hc as (_ & _ & _ & Hc). rewrite Hc. simpl. auto.
Qed.

Lemma parse_literal : forall p depth,
  Fragment.isLiteral p = true ->
  Fragment.parse depth p
  = if (depth =? 0)%nat then Some (Regex.lit p) else None.
Proof.
  unfold Fragment.isLiteral.
  induction p as [| c p IH]; intros depth H; simpl.
  - reflexivity.
  - simpl in H. apply andb_prop in H. destruct H as [Hc Hp].
    apply negb_true_iff in Hc. apply isLiteral_char in Hc.
    destruct Hc as (E1 & E2 & E3 & _). rewrite E1, E2, E3.
    rewrite (IH depth Hp). destruct (depth =? 0)%nat; reflexivity.
Qed.

(** On a host that implements the fragment, a term without syntax
    characters is counted by its occurrences. *)
Lemma conforms_literal_count : forall h p,
  Fragment.conforms h ->
  Fragment.isLiteral p = true ->
  p <> EmptyString ->
  exists re, RegExp h p = Some re
             /\ forall s, re s = countOccurrences p s.
Proof.
  intros h p Hc Hl Hp.
  specialize (Hc p (isLiteral_inFragment p Hl)).
  rewrite (parse_literal p 0 Hl) in Hc. simpl in Hc.
  destruct Hc as (re & Hre & Hcount).
  exists re. split; [exact Hre |].
  intro s. rewrite Hcount. apply match_g_lit, Hp.
Qed.

Lemma fragmentRegExp_conforms : Fragment.conforms Example.host.
Proof.
  intros p Hp. simpl. unfold Fragment.fragmentRegExp. rewrite Hp.
  destruct (Fragment.parse 0 p) as [r |]; [| reflexivity].
  eexists. split; reflexivity.
Qed.

(** For a query whose terms have no syntax characters, the score of every
    document is the weighted sum of the scoring algorithm with the
    occurrences of the terms in the case-folded content as base score. *)
Lemma scoreDocument_literal_terms : forall h doc query,
  Fragment.conforms h ->
  (forall t, In t (queryTerms query) -> Fragment.isLiteral t = true) ->
  exists s,
    scoreDocument h doc (queryTerms query) = Ok s
    /\ (s == statedScore countOccurrences doc (queryTerms query))%Q.
Proof.
  intros h doc query Hc Hl.
  assert (Hcount : forall t, In t (queryTerms query) ->
            forall s, engineCount h t s = countOccurrences t s).
  { intros t Ht s.
    destruct (conforms_literal_count h t Hc (Hl t Ht)) as (re & Hre & Hs).
    - apply queryTerms_long in Ht. intro; subst; simpl in Ht; lia.
    - unfold engineCount. rewrite Hre. apply Hs. }
  destruct (scoreDocument h doc (queryTerms query)) as [s | e] eqn:Es.
  - exists s. split; [reflexivity |].
    rewrite (scoreDocument_formula h doc query s Es).
    unfold statedScore.
    assert (E : forall terms,
      (forall t, In t terms ->
                 forall s, engineCount h t s = countOccurrences t s) ->
      fold_right (fun term acc =>
                    (engineCount h term
                       (JsString.toLowerCase (content doc)) + acc)%nat)
                 O terms
      = fold_right (fun term acc =>
                      (countOccurrences term
                         (JsString.toLowerCase (content doc)) + acc)%nat)
                   O terms).
    { induction terms as [| t terms IH]; intro Hall; simpl;
        [reflexivity |].
      rewrite Hall by (left; reflexivity).
      rewrite IH by (intros; apply Hall; right; assumption).
      reflexivity. }
    rewrite (E _ Hcount). reflexivity.
  - exfalso.
    assert (Hex : exists e, scoreDocument h doc (queryTerms query) = Throw e)
      by eauto.
    apply scoreDocument_throws in Hex. destruct Hex as (t & Ht & Hn).
    destruct (conforms_literal_count h t Hc (Hl t Ht)) as (re & Hre & _).
    + apply queryTerms_long in Ht. intro; subst; simpl in Ht; lia.
    + congruence.
Qed.

(** ** Terms with syntax characters *)

Lemma queryTerms_dot : queryTerms "a.c" = ["a.c"].
Proof. vm_compute. reflexivity. Qed.

Lemma queryTerms_parens : queryTerms "(((" = ["((("].
Proof. vm_compute. reflexivity. Qed.

Lemma conforms_dot : forall h,
  Fragment.conforms h ->
  exists re, RegExp h "a.c" = Some re /\ re "abc" = 1%nat.
Proof.
  intros h Hc. specialize (Hc "a.c" eq_refl). simpl in Hc.
  destruct Hc as (re & Hre & Hs). exists re. split; [exact Hre |].
  rewrite Hs. vm_compute. reflexivity.
Qed.

Lemma conforms_parens : forall h,
  Fragment.conforms h -> RegExp h "(((" = None.
Proof. intros h Hc. exact (Hc "(((" eq_refl). Qed.

(** C2.  The base score is not the number of occurrences of the term: the
    term is handed to [RegExp] as a pattern.  On every host that implements
    the dot, the document with content [abc] and token count 1 gets score 1
    for the query [a.c] and is returned, while the content has no occurrence
    of the term and the stated score is 0. *)
Theorem score_counts_pattern_matches :
  forall (h : Host),
    Fragment.conforms h ->
    let doc := Example.doc "x" "abc" 0 1 in
    (exists s, scoreDocument h doc (queryTerms "a.c") = Ok s /\ (s == 1)%Q)
    /\ (statedScore countOccurrences doc (queryTerms "a.c") == 0)%Q
    /\ (exists r,
          snd (search h (Example.state [("x", doc)]) "a.c" 5 100) = Ok [r]
          /\ document r = doc /\ (relevanceScore r == 1)%Q).
Proof.
  intros h Hc doc.
  destruct (conforms_dot h Hc) as (re & Hre & Hone).
  assert (Es : scoreDocument h doc ["a.c"]
               = Ok ((0 + inject_Z (Z.of_nat 1)) / inject_Z 1)%Q).
  { unfold scoreDocument. change (content doc) with "abc".
    replace (JsString.toLowerCase "abc") with "abc"
      by (vm_compute; reflexivity).
    cbn [contentScore]. unfold countMatches. rewrite Hre.
    cbn [bind]. rewrite Hone. reflexivity. }
  split; [| split].
  - rewrite queryTerms_dot. eexists. split; [exact Es | reflexivity].
  - rewrite queryTerms_dot. vm_compute. reflexivity.
  - exists (mkResult doc ((0 + inject_Z (Z.of_nat 1)) / inject_Z 1)%Q).
    split; [| split; reflexivity].
    simpl. unfold searchDocuments. rewrite queryTerms_dot.
    cbn [JsMap.values map snd scoreDocuments]. fold doc.
    rewrite Es. reflexivity.
Qed.

Lemma score_counts_pattern_matches_witness :
  (exists s, scoreDocument Example.host (Example.doc "x" "abc" 0 1)
               (queryTerms "a.c") = Ok s /\ (s == 1)%Q)
  /\ (statedScore countOccurrences (Example.doc "x" "abc" 0 1)
        (queryTerms "a.c") == 0)%Q.
Proof.
  destruct (score_counts_pattern_matches Example.host
              fragmentRegExp_conforms) as (H1 & H2 & _).
  split; assumption.
Defined.

(** C10.  [search] hands every term to [RegExp] as it stands.  It throws
    exactly when the store holds a document and some term of the query is
    not a valid pattern, and then with a SyntaxError; on a host that
    implements grouping, the query [(((] makes it throw on every store that
    is not empty.  What is added to the score of a document is the number of
    matches of the pattern: for the term [a.c] and the content [abc] that is
    1, where the term occurs 0 times. *)
Theorem search_compiles_terms_as_patterns :
  forall (h : Host),
    Fragment.conforms h ->
    (forall st maxResults maxTokens,
       indexedDocuments st <> [] ->
       snd (search h st "(((" maxResults maxTokens) = Throw SyntaxError)
    /\ (forall st query maxResults maxTokens,
          (exists e, snd (search h st query maxResults maxTokens) = Throw e)
          <-> (indexedDocuments st <> []
               /\ exists t, In t (queryTerms query) /\ RegExp h t = None))
    /\ (forall text term,
          countMatches h text term
          = match RegExp h term with
            | Some re => Ok (re text)
            | None => Throw SyntaxError
            end)
    /\ (countMatches h "abc" "a.c" = Ok 1%nat
        /\ countOccurrences "a.c" "abc" = 0%nat).
Proof.
  intros h Hc.
  assert (Hiff : forall st query maxResults maxTokens,
    (exists e, snd (search h st query maxResults maxTokens) = Throw e)
    <-> (indexedDocuments st <> []
         /\ exists t, In t (queryTerms query) /\ RegExp h t = None)).
  { intros st query maxResults maxTokens. simpl. unfold searchDocuments.
    pose proof (scoreDocuments_throws h (JsMap.values (indexedDocuments st))
                  (queryTerms query)) as HT.
    assert (Hv : JsMap.values (indexedDocuments st) <> []
                 <-> indexedDocuments st <> []).
    { unfold JsMap.values. destruct (indexedDocuments st); simpl;
        split; congruence. }
    destruct (scoreDocuments h (JsMap.values (indexedDocuments st))
                (queryTerms query)) as [rs | e0]; simpl.
    - split; [intros [e He]; discriminate |].
      intros [Hne Hex].
      destruct (proj2 HT (conj (proj2 Hv Hne) Hex)) as [e He].
      discriminate.
    - split; [| intros _; eauto].
      intros _.
      destruct (proj1 HT (ex_intro _ e0 eq_refl)) as [Hne Hex].
      split; [apply Hv, Hne | exact Hex]. }
  split; [| split; [exact Hiff | split]].
  - intros st maxResults maxTokens Hne.
    destruct (proj2 (Hiff st "(((" maxResults maxTokens)) as [e He].
    { split; [exact Hne |]. exists "(((". split.
      - rewrite queryTerms_parens. left. reflexivity.
      - apply conforms_parens, Hc. }
    rewrite He. f_equal.
    simpl in He. unfold searchDocuments in He.
    destruct (scoreDocuments h (JsMap.values (indexedDocuments st))
                (queryTerms "(((")) eqn:E; simpl in He; [discriminate |].
    inversion He; subst. eapply scoreDocuments_error; eauto.
  - intros text term. reflexivity.
  - split; [| vm_compute; reflexivity].
    destruct (conforms_dot h Hc) as (re & Hre & Hone).
    unfold countMatches. rewrite Hre, Hone. reflexivity.
Qed.

Lemma search_compiles_terms_as_patterns_witness :
  snd (search Example.host
         (Example.state [("x", Example.doc "x" "abc" 0 1)]) "(((" 5 10000)
  = Throw SyntaxError
  /\ snd (search Example.host (Example.state []) "(((" 5 10000) = Ok [].
Proof.
  split; [| reflexivity].
  apply (search_compiles_terms_as_patterns Example.host
           fragmentRegExp_conforms).
  simpl. discriminate.
Defined.

(* ================================================================== *)
(** * Further properties of the service *)
(* ================================================================== *)

(** ** Substrings *)

Lemma prefix_app : forall p s, String.prefix p (p ++ s) = true.
Proof.
  induction p as [| a p IH]; intro s.
  - destruct s; reflexivity.
  - change (String a p ++ s)%string with (String a (p ++ s)%string).
    rewrite prefix_cons, Ascii.eqb_refl. apply IH.
Qed.

Lemma prefix_split : forall p s,
  String.prefix p s = true -> exists r, s = (p ++ r)%string.
Proof.
  induction p as [| a p IH]; intros s H.
  - exists s. reflexivity.
  - destruct s as [| b s]; [discriminate |].
    rewrite prefix_cons in H. apply andb_prop in H. destruct H as [E H].
    apply Ascii.eqb_eq in E. subst b.
    destruct (IH s H) as [r ->]. exists r. reflexivity.
Qed.

Lemma includes_here : forall s sub,
  String.prefix sub s = true -> JsString.includes s sub = true.
Proof.
  intros [| c s] sub H; cbn [JsString.includes]; rewrite H; reflexivity.
Qed.

Lemma includes_later : forall c s sub,
  JsString.includes s sub = true ->
  JsString.includes (String c s) sub = true.
Proof.
  intros c s sub H. cbn [JsString.includes].
  destruct (String.prefix sub (String c s)); [reflexivity | exact H].
Qed.

Lemma includes_spec : forall s sub,
  JsString.includes s sub = true
  <-> exists a b, s = (a ++ sub ++ b)%string.
Proof.
  intros s sub. split.
  - induction s as [| c s IH]; cbn [JsString.includes].
    + destruct (String.prefix sub EmptyString) eqn:E; [| discriminate].
      intros _. apply prefix_split in E. destruct E as [r E].
      exists EmptyString, r. exact E.
    + destruct (String.prefix sub (String c s)) eqn:E.
      * intros _. apply prefix_split in E. destruct E as [r E].
        exists EmptyString, r. exact E.
      * intro H. destruct (IH H) as (a & b & ->).
        exists (String c a), b. reflexivity.
  - intros (a & b & ->). induction a as [| c a IH].
    + apply includes_here. cbn [String.append]. apply prefix_app.
    + cbn [String.append]. apply includes_later, IH.
Qed.

Lemma string_app_assoc : forall a b c : string,
  ((a ++ b) ++ c = a ++ (b ++ c))%string.
Proof.
  induction a as [| x a IH]; intros b c; simpl; [| rewrite IH]; reflexivity.
Qed.

Lemma string_app_nil_r : forall a : string, (a ++ "" = a)%string.
Proof. induction a as [| x a IH]; simpl; [| rewrite IH]; reflexivity. Qed.

Lemma includes_trans : forall s t u,
  JsString.includes s t = true -> JsString.includes t u = true ->
  JsString.includes s u = true.
Proof.
  intros s t u Hst Htu.
  apply includes_spec in Hst. destruct Hst as (a & b & ->).
  apply includes_spec in Htu. destruct Htu as (a' & b' & ->).
  apply includes_spec. exists (a ++ a')%string, (b' ++ b)%string.
  rewrite !string_app_assoc. reflexivity.
Qed.

Lemma includes_app_l : forall s t u,
  JsString.includes s u = true -> JsString.includes (s ++ t) u = true.
Proof.
  intros s t u H. apply includes_spec in H. destruct H as (a & b & ->).
  apply includes_spec. exists a, (b ++ t)%string.
  rewrite !string_app_assoc. reflexivity.
Qed.

Lemma includes_app_r : forall s t u,
  JsString.includes t u = true -> JsString.includes (s ++ t) u = true.
Proof.
  intros s t u H. apply includes_spec in H. destruct H as (a & b & ->).
  apply includes_spec. exists (s ++ a)%string, b.
  rewrite !string_app_assoc. reflexivity.
Qed.

Lemma includes_refl : forall s, JsString.includes s s = true.
Proof.
  intro s. apply includes_spec. exists EmptyString, EmptyString.
  simpl. rewrite string_app_nil_r. reflexivity.
Qed.

Lemma toLowerCase_app : forall a b,
  JsString.toLowerCase (a ++ b)
  = (JsString.toLowerCase a ++ JsString.toLowerCase b)%string.
Proof.
  induction a as [| x a IH]; intro b; simpl; [| rewrite IH]; reflexivity.
Qed.

(** ** The context text *)

Lemma formatDocuments_includes : forall rel results r,
  In r results ->
  JsString.includes (Context.formatDocuments rel results)
                    (Context.formatDocument rel (document r)) = true.
Proof.
  intros rel results r. induction results as [| x results IH]; intro H.
  - destruct H.
  - cbn [Context.formatDocuments]. destruct H as [<- | H].
    + apply includes_app_l, includes_refl.
    + apply includes_app_r, IH, H.
Qed.

Lemma formatDocument_content : forall rel doc,
  JsString.includes (Context.formatDocument rel doc) (content doc) = true.
Proof.
  intros rel doc. unfold Context.formatDocument.
  do 13 apply includes_app_r. apply includes_app_l, includes_refl.
Qed.

(** X1.  When [search] returns, [getRelevantContext] returns a text that is
    empty exactly when there is no result; a text that is not empty starts
    with the header line and holds, for every result, the record of its
    document with the whole content of the document.  The instance is left
    as it was. *)
Theorem getRelevantContext_shape :
  forall (h : Host) (rel : string -> string) (st : State) (query : string)
         (maxTokens : Z) (results : list SearchResult),
    snd (search h st query 10 maxTokens) = Ok results ->
    exists ctx,
      Context.getRelevantContext h rel st query maxTokens = (st, Ok ctx)
      /\ (ctx = EmptyString <-> results = [])
      /\ (results <> [] -> String.prefix Context.header ctx = true)
      /\ (forall r, In r results ->
            JsString.includes ctx
              (Context.formatDocument rel (document r)) = true
            /\ JsString.includes ctx (content (document r)) = true).
Proof.
  intros h rel st query maxTokens results H.
  unfold Context.getRelevantContext. unfold search in *.
  cbn [snd] in H. rewrite H.
  destruct results as [| r0 results].
  - exists EmptyString. split; [reflexivity |]. split; [tauto |].
    split; [congruence | intros r []].
  - exists (Context.header
            ++ Context.formatDocuments rel (r0 :: results))%string.
    split; [reflexivity |]. split; [split; discriminate |].
    split; [intros _; apply prefix_app |].
    intros r Hr.
    assert (Hrec : JsString.includes
                     (Context.header
                      ++ Context.formatDocuments rel (r0 :: results))
                     (Context.formatDocument rel (document r)) = true).
    { apply includes_app_r, formatDocuments_includes, Hr. }
    split; [exact Hrec |].
    eapply includes_trans; [exact Hrec | apply formatDocument_content].
Qed.

Lemma getRelevantContext_shape_witness :
  exists ctx,
    Context.getRelevantContext Example.host (fun p => p)
      (Example.state [("a", Example.doc "a" "foo bar" 0 2)]) "foo" 1000
    = (Example.state [("a", Example.doc "a" "foo bar" 0 2)], Ok ctx)
    /\ JsString.includes ctx "foo bar" = true.
Proof.
  destruct (getRelevantContext_shape Example.host (fun p => p)
              (Example.state [("a", Example.doc "a" "foo bar" 0 2)])
              "foo" 1000 _ eq_refl) as (ctx & H1 & _ & _ & H4).
  exists ctx. split; [exact H1 |].
  apply (H4 (mkResult (Example.doc "a" "foo bar" 0 2) (1 # 2))).
  left. reflexivity.
Defined.

(** ** Queries without a usable term *)

Lemma boost_no_terms : forall w items score, boost w items [] score = score.
Proof. intros w [xs |] score; reflexivity. Qed.

Lemma fileTypeMentioned_no_terms : forall ft, fileTypeMentioned ft [] = false.
Proof.
  intros [ft |]; simpl; [apply andb_false_r | reflexivity].
Qed.

Lemma scoreDocuments_no_terms : forall h docs,
  scoreDocuments h docs [] = Ok [].
Proof.
  intros h docs. induction docs as [| d docs IH]; [reflexivity |].
  cbn [scoreDocuments]. unfold scoreDocument. cbn [contentScore bind].
  rewrite !boost_no_terms, fileTypeMentioned_no_terms, IH. cbn [bind].
  replace (Qpositive (0 / inject_Z (tokensOr1 d))) with false;
    [reflexivity |].
  symmetry. apply not_true_is_false. intro Hp.
  apply Qpositive_spec in Hp.
  assert (E : (0 / inject_Z (tokensOr1 d) == 0)%Q)
    by (unfold Qdiv; ring).
  rewrite E in Hp. apply (Qlt_irrefl 0), Hp.
Qed.

(** X2.  A query in which no word has more than two characters, the empty
    query among them, finds nothing: [search] returns the empty list on
    every store without building a pattern, whatever the words are, and
    [getRelevantContext] returns the empty text. *)
Theorem search_without_terms :
  forall (h : Host) (rel : string -> string) (st : State) (query : string)
         (maxResults maxTokens : Z),
    queryTerms query = [] ->
    search h st query maxResults maxTokens = (st, Ok [])
    /\ Context.getRelevantContext h rel st query maxTokens
       = (st, Ok EmptyString).
Proof.
  intros h rel st query maxResults maxTokens Hq.
  assert (E : forall mr mt, search h st query mr mt = (st, Ok [])).
  { intros mr mt. unfold search, searchDocuments.
    rewrite Hq, scoreDocuments_no_terms. cbn [bind sort fold_right].
    unfold slice0. rewrite firstn_nil. reflexivity. }
  split; [apply E |].
  unfold Context.getRelevantContext. rewrite E. reflexivity.
Qed.

Lemma search_without_terms_witness :
  search Example.host
    (Example.state [("a", Example.doc "a" "a (( b" 0 2)]) "a (( b" 5 100
  = (Example.state [("a", Example.doc "a" "a (( b" 0 2)], Ok []).
Proof.
  apply (search_without_terms Example.host (fun p => p)
           (Example.state [("a", Example.doc "a" "a (( b" 0 2)])
           "a (( b" 5 100).
  vm_compute. reflexivity.
Defined.

(** ** The order of the results *)

Lemma StronglySorted_firstn : forall (A : Type) (R : A -> A -> Prop) n l,
  StronglySorted R l -> StronglySorted R (firstn n l).
Proof.
  intros A R n. induction n as [| n IH]; intros l Hs.
  - constructor.
  - destruct l as [| x l]; [constructor |].
    inversion Hs as [| ? ? Hs' Hall]; subst. simpl.
    constructor; [apply IH, Hs' |].
    rewrite Forall_forall in *. intros y Hy. apply Hall.
    rewrite <- (firstn_skipn n l). apply in_or_app. left. exact Hy.
Qed.

Lemma filterByTokens_sorted : forall maxTokens l total,
  StronglySorted descending l ->
  StronglySorted descending (filterByTokens maxTokens total l).
Proof.
  intros maxTokens l. induction l as [| r l IH]; intros total Hs.
  - constructor.
  - inversion Hs as [| ? ? Hs' Hall]; subst. simpl.
    destruct (Double.addZ total (tokens (document r)) <=? maxTokens)%Z.
    + constructor; [apply IH, Hs' |].
      rewrite Forall_forall in *. intros y Hy.
      apply Hall. eapply filterByTokens_incl; eauto.
    + apply IH, Hs'.
Qed.

(** X3.  The results of [search] come in ranked order: no result has a
    higher score than a result before it, also when the cap is negative and
    when results were passed over for the budget. *)
Theorem search_results_ranked :
  forall (h : Host) (st : State) (query : string) (maxResults maxTokens : Z)
         (results : list SearchResult),
    snd (search h st query maxResults maxTokens) = Ok results ->
    StronglySorted descending results.
Proof.
  intros h st query maxResults maxTokens results H.
  cbn [search snd] in H. apply searchDocuments_inv in H.
  destruct H as (scored & _ & ->).
  apply filterByTokens_sorted. unfold slice0.
  apply StronglySorted_firstn, sort_sorted.
Qed.

Lemma search_results_ranked_witness :
  exists results,
    snd (search Example.host
           (Example.state [("a", Example.doc "a" "foo foo" 0 100);
                           ("b", Example.doc "b" "foo" 0 50);
                           ("c", Example.doc "c" "foo bar baz" 0 20)])
           "foo" (-1) 1000) = Ok results
    /\ map (fun r => path (document r)) results = ["c"; "a"]
    /\ StronglySorted descending results.
Proof.
  eexists. split; [vm_compute; reflexivity |].
  split; [reflexivity |].
  apply (search_results_ranked Example.host
           (Example.state [("a", Example.doc "a" "foo foo" 0 100);
                           ("b", Example.doc "b" "foo" 0 50);
                           ("c", Example.doc "c" "foo bar baz" 0 20)])
           "foo" (-1) 1000 _ eq_refl).
Defined.

(** ** Which documents are candidates *)

Lemma natQ_nonneg : forall n, (0 <= natQ n)%Q.
Proof.
  intro n. unfold natQ. change 0%Q with (inject_Z 0).
  rewrite <- Zle_Qle. lia.
Qed.

Lemma natQ_pos : forall n, (0 < n)%nat -> (1 <= natQ n)%Q.
Proof.
  intros n Hn. unfold natQ. change 1%Q with (inject_Z 1).
  rewrite <- Zle_Qle. lia.
Qed.

Lemma count_sum_pos : forall (f : string -> nat) terms,
  (0 < fold_right (fun term acc => (f term + acc)%nat) O terms)%nat
  <-> exists t, In t terms /\ (0 < f t)%nat.
Proof.
  intros f terms. induction terms as [| t terms IH]; simpl.
  - split; [lia | intros (t & [] & _)].
  - split.
    + intro H. destruct (Nat.eq_dec (f t) 0) as [E | E].
      * rewrite E in H. apply IH in H. destruct H as (t' & Hin & Hp).
        exists t'. auto.
      * exists t. split; [auto | lia].
    + intros (t' & [<- | Hin] & Hp); [lia |].
      assert (0 < fold_right (fun term acc => (f term + acc)%nat) O terms)%nat
        by (apply IH; eauto).
      lia.
Qed.

(** ** The token budget *)





(** X4.  A document whose token count is not negative gets a positive score,
    and so is a candidate for the results, exactly when some term of the
    query has a match in its content or is contained in one of its symbols,
    imports, exports or comments, or the file type is mentioned. *)
Theorem candidate_iff_some_match :
  forall (h : Host) (doc : IndexedDocument) (query : string) (score : Q),
    (0 <= tokens doc)%Z ->
    scoreDocument h doc (queryTerms query) = Ok score ->
    ((0 < score)%Q <->
     (exists t, In t (queryTerms query)
                /\ (0 < engineCount h t
                           (JsString.toLowerCase (content doc)))%nat)
     \/ (0 < pairCount (symbols doc) (queryTerms query))%nat
     \/ (0 < pairCount (exports doc) (queryTerms query))%nat
     \/ (0 < pairCount (imports doc) (queryTerms query))%nat
     \/ (0 < pairCount (comments doc) (queryTerms query))%nat
     \/ fileTypeBoost (fileType doc) (queryTerms query) = true).
Proof.
  intros h doc query score Ht Hs.
  apply scoreDocument_formula in Hs. rewrite Hs. clear Hs score.
  unfold statedScore.
  set (terms := queryTerms query).
  rewrite <- (count_sum_pos
                (fun t => engineCount h t
                            (JsString.toLowerCase (content doc))) terms).
  set (a := fold_right _ O terms).
  set (b := pairCount (symbols doc) terms).
  set (c := pairCount (exports doc) terms).
  set (d := pairCount (imports doc) terms).
  set (e := pairCount (comments doc) terms).
  set (T := inject_Z (if (tokens doc =? 0)%Z then 1%Z else tokens doc)).
  assert (HT : (0 < T)%Q).
  { unfold T. change 0%Q with (inject_Z 0). rewrite <- Zlt_Qlt.
    destruct (tokens doc =? 0)%Z eqn:E; [lia |].
    apply Z.eqb_neq in E. lia. }
  pose proof (natQ_nonneg a) as Ha. pose proof (natQ_nonneg b) as Hb.
  pose proof (natQ_nonneg c) as Hc. pose proof (natQ_nonneg d) as Hd.
  pose proof (natQ_nonneg e) as He.
  set (N := (natQ a + 5 * natQ b + 3 * natQ c + 2 * natQ d
             + (3 # 2) * natQ e
             + (if fileTypeBoost (fileType doc) terms then 4 else 0))%Q).
  assert (Hdiv : (0 < N / T)%Q <-> (0 < N)%Q).
  { split; intro H.
    - apply (Qmult_lt_r _ _ T HT) in H.
      assert (E : (N / T * T == N)%Q)
        by (field; intro E0; rewrite E0 in HT; apply (Qlt_irrefl 0), HT).
      rewrite E in H. rewrite Qmult_0_l in H. exact H.
    - apply Qlt_shift_div_l; [exact HT |]. rewrite Qmult_0_l. exact H. }
  rewrite Hdiv. unfold N. split.
  - intro H.
    destruct (fileTypeBoost (fileType doc) terms); [tauto |].
    destruct (Nat.eq_dec a 0) as [Ea | Ea]; [| left; lia].
    destruct (Nat.eq_dec b 0) as [Eb | Eb]; [| right; left; lia].
    destruct (Nat.eq_dec c 0) as [Ec | Ec]; [| right; right; left; lia].
    destruct (Nat.eq_dec d 0) as [Ed | Ed];
      [| right; right; right; left; lia].
    destruct (Nat.eq_dec e 0) as [Ee | Ee];
      [| right; right; right; right; left; lia].
    exfalso. rewrite Ea, Eb, Ec, Ed, Ee in H.
    change (natQ 0) with 0%Q in H. lra.
  - intros [H | [H | [H | [H | [H | H]]]]];
      try (apply natQ_pos in H);
      destruct (fileTypeBoost (fileType doc) terms);
      try discriminate; lra.
Qed.

Lemma candidate_iff_some_match_witness :
  exists score,
    scoreDocument Example.host (Example.doc "a" "foo bar" 0 2)
                  (queryTerms "foo") = Ok score
    /\ (0 < score)%Q.
Proof.
  eexists. split; [vm_compute; reflexivity |].
  apply (candidate_iff_some_match Example.host
           (Example.doc "a" "foo bar" 0 2) "foo" _
           ltac:(simpl; lia) eq_refl).
  left. exists "foo". split; [left; reflexivity | vm_compute; lia].
Defined.

(** ** What a pass does to each path *)

Lemma keys_set : forall mp k d,
  JsMap.keys (JsMap.set mp k d)
  = if existsb (String.eqb k) (JsMap.keys mp)
    then JsMap.keys mp else JsMap.keys mp ++ [k].
Proof.
  induction mp as [| [k' d'] mp IH]; intros k d; simpl.
  - reflexivity.
  - rewrite (String.eqb_sym k k').
    destruct (String.eqb k' k) eqn:E; simpl.
    + reflexivity.
    + unfold JsMap.keys in *. rewrite IH.
      destruct (existsb (String.eqb k) (map fst mp)); reflexivity.
Qed.

Lemma get_None_keys : forall mp k,
  JsMap.get mp k = None <-> ~ In k (JsMap.keys mp).
Proof.
  induction mp as [| [k' d'] mp IH]; intro k; simpl.
  - tauto.
  - destruct (String.eqb k' k) eqn:E.
    + apply String.eqb_eq in E. subst. split; [discriminate | tauto].
    + apply String.eqb_neq in E. rewrite IH. tauto.
Qed.

Section PassFacts.

Variable h : Host.
Variable fs : FileSystem.

Lemma needsRead_true : forall docs p,
  needsRead h fs docs p = true ->
  denied h p = false
  /\ exists stats, stat fs p = Some stats /\ (size stats <= 1048576)%Z.
Proof.
  intros docs p H. unfold needsRead in H.
  destruct (denied h p); [discriminate |]. split; [reflexivity |].
  destruct (stat fs p) as [stats |]; [| discriminate].
  exists stats. split; [reflexivity |].
  simpl in H. destruct (size stats >? 1048576)%Z eqn:E; [discriminate |].
  rewrite Z.gtb_ltb in E. apply Z.ltb_ge in E. exact E.
Qed.

(** The loop over the files either leaves the entry of a path alone or
    replaces it by the document built from the file. *)
Lemma indexFiles_per_file : forall ps docs p,
  (JsMap.get (fst (indexFiles h fs docs ps)) p = JsMap.get docs p
   /\ (In p (snd (indexFiles h fs docs ps)) -> readFile fs p = None))
  \/ (In p (snd (indexFiles h fs docs ps)) /\ In p ps
      /\ needsRead h fs docs p = true
      /\ indexedFrom h fs (fst (indexFiles h fs docs ps)) p).
Proof.
  induction ps as [| q ps IH]; intros docs p.
  - left. split; [reflexivity | intros []].
  - cbn [indexFiles].
    destruct (indexFile1 h fs docs q) as [docs1 r1] eqn:E1.
    pose proof (indexFiles_indexedFrom h fs ps docs1 p) as [Hkeep _].
    specialize (IH docs1 p).
    destruct (indexFiles h fs docs1 ps) as [docs2 r2] eqn:E2.
    cbn [fst snd] in *.
    destruct (needsRead h fs docs q) eqn:En.
    + destruct (indexFile1_read h fs docs q En) as (stats & Hs & E).
      rewrite E in E1.
      destruct (readFile fs q) as [c |] eqn:Er; inversion E1; subst;
        clear E1.
      * destruct (string_dec q p) as [-> | Hne].
        -- right. split; [left; reflexivity |].
           split; [left; reflexivity |]. split; [exact En |].
           apply Hkeep. exists stats, c.
           rewrite get_set_same. auto.
        -- rewrite get_set_other in IH by assumption.
           destruct IH as [[Hg Hr] | (Hin & Hps & Hn & Hi)].
           ++ left. split; [exact Hg |].
              intros [Hq | Hin]; [contradiction | auto].
           ++ right. split; [right; exact Hin |].
              split; [right; exact Hps |]. split; [| exact Hi].
              pose proof (needsRead_mono h fs docs q p) as Hm.
              rewrite E in Hm. apply Hm. exact Hn.
      * destruct IH as [[Hg Hr] | (Hin & Hps & Hn & Hi)].
        -- left. split; [exact Hg |].
           intros [<- | Hin]; [exact Er | auto].
        -- right. split; [right; exact Hin |].
           split; [right; exact Hps |]. split; [exact Hn | exact Hi].
    + rewrite (indexFile1_skip h fs docs q En) in E1.
      inversion E1; subst; clear E1. cbn [app].
      destruct IH as [[Hg Hr] | (Hin & Hps & Hn & Hi)].
      * left. auto.
      * right. split; [exact Hin |]. split; [right; exact Hps | auto].
Qed.

Lemma visited_In : forall folders p,
  In p (visited h fs folders) ->
  exists folderPath files file,
    In folderPath folders /\ glob fs folderPath = Some files
    /\ In file files /\ p = path_join h folderPath file.
Proof.
  induction folders as [| f folders IH]; simpl; intros p Hp.
  - destruct Hp.
  - destruct (glob fs f) as [files |] eqn:Eg; [| destruct Hp].
    apply in_app_or in Hp. destruct Hp as [Hp | Hp].
    + apply in_map_iff in Hp. destruct Hp as (file & <- & Hfile).
      exists f, files, file. auto.
    + destruct (IH p Hp) as (f' & files' & file & H1 & H2 & H3 & H4).
      exists f', files', file. auto.
Qed.

(** The keys of the store after the loop: those before it, in their order,
    followed by paths that were read. *)
Lemma indexFiles_keys : forall ps docs,
  exists added,
    JsMap.keys (fst (indexFiles h fs docs ps)) = JsMap.keys docs ++ added
    /\ forall k, In k added -> In k (snd (indexFiles h fs docs ps)).
Proof.
  induction ps as [| q ps IH]; intro docs.
  - exists []. rewrite app_nil_r. split; [reflexivity | intros k []].
  - cbn [indexFiles].
    destruct (indexFile1 h fs docs q) as [docs1 r1] eqn:E1.
    destruct (IH docs1) as (added & Hk & Hin).
    destruct (indexFiles h fs docs1 ps) as [docs2 r2] eqn:E2.
    cbn [fst snd] in *.
    destruct (needsRead h fs docs q) eqn:En.
    + destruct (indexFile1_read h fs docs q En) as (stats & Hs & E).
      rewrite E in E1.
      destruct (readFile fs q) as [c |]; inversion E1; subst; clear E1.
      * rewrite keys_set in Hk.
        destruct (existsb (String.eqb q) (JsMap.keys docs)).
        -- exists added. split; [exact Hk |].
           intros k Hkin. right. auto.
        -- exists (q :: added). rewrite Hk, <- app_assoc.
           split; [reflexivity |].
           intros k [<- | Hkin]; [left; reflexivity | right; auto].
      * exists added. split; [exact Hk |]. intros k Hkin. right. auto.
    + rewrite (indexFile1_skip h fs docs q En) in E1.
      inversion E1; subst; clear E1. exists added. auto.
Qed.

End PassFacts.

(** X5.  For every path, a pass either leaves the entry of the path as it
    was and reads the file at most in vain, or it read the file and the
    entry is now the document built from it; the latter only for a file
    that a folder enumeration returned, that the access filter admits,
    that [stat] reports with at most 1 MiB and that the store did not hold
    up to date. *)
Theorem indexWorkspace_per_file :
  forall (h : Host) (fs : FileSystem) (st : State) (folders : list string)
         (st' : State) (reads : list string) (res : Result unit)
         (p : string),
    indexWorkspace h fs st folders = (st', reads, res) ->
    (JsMap.get (indexedDocuments st') p = JsMap.get (indexedDocuments st) p
     /\ (In p reads -> readFile fs p = None))
    \/ (In p reads
        /\ (exists folderPath files file,
              In folderPath folders /\ glob fs folderPath = Some files
              /\ In file files /\ p = path_join h folderPath file)
        /\ denied h p = false
        /\ exists stats content,
             stat fs p = Some stats
             /\ (size stats <= 1048576)%Z
             /\ upToDate (JsMap.get (indexedDocuments st) p) stats = false
             /\ readFile fs p = Some content
             /\ JsMap.get (indexedDocuments st') p
                = Some (buildDocument h p stats content)).
Proof.
  intros h fs st folders st' reads res p H.
  destruct (isIndexing st) eqn:Eg.
  - unfold indexWorkspace in H. rewrite Eg in H. inversion H; subst.
    left. split; [reflexivity | intros []].
  - rewrite (indexWorkspace_unfold h fs st folders Eg) in H.
    inversion H; subst; clear H. cbn [indexedDocuments].
    destruct (indexFiles_per_file h fs (visited h fs folders)
                (indexedDocuments st) p)
      as [Hl | (Hin & Hps & Hn & stats & c & Hs & Hr & Hg)].
    + left. exact Hl.
    + right. split; [exact Hin |].
      split; [apply (visited_In h fs), Hps |].
      destruct (needsRead_true h fs _ p Hn) as (Hd & stats' & Hs' & Hsz).
      split; [exact Hd |].
      rewrite Hs in Hs'. inversion Hs'; subst stats'.
      exists stats, c. repeat split; auto.
      unfold needsRead in Hn. rewrite Hd, Hs in Hn. simpl in Hn.
      destruct (upToDate (JsMap.get (indexedDocuments st) p) stats);
        [rewrite andb_false_r in Hn; discriminate | reflexivity].
Qed.

Lemma indexWorkspace_per_file_witness :
  JsMap.get (indexedDocuments
               (fst (fst (indexWorkspace Example.host Example.fs
                            (Example.state
                               [("/gone", Example.doc "/gone" "x" 0 1)])
                            ["/w"]))))
            "/gone"
  = Some (Example.doc "/gone" "x" 0 1).
Proof.
  destruct (indexWorkspace_per_file Example.host Example.fs
              (Example.state [("/gone", Example.doc "/gone" "x" 0 1)])
              ["/w"] _ _ _ "/gone" eq_refl)
    as [[Hg _] | (_ & _ & _ & stats & c & Hs & _)].
  - exact Hg.
  - discriminate Hs.
Defined.

(** X6.  A pass never removes an entry and never moves one: the paths of the
    store after the pass are the paths before it, in the same order,
    followed by paths of files that the pass read.  A file that has
    vanished, that has grown beyond the size limit or that the access filter
    now denies keeps its entry. *)
Theorem indexWorkspace_never_removes :
  forall (h : Host) (fs : FileSystem) (st : State) (folders : list string)
         (st' : State) (reads : list string) (res : Result unit),
    indexWorkspace h fs st folders = (st', reads, res) ->
    exists added,
      JsMap.keys (indexedDocuments st')
      = JsMap.keys (indexedDocuments st) ++ added
      /\ forall k, In k added -> In k reads.
Proof.
  intros h fs st folders st' reads res H.
  destruct (isIndexing st) eqn:Eg.
  - unfold indexWorkspace in H. rewrite Eg in H. inversion H; subst.
    exists []. rewrite app_nil_r. split; [reflexivity | intros k []].
  - rewrite (indexWorkspace_unfold h fs st folders Eg) in H.
    inversion H; subst; clear H. cbn [indexedDocuments].
    apply indexFiles_keys.
Qed.

Lemma indexWorkspace_never_removes_witness :
  JsMap.keys (indexedDocuments
                (fst (fst (indexWorkspace Example.host Example.fs
                             (Example.state
                                [("/gone", Example.doc "/gone" "x" 0 1)])
                             ["/w"]))))
  = ["/gone"; "/w/a.ts"; "/w/b.py"].
Proof.
  destruct (indexWorkspace_never_removes Example.host Example.fs
              (Example.state [("/gone", Example.doc "/gone" "x" 0 1)])
              ["/w"] _ _ _ eq_refl) as (added & Hk & _).
  reflexivity.
Defined.

(** ** The index file and a restart *)

Lemma set_absent : forall mp k d,
  ~ In k (JsMap.keys mp) -> JsMap.set mp k d = mp ++ [(k, d)].
Proof.
  induction mp as [| [k' d'] mp IH]; intros k d Hk; simpl.
  - reflexivity.
  - destruct (String.eqb k' k) eqn:E.
    + apply String.eqb_eq in E. subst. exfalso. apply Hk. left. reflexivity.
    + rewrite IH; [reflexivity |]. intro Hin. apply Hk. right. exact Hin.
Qed.

Lemma of_entries_acc : forall es acc,
  NoDup (JsMap.keys (acc ++ es)) ->
  fold_left (fun mp e => JsMap.set mp (fst e) (snd e)) es acc = acc ++ es.
Proof.
  induction es as [| [k d] es IH]; intros acc Hnd; simpl.
  - rewrite app_nil_r. reflexivity.
  - assert (Hk : ~ In k (JsMap.keys acc)).
    { unfold JsMap.keys in *. rewrite map_app in Hnd. simpl in Hnd.
      apply NoDup_remove_2 in Hnd. intro Hin. apply Hnd.
      apply in_or_app. left. exact Hin. }
    rewrite (set_absent acc k d Hk).
    rewrite IH; rewrite <- app_assoc; [reflexivity | exact Hnd].
Qed.

(** [new Map(Array.from(map.entries()))] is the map again. *)
Lemma of_entries_entries : forall mp,
  NoDup (JsMap.keys mp) -> JsMap.of_entries (JsMap.entries mp) = mp.
Proof.
  intros mp Hnd. unfold JsMap.of_entries, JsMap.entries, JsMap.empty.
  apply (of_entries_acc mp [] Hnd).
Qed.

Lemma set_keys_NoDup : forall mp k d,
  NoDup (JsMap.keys mp) -> NoDup (JsMap.keys (JsMap.set mp k d)).
Proof.
  intros mp k d Hnd. rewrite keys_set.
  destruct (existsb (String.eqb k) (JsMap.keys mp)) eqn:E; [exact Hnd |].
  assert (Hk : ~ In k (JsMap.keys mp)).
  { intro Hin. apply existsb_eqb_In in Hin. congruence. }
  apply NoDup_app; [exact Hnd | constructor; [intros [] | constructor] |].
  intros x Hx [<- | []]. contradiction.
Qed.

Lemma indexFiles_keys_NoDup : forall h fs ps docs,
  NoDup (JsMap.keys docs) ->
  NoDup (JsMap.keys (fst (indexFiles h fs docs ps))).
Proof.
  intros h fs. induction ps as [| q ps IH]; intros docs Hnd.
  - exact Hnd.
  - cbn [indexFiles].
    destruct (indexFile1 h fs docs q) as [docs1 r1] eqn:E1.
    specialize (IH docs1).
    destruct (indexFiles h fs docs1 ps) as [docs2 r2]. cbn [fst] in *.
    apply IH.
    destruct (needsRead h fs docs q) eqn:En.
    + destruct (indexFile1_read h fs docs q En) as (stats & _ & E).
      rewrite E in E1.
      destruct (readFile fs q); inversion E1; subst;
        [apply set_keys_NoDup |]; exact Hnd.
    + rewrite (indexFile1_skip h fs docs q En) in E1.
      inversion E1; subst. exact Hnd.
Qed.

(** X7.  What a pass wrote to the index file is what a restart loads: after
    a pass that ended well on a writable location, an instance that is
    initialised from the index file has the store that the pass left in
    memory, provided [JSON.parse] gives back the entries that
    [JSON.stringify] was given. *)
Theorem restart_restores_store :
  forall (h : Host) (fs fs' : FileSystem) (st st' fresh : State)
         (folders : list string) (reads : list string),
    isIndexing st = false ->
    NoDup (JsMap.keys (indexedDocuments st)) ->
    writable fs = true ->
    indexWorkspace h fs st folders = (st', reads, Ok tt) ->
    JSON_parse_entries h
      (JSON_stringify h (JsMap.entries (indexedDocuments st')))
    = Some (JsMap.entries (indexedDocuments st')) ->
    indexFile fresh = indexFile st' ->
    initialize h fs' fresh
    = (set_indexedDocuments fresh (indexedDocuments st'), Ok tt).
Proof.
  intros h fs fs' st st' fresh folders reads Hg Hnd Hw H Hjson Hfile.
  rewrite (indexWorkspace_unfold h fs st folders Hg) in H. cbv zeta in H.
  destruct (globOutcome fs folders) as [u | e]; [| discriminate H].
  rewrite Hw in H. inversion H; subst; clear H.
  cbn [indexedDocuments indexFile] in *.
  assert (Hnd' : NoDup (JsMap.keys
                          (fst (indexFiles h fs (indexedDocuments st)
                                  (visited h fs folders)))))
    by (apply indexFiles_keys_NoDup, Hnd).
  unfold initialize, loadIndex. rewrite Hfile, Hjson.
  rewrite (of_entries_entries _ Hnd'). reflexivity.
Qed.

Lemma restart_restores_store_witness :
  indexedDocuments
    (fst (initialize ExampleJson.host Example.fs
            (mkState [] false (Blob "entries"))))
  = indexedDocuments
      (fst (fst (indexWorkspace ExampleJson.host Example.fs
                   (Example.state []) ["/w"]))).
Proof.
  rewrite (restart_restores_store ExampleJson.host Example.fs Example.fs
             (Example.state [])
             (fst (fst (indexWorkspace ExampleJson.host Example.fs
                          (Example.state []) ["/w"])))
             (mkState [] false (Blob "entries")) ["/w"]
             ["/w/a.ts"; "/w/b.py"]
             eq_refl (NoDup_nil _) eq_refl eq_refl eq_refl eq_refl).
  reflexivity.
Defined.

(** ** Overlapping calls amount to passes one after the other *)

Section Linear.

Variable h : Host.
Variable fs : FileSystem.

Lemma run_Returned : forall n st res,
  run h fs n st (Returned res) = (st, Returned res).
Proof. induction n as [| n IH]; intros st res; simpl; auto. Qed.

Lemma run_snoc : forall n st pc,
  run h fs (S n) st pc
  = resume h fs (fst (run h fs n st pc)) (snd (run h fs n st pc)).
Proof.
  intros n st pc. replace (S n) with (n + 1)%nat by lia.
  rewrite run_add. simpl.
  destruct (resume h fs (fst (run h fs n st pc)) (snd (run h fs n st pc)));
    reflexivity.
Qed.

(** A call cannot return in two ways. *)
Lemma run_returns_once : forall n m st pc st1 st2 r1 r2,
  run h fs n st pc = (st1, Returned r1) ->
  run h fs m st pc = (st2, Returned r2) ->
  st1 = st2 /\ r1 = r2.
Proof.
  assert (Hle : forall n m st pc st1 st2 r1 r2,
    (n <= m)%nat ->
    run h fs n st pc = (st1, Returned r1) ->
    run h fs m st pc = (st2, Returned r2) ->
    st1 = st2 /\ r1 = r2).
  { intros n m st pc st1 st2 r1 r2 Hnm H1 H2.
    replace m with (n + (m - n))%nat in H2 by lia.
    rewrite run_add, H1 in H2. cbn [fst snd] in H2.
    rewrite run_Returned in H2. inversion H2; subst. auto. }
  intros n m st pc st1 st2 r1 r2 H1 H2.
  destruct (Nat.le_ge_cases n m) as [Hnm | Hmn].
  - eapply Hle; eauto.
  - destruct (Hle m n st pc st2 st1 r2 r1 Hmn H2 H1). auto.
Qed.

Lemma indexWorkspace_idle : forall st folders,
  isIndexing st = false ->
  isIndexing (fst (fst (indexWorkspace h fs st folders))) = false.
Proof.
  intros st folders Hg.
  rewrite (indexWorkspace_unfold h fs st folders Hg). reflexivity.
Qed.

Lemma afterPasses_idle : forall init st,
  isIndexing init = false -> afterPasses h fs init st ->
  isIndexing st = false.
Proof.
  intros init st Hi Hp. induction Hp as [| st folders Hp IH].
  - exact Hi.
  - apply indexWorkspace_idle, IH.
Qed.

Lemma inFlight_unique : forall l i j a b,
  (length (filter inFlight l) <= 1)%nat ->
  nth_error l i = Some a -> inFlight a = true ->
  nth_error l j = Some b -> inFlight b = true ->
  i = j.
Proof.
  induction l as [| x l IH]; intros i j a b Hc Hi Ha Hj Hb.
  - destruct i; discriminate.
  - simpl in Hc.
    assert (Hnone : inFlight x = true ->
                    forall k c, nth_error l k = Some c ->
                                inFlight c = true -> False).
    { intros Hx k c Hk Hcf. rewrite Hx in Hc. simpl in Hc.
      apply nth_error_In in Hk.
      assert (Hin : In c (filter inFlight l)) by (apply filter_In; auto).
      destruct (filter inFlight l); [destruct Hin | simpl in Hc; lia]. }
    destruct i as [| i], j as [| j]; simpl in *.
    + reflexivity.
    + inversion Hi; subst. exfalso. eapply Hnone; eauto.
    + inversion Hj; subst. exfalso. eapply Hnone; eauto.
    + f_equal. apply (IH i j a b); auto.
      destruct (inFlight x); simpl in Hc; lia.
Qed.

Lemma nth_error_update_nth : forall l i j pc,
  nth_error (update_nth i pc l) j
  = if (i =? j)%nat && (i <? length l)%nat then Some pc
    else nth_error l j.
Proof.
  induction l as [| x l IH]; intros i j pc.
  - simpl. destruct i, j; simpl; try reflexivity;
      rewrite ?andb_false_r; reflexivity.
  - destruct i as [| i], j as [| j]; simpl; try reflexivity.
    rewrite IH. reflexivity.
Qed.

Lemma step_linearInvariant : forall init s s',
  isIndexing init = false ->
  guardInvariant s -> linearInvariant h fs init s -> step h fs s s' ->
  linearInvariant h fs init s'.
Proof.
  intros init s s' Hinit Hguard (st0 & Hp & Hinv) Hstep.
  pose proof (step_guardInvariant h fs s s' Hguard Hstep) as Hguard'.
  pose proof (afterPasses_idle init st0 Hinit Hp) as Hidle.
  unfold guardInvariant, inFlightCount in Hguard, Hguard'.
  destruct Hstep as [sys folders | sys i pc Hn Hpc].
  - exists st0. split; [exact Hp |].
    destruct Hinv as [[Hg Hs] | (Hg & fo & n & Hrun)].
    + right. unfold call. rewrite Hg. cbn [fst snd service calls].
      split; [reflexivity |].
      exists folders, 0%nat. intros j pc Hj Hpc.
      rewrite Hg in Hguard.
      assert (Hlast : pc = nextFolder folders).
      { destruct (Nat.lt_ge_cases j (length (calls sys))) as [Hlt | Hge].
        - rewrite nth_error_app1 in Hj by assumption.
          apply nth_error_In in Hj.
          assert (Hin : In pc (filter inFlight (calls sys)))
            by (apply filter_In; auto).
          destruct (filter inFlight (calls sys));
            [destruct Hin | discriminate].
        - rewrite nth_error_app2 in Hj by assumption.
          destruct (j - length (calls sys))%nat as [| k];
            simpl in Hj; [congruence |].
          destruct k; discriminate. }
      subst pc. cbn [run]. rewrite <- Hs. unfold call. rewrite Hg.
      reflexivity.
    + right. unfold call. rewrite Hg. cbn [fst snd service calls].
      split; [exact Hg |].
      exists fo, n. intros j pc Hj Hpc. apply (Hrun j pc); [| exact Hpc].
      destruct (Nat.lt_ge_cases j (length (calls sys))) as [Hlt | Hge].
      * rewrite nth_error_app1 in Hj by assumption. exact Hj.
      * rewrite nth_error_app2 in Hj by assumption.
        destruct (j - length (calls sys))%nat as [| k]; simpl in Hj.
        -- inversion Hj; subst. discriminate.
        -- destruct k; discriminate.
  - cbn [service calls] in *.
    assert (Hbusy : isIndexing (service sys) = true).
    { destruct (isIndexing (service sys)); [reflexivity |].
      apply nth_error_In in Hn.
      assert (Hin : In pc (filter inFlight (calls sys)))
        by (apply filter_In; auto).
      destruct (filter inFlight (calls sys));
        [destruct Hin | discriminate]. }
    destruct Hinv as [[Hg _] | (_ & fo & n & Hrun)]; [congruence |].
    pose proof (Hrun i pc Hn Hpc) as Hhere.
    assert (Hnext : run h fs (S n) (fst (call st0 fo)) (snd (call st0 fo))
                    = resume h fs (service sys) pc).
    { rewrite run_snoc, Hhere. reflexivity. }
    destruct (resume_guard h fs (service sys) pc Hpc) as [[H1 H2] | [H1 H2]].
    + exists st0. split; [exact Hp |]. right. cbn [service calls].
      split; [rewrite H2; exact Hbusy |].
      exists fo, (S n). intros j pc' Hj Hpc'.
      rewrite Hnext.
      assert (Hij : i = j).
      { rewrite H2, Hbusy in Hguard'.
        assert (Hi' : nth_error
                        (update_nth i (snd (resume h fs (service sys) pc))
                                    (calls sys)) i
                      = Some (snd (resume h fs (service sys) pc))).
        { rewrite nth_error_update_nth, Nat.eqb_refl.
          assert (Hlt : (i < length (calls sys))%nat)
            by (apply nth_error_Some; congruence).
          apply Nat.ltb_lt in Hlt. rewrite Hlt. reflexivity. }
        eapply inFlight_unique; try eassumption. lia. }
      subst j. rewrite nth_error_update_nth, Nat.eqb_refl in Hj.
      assert (Hlt : (i < length (calls sys))%nat)
        by (apply nth_error_Some; congruence).
      apply Nat.ltb_lt in Hlt. rewrite Hlt in Hj. simpl in Hj.
      inversion Hj; subst.
      destruct (resume h fs (service sys) pc); reflexivity.
    + exists (fst (fst (indexWorkspace h fs st0 fo))).
      split; [apply afterPasses_more, Hp |].
      left. cbn [service calls]. split; [exact H2 |].
      destruct (indexWorkspace_refines h fs st0 fo) as [m Hm].
      destruct (snd (resume h fs (service sys) pc)) as [| | | | | res] eqn:Er;
        try discriminate.
      assert (Hpair : run h fs (S n) (fst (call st0 fo)) (snd (call st0 fo))
                      = (fst (resume h fs (service sys) pc), Returned res)).
      { rewrite Hnext, <- Er.
        destruct (resume h fs (service sys) pc); reflexivity. }
      destruct (run_returns_once _ _ _ _ _ _ _ _ Hpair Hm) as [E _].
      exact E.
Qed.

Lemma reachable_linearInvariant : forall init sys,
  isIndexing init = false -> reachable h fs init sys ->
  linearInvariant h fs init sys.
Proof.
  intros init sys Hi Hr. induction Hr as [| s s' Hr IH Hs].
  - exists init. split; [constructor |]. left. auto.
  - eapply step_linearInvariant; eauto.
    eapply reachable_guardInvariant; eauto.
Qed.

End Linear.

(** Every schedule of calls and resumptions leads to a reachable system. *)
Lemma schedule_reachable : forall h fs init actions,
  reachable h fs init (schedule h fs init actions).
Proof.
  intros h fs init actions. unfold schedule.
  assert (H : forall sys, reachable h fs init sys ->
                          reachable h fs init (fold_left (act h fs) actions sys)).
  { induction actions as [| a actions IH]; intros sys Hr; [exact Hr |].
    cbn [fold_left]. apply IH. destruct a as [folders | i]; cbn [act].
    - apply (reach_step h fs init sys); [exact Hr | apply step_call].
    - destruct (nth_error (calls sys) i) as [pc |] eqn:En; [| exact Hr].
      destruct (inFlight pc) eqn:Ef; [| exact Hr].
      apply (reach_step h fs init sys); [exact Hr |].
      apply step_resume; assumption. }
  apply H, reach_init.
Qed.

(** X8.  However calls of [indexWorkspace] overlap, whenever no call is in
    flight the instance is in a state that some sequence of passes, each
    run from start to end before the next, also reaches from the same
    start: the store, the guard and the index file are never left in a
    state that only an interleaving could produce. *)
Theorem overlapping_calls_are_sequential :
  forall (h : Host) (fs : FileSystem) (init : State) (sys : System),
    isIndexing init = false ->
    reachable h fs init sys ->
    inFlightCount sys = 0%nat ->
    afterPasses h fs init (service sys).
Proof.
  intros h fs init sys Hi Hr Hc.
  pose proof (reachable_guardInvariant h fs init sys Hi Hr) as Hg.
  destruct (reachable_linearInvariant h fs init sys Hi Hr)
    as (st0 & Hp & [[_ Hs] | (Hb & _)]).
  - rewrite Hs. exact Hp.
  - unfold guardInvariant in Hg. rewrite Hb, Hc in Hg. discriminate.
Qed.

Lemma overlapping_calls_are_sequential_witness :
  let final :=
    schedule Example.host Example.fs (Example.state [])
             [Call ["/w"]; Resume 0; Resume 0; Call ["/w"]; Resume 0;
              Resume 1; Resume 0; Call []; Resume 0; Resume 0; Resume 0] in
  calls final = [Returned (Ok tt); Returned (Ok tt); Returned (Ok tt)]
  /\ JsMap.keys (indexedDocuments (service final)) = ["/w/a.ts"; "/w/b.py"]
  /\ afterPasses Example.host Example.fs (Example.state [])
                 (service final).
Proof.
  cbv zeta. split; [vm_compute; reflexivity |].
  split; [vm_compute; reflexivity |].
  apply (overlapping_calls_are_sequential Example.host Example.fs
           (Example.state []) _ eq_refl);
    [apply schedule_reachable | vm_compute; reflexivity].
Defined.

(** ** The file type in the score *)

Lemma truthy_app_r : forall a b,
  JsString.truthy b = true -> JsString.truthy (a ++ b) = true.
Proof. intros [| c a] b H; simpl; auto. Qed.

Lemma includes_lower_marker : forall ft marker word,
  JsString.toLowerCase marker = marker ->
  JsString.includes marker word = true ->
  JsString.includes ft marker = true ->
  JsString.includes (JsString.toLowerCase ft) word = true.
Proof.
  intros ft marker word Hlow Hword Hft.
  apply includes_spec in Hft. destruct Hft as (a & b & ->).
  rewrite !toLowerCase_app, Hlow.
  apply includes_app_r, includes_app_l, Hword.
Qed.

(** X9.  The file type counts for the score exactly when it is not empty and
    some term is contained in its lower-case form: the two extra tests for
    the terms [test] and [react] never change the outcome.  In particular a
    document that the indexer files as a test gets the boost from every
    query with the term [test]. *)
Theorem fileType_boost_is_containment :
  (forall ft terms,
     fileTypeMentioned (Some ft) terms
     = JsString.truthy ft
       && existsb (fun term =>
                     JsString.includes (JsString.toLowerCase ft) term)
                  terms)
  /\ (forall h filePath stats text terms,
        fileType (buildDocument h filePath stats text)
        = Some (getLanguageFromPath h filePath ++ "-test")%string ->
        In "test" terms ->
        fileTypeMentioned
          (fileType (buildDocument h filePath stats text)) terms = true).
Proof.
  assert (H1 : forall ft terms,
    fileTypeMentioned (Some ft) terms
    = JsString.truthy ft
      && existsb (fun term =>
                    JsString.includes (JsString.toLowerCase ft) term)
                 terms).
  { intros ft terms. unfold fileTypeMentioned. f_equal.
    induction terms as [| t terms IH]; [reflexivity |].
    cbn [existsb]. rewrite IH. f_equal.
    destruct (JsString.includes (JsString.toLowerCase ft) t) eqn:E;
      [reflexivity |].
    cbn [orb].
    destruct (String.eqb t "test") eqn:Et.
    - apply String.eqb_eq in Et. subst t.
      destruct (JsString.includes ft "-test") eqn:Ei; [| reflexivity].
      rewrite (includes_lower_marker ft "-test" "test") in E;
        [discriminate | reflexivity | reflexivity | exact Ei].
    - cbn [andb orb].
      destruct (String.eqb t "react") eqn:Er; [| reflexivity].
      apply String.eqb_eq in Er. subst t.
      destruct (JsString.includes ft "-react") eqn:Ei; [| reflexivity].
      rewrite (includes_lower_marker ft "-react" "react") in E;
        [discriminate | reflexivity | reflexivity | exact Ei]. }
  split; [exact H1 |].
  intros h filePath stats text terms Hft Hin.
  rewrite Hft, H1.
  rewrite truthy_app_r by reflexivity. cbn [andb].
  apply existsb_exists. exists "test". split; [exact Hin |].
  rewrite toLowerCase_app.
  apply includes_app_r. reflexivity.
Qed.

Lemma fileType_boost_is_containment_witness :
  fileTypeMentioned
    (fileType (buildDocument Example.host "/w/app.test.ts"
                 (mkStats 3 7) "x = 1"))
    ["test"] = true.
Proof.
  apply (proj2 fileType_boost_is_containment Example.host "/w/app.test.ts"
           (mkStats 3 7) "x = 1" ["test"]).
  - vm_compute. reflexivity.
  - left. reflexivity.
Defined.

(** ** The documents that the indexer builds *)

Lemma lookup_In : forall tbl k v,
  lookup tbl k = Some v -> In v (map snd tbl).
Proof.
  induction tbl as [| [k' v'] tbl IH]; simpl; intros k v H.
  - discriminate.
  - destruct (String.eqb k' k); [inversion H; auto | eauto].
Qed.

Lemma estimateTokenCount_nonneg : forall text,
  (0 <= estimateTokenCount text)%Z.
Proof.
  intro text. pose proof (estimateTokenCount_ceil text) as [H1 H2]. lia.
Qed.

(** X10.  A document built by the indexer is keyed by the path it was read
    from, carries the modification time of the file, has a token count that
    is not negative, a language out of the language table or [plaintext], a
    file type that is the language, the language with [-test] or (for
    JavaScript and TypeScript only) [-react], [config] or [documentation],
    and all four metadata lists present. *)
Theorem buildDocument_shape :
  forall (h : Host) (filePath : string) (stats : Stats) (text : string),
    let d := buildDocument h filePath stats text in
    path d = filePath
    /\ content d = text
    /\ lastModified d = mtime stats
    /\ (0 <= tokens d)%Z
    /\ (tokens d = 0%Z <-> text = EmptyString)
    /\ (In (language d) (map snd languageMap) \/ language d = "plaintext")
    /\ (exists ft,
          fileType d = Some ft
          /\ (ft = language d
              \/ ft = (language d ++ "-test")%string
              \/ (ft = (language d ++ "-react")%string
                  /\ Extract.isJsTs (language d) = true)
              \/ ft = "config" \/ ft = "documentation"))
    /\ symbols d <> None /\ imports d <> None
    /\ exports d <> None /\ comments d <> None.
Proof.
  intros h filePath stats text d. subst d. cbn [buildDocument path content
    lastModified tokens language fileType symbols imports exports comments].
  split; [reflexivity |]. split; [reflexivity |]. split; [reflexivity |].
  split; [apply estimateTokenCount_nonneg |].
  split.
  { pose proof (estimateTokenCount_ceil text) as [H1 H2]. split.
    - intro E. rewrite E in H2. destruct text; [reflexivity |].
      simpl String.length in H2. lia.
    - intros ->. reflexivity. }
  split.
  { unfold getLanguageFromPath.
    destruct (lookup languageMap
                (JsString.toLowerCase (path_extname h filePath))) eqn:E.
    - left. eapply lookup_In; eauto.
    - right. reflexivity. }
  split.
  { eexists. split; [reflexivity |]. unfold detectFileType.
    repeat match goal with
           | |- context [if ?b then _ else _] =>
               let E := fresh "E" in destruct b eqn:E
           end; auto.
    right. right. left. split; [reflexivity |].
    apply andb_prop in E0. tauto. }
  repeat split; discriminate.
Qed.

(** ** Extracted texts *)

Lemma trimStart_idem : forall s,
  JsString.trimStart (JsString.trimStart s) = JsString.trimStart s.
Proof.
  induction s as [| c s IH]; simpl; [reflexivity |].
  destruct (JsString.isWhiteSpace c) eqn:E; [exact IH |].
  simpl. rewrite E. reflexivity.
Qed.

Lemma trimEnd_idem : forall s,
  JsString.trimEnd (JsString.trimEnd s) = JsString.trimEnd s.
Proof.
  induction s as [| c s IH]; [reflexivity |].
  cbn [JsString.trimEnd]. destruct (JsString.trimEnd s) as [| d t] eqn:Et.
  - destruct (JsString.isWhiteSpace c) eqn:E; [reflexivity |].
    simpl. rewrite E. reflexivity.
  - cbn [JsString.trimEnd] in *. rewrite IH. reflexivity.
Qed.

Lemma trimEnd_head : forall c s,
  JsString.isWhiteSpace c = false ->
  exists t, JsString.trimEnd (String c s) = String c t.
Proof.
  intros c s Hc. cbn [JsString.trimEnd].
  destruct (JsString.trimEnd s); [rewrite Hc |]; eauto.
Qed.

Lemma trim_idem : forall s, JsString.trim (JsString.trim s) = JsString.trim s.
Proof.
  intro s. unfold JsString.trim.
  assert (Hs : JsString.trimStart (JsString.trimEnd (JsString.trimStart s))
               = JsString.trimEnd (JsString.trimStart s)).
  { induction s as [| c s IH]; [reflexivity |].
    cbn [JsString.trimStart].
    destruct (JsString.isWhiteSpace c) eqn:E; [exact IH |].
    destruct (trimEnd_head c s E) as [t ->].
    cbn [JsString.trimStart]. rewrite E. reflexivity. }
  rewrite Hs. apply trimEnd_idem.
Qed.

Lemma push_truthy_In : forall f xs x,
  In x (push_truthy f xs) ->
  x <> EmptyString /\ exists y, In y xs /\ x = f y.
Proof.
  intros f xs x H. unfold push_truthy in H. apply filter_In in H.
  destruct H as [Hin Ht]. split.
  - intro E. subst. discriminate.
  - apply in_map_iff in Hin. destruct Hin as (y & <- & Hy). eauto.
Qed.

Lemma push_group1_In : forall r ms x,
  In x (Extract.push_group1 r ms) -> x <> EmptyString.
Proof.
  intros r ms x H. unfold Extract.push_group1 in H.
  apply in_flat_map in H. destruct H as (mt & _ & H).
  destruct (Regex.exec r mt) as [mr |]; [| destruct H].
  destruct (Regex.m_group1 mr) as [g |]; [| destruct H].
  destruct (JsString.truthy g) eqn:E; [| destruct H].
  destruct H as [<- | []]. intro; subst; discriminate.
Qed.

(** X11.  No extractor returns an empty name: every symbol and every import
    is a string that is not empty, and every comment is not empty and free
    of white space at both ends, whatever the content and the language. *)
Theorem extracted_texts_are_clean :
  forall (text language : string),
    (forall c, In c (Extract.extractComments text language) ->
               c <> EmptyString /\ JsString.trim c = c)
    /\ (forall s, In s (Extract.extractSymbols text language) ->
                  s <> EmptyString)
    /\ (forall i, In i (Extract.extractImports text language) ->
                  i <> EmptyString).
Proof.
  intros text language. split; [| split].
  - intros c H. unfold Extract.extractComments in H.
    repeat (apply in_app_or in H; destruct H as [H | H]);
      apply push_truthy_In in H; destruct H as (Hne & y & _ & ->);
      (split; [exact Hne | apply trim_idem]).
  - intros s H. unfold Extract.extractSymbols in H.
    rewrite array_from_Set_In in H.
    destruct (Extract.isJsTs language);
      [| destruct (String.eqb language "python"); [| destruct H]];
      repeat (apply in_app_or in H; destruct H as [H | H]);
      apply push_truthy_In in H; tauto.
  - intros i H. unfold Extract.extractImports in H.
    rewrite array_from_Set_In in H.
    destruct (Extract.isJsTs language);
      [| destruct (String.eqb language "python"); [| destruct H]];
      repeat (apply in_app_or in H; destruct H as [H | H]);
      first [ apply push_group1_In in H; exact H
            | apply push_truthy_In in H; tauto ].
Qed.

(* ================================================================== *)
(** * The access filter *)
(* ================================================================== *)

Lemma firstBlocked_Some : forall c args arg,
  Ignore.firstBlocked c args = Some arg <->
  exists before after,
    args = before ++ arg :: after
    /\ Ignore.skipped arg = false
    /\ Ignore.validateAccess c arg = false
    /\ forall x, In x before ->
                 Ignore.skipped x = true
                 \/ Ignore.validateAccess c x = true.
Proof.
  intros c args arg. induction args as [| a args IH]; simpl.
  - split; [discriminate |].
    intros (before & after & H & _). destruct before; discriminate.
  - destruct (Ignore.skipped a) eqn:Es.
    + rewrite IH. split.
      * intros (before & after & -> & H1 & H2 & H3).
        exists (a :: before), after. repeat split; auto.
        intros x [<- | Hx]; auto.
      * intros (before & after & H & H1 & H2 & H3).
        destruct before as [| b before]; simpl in H; inversion H; subst.
        -- congruence.
        -- exists before, after. repeat split; auto.
           intros x Hx. apply H3. right. exact Hx.
    + destruct (Ignore.validateAccess c a) eqn:Ev; simpl.
      * rewrite IH. split.
        -- intros (before & after & -> & H1 & H2 & H3).
           exists (a :: before), after. repeat split; auto.
           intros x [<- | Hx]; auto.
        -- intros (before & after & H & H1 & H2 & H3).
           destruct before as [| b before]; simpl in H; inversion H; subst.
           ++ congruence.
           ++ exists before, after. repeat split; auto.
              intros x Hx. apply H3. right. exact Hx.
      * split.
        -- intro H. inversion H; subst. exists [], args.
           repeat split; auto; intros x [].
        -- intros (before & after & H & H1 & H2 & H3).
           destruct before as [| b before]; simpl in H; inversion H; subst.
           ++ reflexivity.
           ++ destruct (H3 b (or_introl eq_refl)); congruence.
Qed.

Lemma firstBlocked_None : forall c args,
  Ignore.firstBlocked c args = None <->
  forall x, In x args ->
            Ignore.skipped x = true \/ Ignore.validateAccess c x = true.
Proof.
  intros c args. induction args as [| a args IH]; simpl.
  - split; [intros _ x [] | reflexivity].
  - destruct (Ignore.skipped a) eqn:Es.
    + rewrite IH. split.
      * intros H x [<- | Hx]; auto.
      * intros H x Hx. apply H. right. exact Hx.
    + destruct (Ignore.validateAccess c a) eqn:Ev; simpl.
      * rewrite IH. split.
        -- intros H x [<- | Hx]; auto.
        -- intros H x Hx. apply H. right. exact Hx.
      * split; [discriminate |].
        intro H. destruct (H a (or_introl eq_refl)); congruence.
Qed.

Lemma validateAccess_false : forall c p,
  Ignore.validateAccess c p = false ->
  Ignore.noContent c = false /\ Ignore.ignores c p = Some true.
Proof.
  intros c p H. unfold Ignore.validateAccess in H.
  destruct (Ignore.noContent c); [discriminate |].
  split; [reflexivity |].
  destruct (Ignore.ignores c p) as [[|] |]; try discriminate. reflexivity.
Qed.

(** X12.  What [validateCommand] reports is the first argument of a
    file-reading command that is neither an option (a leading [-] or [/])
    nor a parameter name (a colon) and that the ignore file denies; every
    argument before it is an option, a parameter name or accessible.  It
    never reports the command word itself, an option or an argument of a
    command that is not in the list. *)
Theorem validateCommand_reports_first_denied :
  forall (c : Ignore.Controller) (command arg : string),
    Ignore.validateCommand c command = Some arg ->
    Ignore.noContent c = false
    /\ In (JsString.toLowerCase
             (hd EmptyString (Ignore.commandParts command)))
          Ignore.fileReadingCommands
    /\ (exists before after,
          tl (Ignore.commandParts command) = before ++ arg :: after
          /\ forall x, In x before ->
                       Ignore.skipped x = true
                       \/ Ignore.validateAccess c x = true)
    /\ JsString.startsWith arg "-" = false
    /\ JsString.startsWith arg "/" = false
    /\ JsString.includes arg ":" = false
    /\ Ignore.ignores c arg = Some true.
Proof.
  intros c command arg H. unfold Ignore.validateCommand in H.
  destruct (Ignore.noContent c) eqn:En; [discriminate |].
  split; [reflexivity |].
  destruct (existsb _ Ignore.fileReadingCommands) eqn:Eb; [| discriminate].
  split; [apply existsb_eqb_In, Eb |].
  apply firstBlocked_Some in H.
  destruct H as (before & after & Hparts & Hs & Hv & Hb).
  split; [exists before, after; auto |].
  unfold Ignore.skipped in Hs.
  apply orb_false_elim in Hs. destruct Hs as [Hs Hc].
  apply orb_false_elim in Hs. destruct Hs as [Hd Hsl].
  repeat split; auto.
  apply validateAccess_false in Hv. tauto.
Qed.

Lemma validateCommand_reports_first_denied_witness :
  let c := Ignore.mkController (Some "secrets.json")
             (fun p => Some (String.eqb p "secrets.json")) in
  Ignore.validateCommand c "  GREP -r 'password' src/app.js secrets.json"
  = Some "secrets.json"
  /\ Ignore.ignores c "secrets.json" = Some true.
Proof.
  intro c. split; [vm_compute; reflexivity |].
  apply (validateCommand_reports_first_denied c
           "  GREP -r 'password' src/app.js secrets.json" "secrets.json").
  vm_compute. reflexivity.
Defined.

(** X13.  [validateCommand] lets a command pass exactly when there is no
    ignore text, or the command word is not a file-reading command, or every
    argument is an option, a parameter name or accessible.  So a
    file-reading command whose arguments all begin with [/], absolute paths
    among them, always passes, whatever the ignore file denies. *)
Theorem validateCommand_passes :
  forall (c : Ignore.Controller) (command : string),
    (Ignore.validateCommand c command = None <->
     Ignore.noContent c = true
     \/ ~ In (JsString.toLowerCase
                (hd EmptyString (Ignore.commandParts command)))
             Ignore.fileReadingCommands
     \/ forall x, In x (tl (Ignore.commandParts command)) ->
                  Ignore.skipped x = true
                  \/ Ignore.validateAccess c x = true)
    /\ ((forall x, In x (tl (Ignore.commandParts command)) ->
                   JsString.startsWith x "/" = true) ->
        Ignore.validateCommand c command = None).
Proof.
  intros c command.
  assert (Hiff : Ignore.validateCommand c command = None <->
     Ignore.noContent c = true
     \/ ~ In (JsString.toLowerCase
                (hd EmptyString (Ignore.commandParts command)))
             Ignore.fileReadingCommands
     \/ forall x, In x (tl (Ignore.commandParts command)) ->
                  Ignore.skipped x = true
                  \/ Ignore.validateAccess c x = true).
  { unfold Ignore.validateCommand.
    destruct (Ignore.noContent c) eqn:En; [tauto |].
    destruct (existsb _ Ignore.fileReadingCommands) eqn:Eb.
    - rewrite firstBlocked_None. apply existsb_eqb_In in Eb.
      split; [auto |]. intros [H | [H | H]];
        [discriminate | contradiction | exact H].
    - split; [| reflexivity]. intros _. right. left.
      intro Hin. apply existsb_eqb_In in Hin. congruence. }
  split; [exact Hiff |].
  intro Hall. apply Hiff. right. right.
  intros x Hx. left. unfold Ignore.skipped.
  rewrite (Hall x Hx), orb_true_r. reflexivity.
Qed.

Lemma validateCommand_passes_witness :
  Ignore.validateCommand
    (Ignore.mkController (Some "secrets.json") (fun _ => Some true))
    "cat /work/secrets.json" = None.
Proof.
  apply (proj2 (validateCommand_passes
                  (Ignore.mkController (Some "secrets.json")
                                       (fun _ => Some true))
                  "cat /work/secrets.json")).
  intros x Hx. vm_compute in Hx. destruct Hx as [<- | []]. reflexivity.
Defined.

Lemma filterPaths_filter : forall c paths,
  Ignore.filterPaths c paths = filter (Ignore.validateAccess c) paths.
Proof.
  intros c paths. unfold Ignore.filterPaths.
  induction paths as [| p paths IH]; simpl; [reflexivity |].
  destruct (Ignore.validateAccess c p); simpl; rewrite IH; reflexivity.
Qed.

(** X14.  [filterPaths] keeps exactly the accessible paths, in their order
    and as often as they occur; filtering twice changes nothing more, and a
    list filtered in pieces is the whole list filtered.  Without an ignore
    text, an empty ignore file included, every path is accessible, every
    command passes and [filterPaths] returns its argument. *)
Theorem filterPaths_keeps_accessible :
  forall (c : Ignore.Controller) (paths more : list string),
    (forall p, In p (Ignore.filterPaths c paths) <->
               In p paths /\ Ignore.validateAccess c p = true)
    /\ Ignore.filterPaths c (Ignore.filterPaths c paths)
       = Ignore.filterPaths c paths
    /\ Ignore.filterPaths c (paths ++ more)
       = Ignore.filterPaths c paths ++ Ignore.filterPaths c more
    /\ (Ignore.noContent c = true ->
        Ignore.filterPaths c paths = paths
        /\ (forall p, Ignore.validateAccess c p = true)
        /\ (forall command, Ignore.validateCommand c command = None)).
Proof.
  intros c paths more. rewrite !filterPaths_filter.
  split; [intro p; apply filter_In |]. split.
  - induction paths as [| p paths IH]; simpl; [reflexivity |].
    destruct (Ignore.validateAccess c p) eqn:E; simpl;
      [rewrite E, IH |]; auto.
  - split; [apply filter_app |].
    intro Hn.
    assert (Hall : forall p, Ignore.validateAccess c p = true).
    { intro p. unfold Ignore.validateAccess. rewrite Hn. reflexivity. }
    split; [| split; [exact Hall |]].
    + induction paths as [| p paths IH]; simpl; [reflexivity |].
      rewrite Hall, IH. reflexivity.
    + intro command. unfold Ignore.validateCommand. rewrite Hn.
      reflexivity.
Qed.

Lemma filterPaths_keeps_accessible_witness :
  Ignore.filterPaths (Ignore.mkController (Some "") (fun _ => Some true))
                     ["a"; ".env"; "a"]
  = ["a"; ".env"; "a"].
Proof.
  apply (filterPaths_keeps_accessible
           (Ignore.mkController (Some "") (fun _ => Some true))
           ["a"; ".env"; "a"] []).
  reflexivity.
Defined.

(* ================================================================== *)
(** * The cost settings *)
(* ================================================================== *)

(** *** The arithmetic of the context budget *)

Lemma Qfloor_unique : forall x k,
  (inject_Z k <= x)%Q -> (x < inject_Z (k + 1))%Q -> Qfloor x = k.
Proof.
  intros x k H1 H2.
  pose proof (Qfloor_le x) as F1. pose proof (Qlt_floor x) as F2.
  assert (A : (inject_Z (Qfloor x) < inject_Z (k + 1))%Q)
    by (eapply Qle_lt_trans; eassumption).
  assert (B : (inject_Z k < inject_Z (Qfloor x + 1))%Q)
    by (eapply Qle_lt_trans; eassumption).
  rewrite <- Zlt_Qlt in A, B. lia.
Qed.

(** The floor of the hundredth of a product below 2^53 is the integer
    quotient: the quotient of doubles is less than one hundredth off. *)
Lemma contextFloor_exact : forall p,
  (0 <= p < 9007199254740992)%Z ->
  Qfloor (Double.div (inject_Z (Double.roundZ p)) 100) = (p / 100)%Z.
Proof.
  intros p Hp. rewrite roundZ_exact by lia. unfold Double.div.
  set (k := (p / 100)%Z).
  assert (Hk : (100 * k <= p <= 100 * k + 99)%Z).
  { unfold k. Z.to_euclidean_division_equations. lia. }
  assert (Hq1 : (inject_Z k <= inject_Z p / 100)%Q).
  { apply Qle_shift_div_l; [reflexivity |].
    change 100%Q with (inject_Z 100). rewrite <- inject_Z_mult, <- Zle_Qle.
    lia. }
  assert (Hq2 : (inject_Z p / 100 <= inject_Z k + (99 # 100))%Q).
  { apply Qle_shift_div_r; [reflexivity |].
    assert (E : (inject_Z p <= inject_Z (100 * k + 99))%Q)
      by (rewrite <- Zle_Qle; lia).
    rewrite inject_Z_plus, inject_Z_mult in E.
    change (inject_Z 100) with 100%Q in E.
    change (inject_Z 99) with 99%Q in E. lra. }
  assert (Hq3 : (inject_Z p / 100 < 9007199254740992 # 100)%Q).
  { apply Qlt_shift_div_r; [reflexivity |].
    assert (E : (inject_Z p < inject_Z 9007199254740992)%Q)
      by (rewrite <- Zlt_Qlt; lia).
    change (inject_Z 9007199254740992) with 9007199254740992%Q in E. lra. }
  set (q := (inject_Z p / 100)%Q) in *.
  assert (Hq0 : (0 <= q)%Q).
  { eapply Qle_trans; [| exact Hq1].
    change 0%Q with (inject_Z 0). rewrite <- Zle_Qle. lia. }
  destruct (round_err q Hq0) as [_ Hup]. unfold Double.eps in Hup.
  apply Qfloor_unique.
  - rewrite <- (round_Z_exact k) by lia. apply round_mono, Hq1.
  - rewrite inject_Z_plus. change (inject_Z 1) with 1%Q. lra.
Qed.

Lemma contextFloor_nonpos : forall p,
  (p <= 0)%Z ->
  (Qfloor (Double.div (inject_Z (Double.roundZ p)) 100) <= 0)%Z.
Proof.
  intros p Hp. pose proof (roundZ_nonpos p Hp) as Hr.
  change 0%Z with (Qfloor 0). apply Qfloor_resp_le.
  unfold Double.div. apply round_nonpos.
  rewrite Zle_Qle in Hr. change (inject_Z 0) with 0%Q in Hr.
  set (r := inject_Z (Double.roundZ p)) in *.
  apply Qle_shift_div_r; [reflexivity | lra].
Qed.

(** For every product that is not negative, the floor is off by the two
    roundings and by less than 1. *)
Lemma contextFloor_approx : forall p,
  (0 <= p)%Z ->
  exists A B : Q,
    (inject_Z p - inject_Z p * Double.eps <= A)%Q
    /\ (A <= inject_Z p + inject_Z p * Double.eps)%Q
    /\ (A * (1 # 100) - A * (1 # 100) * Double.eps <= B)%Q
    /\ (B <= A * (1 # 100) + A * (1 # 100) * Double.eps)%Q
    /\ (B - 1
        < inject_Z (Qfloor (Double.div (inject_Z (Double.roundZ p)) 100)))%Q
    /\ (inject_Z (Qfloor (Double.div (inject_Z (Double.roundZ p)) 100))
        <= B)%Q.
Proof.
  intros p Hp.
  assert (Hp0 : (0 <= inject_Z p)%Q).
  { change 0%Q with (inject_Z 0). rewrite <- Zle_Qle. exact Hp. }
  destruct (round_err (inject_Z p) Hp0) as [A1 A2].
  pose proof (round_nonneg _ Hp0) as A0.
  rewrite (round_roundZ p) in A1, A2, A0.
  set (A := inject_Z (Double.roundZ p)) in *.
  unfold Double.div. change (A / 100)%Q with (A * (1 # 100))%Q.
  assert (HA : (0 <= A * (1 # 100))%Q) by lra.
  destruct (round_err (A * (1 # 100)) HA) as [B1 B2].
  exists A, (Double.round (A * (1 # 100))).
  pose proof (Qfloor_le (Double.round (A * (1 # 100)))) as F1.
  pose proof (Qlt_floor (Double.round (A * (1 # 100)))) as F2.
  rewrite inject_Z_plus in F2. change (inject_Z 1) with 1%Q in F2.
  repeat split; try assumption. lra.
Qed.

Lemma subZ_spec : forall a b,
  ((a - b <= 0)%Z -> (Double.subZ a b <= 0)%Z)
  /\ ((0 <= a - b <= 9007199254740992)%Z -> Double.subZ a b = (a - b)%Z).
Proof.
  intros a b. unfold Double.subZ. split; intro H.
  - apply roundZ_nonpos, H.
  - apply roundZ_exact, H.
Qed.

(** The budget in terms of the floor [F] and the reserve. *)
Lemma budget_mono : forall F1 r1 F2 r2,
  (F1 - r1 <= F2 - r2)%Z ->
  (Z.max 0 (Double.subZ F1 r1) <= Z.max 0 (Double.subZ F2 r2))%Z.
Proof.
  intros F1 r1 F2 r2 H. unfold Double.subZ.
  pose proof (roundZ_mono _ _ H). lia.
Qed.

(** X15.  The context budget is never negative and is 0 for a model without
    a context window.  For a context window of at most 2^46 tokens, a usage
    of at most 100 per cent and a reserve for the output that is not
    negative it never exceeds the context window, and a budget that is not 0
    leaves room for the reserved output: budget and reserve together fit
    into the window.  For larger windows the rounding of the product can
    break the bound: a window of 6976487286873785 tokens at 100 per cent
    with a reserve of 500 gives a budget that, with the reserve, is one more
    than the window. *)
Theorem calculateMaxContextTokens_bounds :
  forall (mg : Cost.Manager) (modelInfo : Cost.ModelInfo),
    (0 <= Cost.calculateMaxContextTokens mg modelInfo)%Z
    /\ (Cost.contextWindow modelInfo = None
        \/ Cost.contextWindow modelInfo = Some 0%Z ->
        Cost.calculateMaxContextTokens mg modelInfo = 0%Z)
    /\ (forall cw,
          Cost.contextWindow modelInfo = Some cw ->
          (0 <= cw <= 70368744177664)%Z ->
          (Cost.maxContextWindowUsage (Cost.settings mg) <= 100)%Z ->
          (0 <= Cost.maxOutputTokens (Cost.settings mg))%Z ->
          (Cost.calculateMaxContextTokens mg modelInfo <= cw)%Z
          /\ ((0 < Cost.calculateMaxContextTokens mg modelInfo)%Z ->
              (Cost.calculateMaxContextTokens mg modelInfo
               + Cost.maxOutputTokens (Cost.settings mg) <= cw)%Z))
    /\ (Cost.calculateMaxContextTokens
          (Cost.mkManager
             (Cost.mkSettings Cost.LOW 100 false 500 false)
             (Cost.globalState mg))
          (Cost.mkModel (Some 6976487286873785%Z) None None None)
        + 500 = 6976487286873785 + 1)%Z.
Proof.
  intros mg modelInfo.
  split; [| split; [| split]].
  - unfold Cost.calculateMaxContextTokens.
    destruct (negb (Cost.truthyZ (Cost.contextWindow modelInfo)));
      [lia | apply Z.le_max_l].
  - unfold Cost.calculateMaxContextTokens. intros [-> | ->]; reflexivity.
  - unfold Cost.calculateMaxContextTokens.
    intros cw -> Hcw Hu Ho. cbn [Cost.truthyZ Cost.orElse].
    destruct (cw =? 0)%Z eqn:E; cbn [negb].
    + apply Z.eqb_eq in E. subst. split; lia.
    + unfold Double.mulZ.
      set (u := Cost.maxContextWindowUsage (Cost.settings mg)) in *.
      set (r := Cost.maxOutputTokens (Cost.settings mg)) in *.
      set (F := Qfloor (Double.div (inject_Z (Double.roundZ (cw * u))) 100)).
      assert (HF : (F <= cw)%Z).
      { destruct (Z_lt_le_dec u 0) as [Hneg | Hpos].
        - pose proof (contextFloor_nonpos (cw * u)%Z ltac:(nia)).
          fold F in H. lia.
        - unfold F. rewrite contextFloor_exact by nia.
          apply Z.div_le_upper_bound; [lia | nia]. }
      destruct (subZ_spec F r) as [S1 S2].
      destruct (Z_le_gt_dec (F - r) 0) as [Hle | Hgt].
      * specialize (S1 Hle). split; lia.
      * rewrite S2 by lia. split; lia.
  - vm_compute. reflexivity.
Qed.

Lemma calculateMaxContextTokens_bounds_witness :
  (Cost.calculateMaxContextTokens
     (Cost.construct (Cost.mkGlobal None None))
     (Cost.mkModel (Some 200000%Z) None None None) = 168000)%Z
  /\ (168000 + 2000 <= 200000)%Z.
Proof.
  split; [vm_compute; reflexivity |].
  destruct (calculateMaxContextTokens_bounds
              (Cost.construct (Cost.mkGlobal None None))
              (Cost.mkModel (Some 200000%Z) None None None))
    as (_ & _ & H & _).
  destruct (H 200000%Z eq_refl ltac:(lia) ltac:(simpl; lia)
              ltac:(simpl; lia)) as [_ H2].
  assert (E : Cost.calculateMaxContextTokens
                (Cost.construct (Cost.mkGlobal None None))
                (Cost.mkModel (Some 200000%Z) None None None) = 168000%Z)
    by (vm_compute; reflexivity).
  rewrite E in H2. apply H2. reflexivity.
Defined.

(** X16.  With the settings of the three levels as they ship, a model with
    a context window of at least 20000 tokens gets the largest context
    budget at the level LOW and the smallest at HIGH, but for a window of
    at most 6666 tokens the order is the reverse: there the level HIGH,
    which is meant to save most, grants the largest budget.  The output
    limit is ordered LOW, BALANCED, HIGH for every model. *)
Theorem preset_budgets_ordered :
  forall (g : Cost.GlobalState) (modelInfo : Cost.ModelInfo) (cw : Z),
    Cost.contextWindow modelInfo = Some cw ->
    let budget level :=
      Cost.calculateMaxContextTokens
        (Cost.mkManager (Cost.DEFAULT_SETTINGS level) g) modelInfo in
    let output level :=
      Cost.getMaxOutputTokens
        (Cost.mkManager (Cost.DEFAULT_SETTINGS level) g) modelInfo in
    ((20000 <= cw)%Z ->
     (budget Cost.HIGH <= budget Cost.BALANCED <= budget Cost.LOW)%Z)
    /\ ((0 <= cw <= 6666)%Z ->
        (budget Cost.LOW <= budget Cost.BALANCED <= budget Cost.HIGH)%Z)
    /\ (output Cost.HIGH <= output Cost.BALANCED <= output Cost.LOW)%Z.
Proof.
  intros g modelInfo cw Hcw budget output. subst budget output.
  unfold Cost.calculateMaxContextTokens, Cost.getMaxOutputTokens.
  rewrite Hcw. cbn [Cost.truthyZ Cost.orElse Cost.settings
                    Cost.DEFAULT_SETTINGS Cost.maxContextWindowUsage
                    Cost.maxOutputTokens].
  unfold Double.mulZ.
  split; [| split].
  - intro H. destruct (cw =? 0)%Z eqn:E; cbn [negb];
      [apply Z.eqb_eq in E; lia |].
    destruct (Z_lt_le_dec cw 70368744177664) as [Hsmall | Hlarge].
    + rewrite !contextFloor_exact by lia.
      split; apply budget_mono; Z.to_euclidean_division_equations; lia.
    + destruct (contextFloor_approx (cw * 70)%Z ltac:(lia))
        as (A1 & B1 & a1 & a2 & b1 & b2 & f1 & f2).
      destruct (contextFloor_approx (cw * 85)%Z ltac:(lia))
        as (A2 & B2 & c1 & c2 & d1 & d2 & g1 & g2).
      destruct (contextFloor_approx (cw * 95)%Z ltac:(lia))
        as (A3 & B3 & e1 & e2 & h1 & h2 & k1 & k2).
      set (F1 := Qfloor (Double.div (inject_Z (Double.roundZ (cw * 70)))
                                    100)) in *.
      set (F2 := Qfloor (Double.div (inject_Z (Double.roundZ (cw * 85)))
                                    100)) in *.
      set (F3 := Qfloor (Double.div (inject_Z (Double.roundZ (cw * 95)))
                                    100)) in *.
      rewrite inject_Z_mult in a1, a2, c1, c2, e1, e2.
      change (inject_Z 70) with 70%Q in *.
      change (inject_Z 85) with 85%Q in *.
      change (inject_Z 95) with 95%Q in *.
      assert (Hc : (70368744177664 <= inject_Z cw)%Q).
      { change 70368744177664%Q with (inject_Z 70368744177664).
        rewrite <- Zle_Qle. exact Hlarge. }
      unfold Double.eps in *.
      split; apply budget_mono; rewrite Zle_Qle; unfold Z.sub;
        rewrite !inject_Z_plus, !inject_Z_opp;
        [change (inject_Z 1000) with 1000%Q;
         change (inject_Z 2000) with 2000%Q
        | change (inject_Z 2000) with 2000%Q;
          change (inject_Z 4000) with 4000%Q]; lra.
  - intro H. destruct (cw =? 0)%Z eqn:E; cbn [negb]; [lia |].
    rewrite !contextFloor_exact by lia.
    split; apply budget_mono; Z.to_euclidean_division_equations; lia.
  - destruct (Cost.maxTokens modelInfo) as [mt |];
      cbn [Cost.truthyZ Cost.orElse]; [| cbn [andb]; lia].
    destruct (mt =? 0)%Z; cbn [negb andb]; [lia |].
    destruct (Z.ltb_spec mt 4000), (Z.ltb_spec mt 2000),
             (Z.ltb_spec mt 1000); lia.
Qed.

Lemma preset_budgets_ordered_witness :
  let budget level :=
    Cost.calculateMaxContextTokens
      (Cost.mkManager (Cost.DEFAULT_SETTINGS level)
                      (Cost.mkGlobal None None))
      (Cost.mkModel (Some 4096%Z) None None None) in
  budget Cost.LOW = 0%Z /\ budget Cost.BALANCED = 1481%Z
  /\ budget Cost.HIGH = 1867%Z
  /\ (budget Cost.LOW <= budget Cost.BALANCED <= budget Cost.HIGH)%Z.
Proof.
  intro budget. split; [vm_compute; reflexivity |].
  split; [vm_compute; reflexivity |].
  split; [vm_compute; reflexivity |].
  destruct (preset_budgets_ordered (Cost.mkGlobal None None)
              (Cost.mkModel (Some 4096%Z) None None None) 4096 eq_refl)
    as (_ & Hsmall & _).
  apply Hsmall. lia.
Defined.

(** X17.  The output limit never exceeds the limit of the settings; for a
    model that states a positive limit of its own it is the smaller of the
    two, and for a model without one (or with 0) it is the limit of the
    settings. *)
Theorem getMaxOutputTokens_is_minimum :
  forall (mg : Cost.Manager) (modelInfo : Cost.ModelInfo),
    (Cost.getMaxOutputTokens mg modelInfo
     <= Cost.maxOutputTokens (Cost.settings mg))%Z
    /\ (forall mt,
          Cost.maxTokens modelInfo = Some mt -> (0 < mt)%Z ->
          Cost.getMaxOutputTokens mg modelInfo
          = Z.min mt (Cost.maxOutputTokens (Cost.settings mg)))
    /\ (Cost.maxTokens modelInfo = None
        \/ Cost.maxTokens modelInfo = Some 0%Z ->
        Cost.getMaxOutputTokens mg modelInfo
        = Cost.maxOutputTokens (Cost.settings mg)).
Proof.
  intros mg modelInfo. unfold Cost.getMaxOutputTokens.
  split; [| split].
  - destruct (Cost.maxTokens modelInfo) as [mt |]; cbn [Cost.truthyZ];
      [| cbn [andb]; lia].
    destruct (mt =? 0)%Z; cbn [negb andb Cost.orElse]; [lia |].
    destruct (mt <? _)%Z eqn:E; [apply Z.ltb_lt in E |]; lia.
  - intros mt -> Hmt. cbn [Cost.truthyZ Cost.orElse].
    destruct (mt =? 0)%Z eqn:E0; [apply Z.eqb_eq in E0; lia |].
    cbn [negb andb].
    destruct (mt <? _)%Z eqn:E;
      [apply Z.ltb_lt in E | apply Z.ltb_ge in E]; lia.
  - intros [-> | ->]; reflexivity.
Qed.

Lemma getMaxOutputTokens_is_minimum_witness :
  Cost.getMaxOutputTokens
    (Cost.mkManager (Cost.DEFAULT_SETTINGS Cost.LOW)
                    (Cost.mkGlobal None None))
    (Cost.mkModel None (Some 1024%Z) None None) = 1024%Z.
Proof.
  rewrite (proj1 (proj2 (getMaxOutputTokens_is_minimum
                           (Cost.mkManager (Cost.DEFAULT_SETTINGS Cost.LOW)
                                           (Cost.mkGlobal None None))
                           (Cost.mkModel None (Some 1024%Z) None None)))
                 1024%Z eq_refl ltac:(lia)).
  reflexivity.
Defined.

(** X18.  When the global state accepts both updates, the settings that
    [setOptimizationLevel] or [updateSettings] put in force are the settings
    that a manager constructed afterwards from the global state starts
    with; a level sets all five settings to the values of that level.
    When an update is rejected, the call is rejected with the key of that
    update: after a rejected first update (the level) the global state is
    as it was, after a rejected second update (the settings) it holds the
    new level beside the settings it had.  In both cases the new settings
    are in force in the running manager all the same. *)
Theorem settings_survive_restart :
  forall (rejects : string -> bool) (mg : Cost.Manager)
         (level : Cost.CostOptimizationLevel)
         (partial : Cost.PartialSettings),
    (noRejection rejects ->
     snd (Cost.setOptimizationLevel rejects mg level) = Cost.Resolved
     /\ Cost.getSettings
          (Cost.construct
             (Cost.globalState
                (fst (Cost.setOptimizationLevel rejects mg level))))
        = Cost.DEFAULT_SETTINGS level
     /\ snd (Cost.updateSettings rejects mg partial) = Cost.Resolved
     /\ Cost.getSettings
          (Cost.construct
             (Cost.globalState
                (fst (Cost.updateSettings rejects mg partial))))
        = Cost.spread (Cost.getSettings mg) partial)
    /\ Cost.getSettings (fst (Cost.setOptimizationLevel rejects mg level))
       = Cost.DEFAULT_SETTINGS level
    /\ Cost.getSettings (fst (Cost.updateSettings rejects mg partial))
       = Cost.spread (Cost.getSettings mg) partial
    /\ (rejects "costOptimizationLevel" = true ->
        snd (Cost.setOptimizationLevel rejects mg level)
        = Cost.Rejected "costOptimizationLevel"
        /\ Cost.globalState (fst (Cost.setOptimizationLevel rejects mg level))
           = Cost.globalState mg
        /\ snd (Cost.updateSettings rejects mg partial)
           = Cost.Rejected "costOptimizationLevel"
        /\ Cost.globalState (fst (Cost.updateSettings rejects mg partial))
           = Cost.globalState mg)
    /\ (rejects "costOptimizationLevel" = false ->
        rejects "costOptimizationSettings" = true ->
        snd (Cost.setOptimizationLevel rejects mg level)
        = Cost.Rejected "costOptimizationSettings"
        /\ Cost.globalState (fst (Cost.setOptimizationLevel rejects mg level))
           = Cost.mkGlobal
               (Some level)
               (Cost.costOptimizationSettings (Cost.globalState mg))
        /\ snd (Cost.updateSettings rejects mg partial)
           = Cost.Rejected "costOptimizationSettings"
        /\ Cost.globalState (fst (Cost.updateSettings rejects mg partial))
           = Cost.mkGlobal
               (Some (Cost.optimizationLevel
                        (Cost.spread (Cost.getSettings mg) partial)))
               (Cost.costOptimizationSettings (Cost.globalState mg))).
Proof.
  intros rejects mg level partial.
  assert (Hmem : forall m,
            Cost.settings (fst (Cost.saveSettings rejects m))
            = Cost.settings m).
  { intro m. unfold Cost.saveSettings.
    destruct (rejects "costOptimizationLevel"); [reflexivity |].
    destruct (rejects "costOptimizationSettings"); reflexivity. }
  split; [| split; [apply Hmem | split; [apply Hmem | split]]].
  - intro Hno.
    unfold Cost.setOptimizationLevel, Cost.updateSettings, Cost.saveSettings.
    rewrite !Hno. repeat split; reflexivity.
  - intro H1.
    unfold Cost.setOptimizationLevel, Cost.updateSettings, Cost.saveSettings.
    rewrite H1. repeat split; reflexivity.
  - intros H1 H2.
    unfold Cost.setOptimizationLevel, Cost.updateSettings, Cost.saveSettings.
    rewrite H1, H2. repeat split; try reflexivity.
    destruct level; reflexivity.
Qed.

Lemma settings_survive_restart_witness :
  Cost.getSettings
    (Cost.construct
       (Cost.globalState
          (fst (Cost.updateSettings (fun _ => false)
                  (Cost.construct (Cost.mkGlobal None None))
                  (Cost.mkPartial None (Some 60%Z) None None None)))))
  = Cost.mkSettings Cost.BALANCED 60 true 2000 false.
Proof.
  rewrite (proj2 (proj2 (proj2 (proj1
             (settings_survive_restart (fun _ => false)
                (Cost.construct (Cost.mkGlobal None None)) Cost.LOW
                (Cost.mkPartial None (Some 60%Z) None None None))
             (fun _ => eq_refl))))).
  reflexivity.
Defined.

(** X19.  Updates of the settings compose: two updates one after the other
    leave the settings of one update with the later values laid over the
    earlier ones, an update without any key changes nothing, and an update
    that names only the level changes the label alone, so that the other
    four settings need not be those of the level any more. *)
Theorem updateSettings_compose :
  forall (rejects : string -> bool) (mg : Cost.Manager)
         (p q : Cost.PartialSettings) (level : Cost.CostOptimizationLevel),
    Cost.getSettings
      (fst (Cost.updateSettings rejects
              (fst (Cost.updateSettings rejects mg p)) q))
    = Cost.getSettings
        (fst (Cost.updateSettings rejects mg (mergePartial p q)))
    /\ Cost.getSettings
         (fst (Cost.updateSettings rejects mg
                 (Cost.mkPartial None None None None None)))
       = Cost.getSettings mg
    /\ Cost.getSettings
         (fst (Cost.updateSettings rejects mg
                 (Cost.mkPartial (Some level) None None None None)))
       = Cost.mkSettings level
           (Cost.maxContextWindowUsage (Cost.getSettings mg))
           (Cost.useLocalRag (Cost.getSettings mg))
           (Cost.maxOutputTokens (Cost.getSettings mg))
           (Cost.compressCodeInContext (Cost.getSettings mg)).
Proof.
  intros rejects mg p q level.
  assert (Hmem : forall m,
            Cost.settings (fst (Cost.saveSettings rejects m))
            = Cost.settings m).
  { intro m. unfold Cost.saveSettings.
    destruct (rejects "costOptimizationLevel"); [reflexivity |].
    destruct (rejects "costOptimizationSettings"); reflexivity. }
  unfold Cost.getSettings, Cost.updateSettings.
  repeat (rewrite Hmem; cbn [Cost.settings]).
  split; [| split].
  - destruct p as [p1 p2 p3 p4 p5], q as [q1 q2 q3 q4 q5].
    unfold Cost.spread, mergePartial. cbn.
    destruct q1, q2, q3, q4, q5; reflexivity.
  - destruct (Cost.settings mg); reflexivity.
  - reflexivity.
Qed.

(** The cost of one direction: the price per token, rounded, times the
    token count, rounded. *)
Lemma directionCost_bounds : forall price tokens,
  (0 <= price)%Q -> (0 <= tokens)%Q ->
  let c := Double.mul (Double.div price 1000000) tokens in
  (0 <= c)%Q
  /\ (price * tokens * (1 # 1000000) * (1 - Double.eps) * (1 - Double.eps)
      <= c)%Q
  /\ (c <= price * tokens * (1 # 1000000)
           * (1 + Double.eps) * (1 + Double.eps))%Q.
Proof.
  intros price tokens Hp Ht c. subst c.
  unfold Double.mul, Double.div.
  change (price / 1000000)%Q with (price * (1 # 1000000))%Q.
  assert (HX : (0 <= price * (1 # 1000000))%Q) by lra.
  destruct (round_err _ HX) as [P1 P2].
  pose proof (round_nonneg _ HX) as P0.
  set (P := Double.round (price * (1 # 1000000))) in *.
  assert (HY : (0 <= P * tokens)%Q) by (apply Qmult_le_0_compat; assumption).
  destruct (round_err _ HY) as [I1 I2].
  pose proof (round_nonneg _ HY) as I0.
  set (I := Double.round (P * tokens)) in *.
  unfold Double.eps in *.
  assert (Y1 : (price * tokens * (1 # 1000000)
                * (1 - (1 # 9007199254740992)) <= P * tokens)%Q) by nra.
  assert (Y2 : (P * tokens <= price * tokens * (1 # 1000000)
                              * (1 + (1 # 9007199254740992)))%Q) by nra.
  set (Y := (P * tokens)%Q) in *.
  assert (HE : (0 <= price * tokens)%Q)
    by (apply Qmult_le_0_compat; assumption).
  set (E := (price * tokens)%Q) in *.
  split; [exact I0 | split; lra].
Qed.

Lemma directionCost_mono : forall price tokens more,
  (0 <= price)%Q -> (tokens <= more)%Q ->
  (Double.mul (Double.div price 1000000) tokens
   <= Double.mul (Double.div price 1000000) more)%Q.
Proof.
  intros price tokens more Hp Hm. unfold Double.mul, Double.div.
  change (price / 1000000)%Q with (price * (1 # 1000000))%Q.
  assert (HX : (0 <= price * (1 # 1000000))%Q) by lra.
  pose proof (round_nonneg _ HX) as P0.
  set (P := Double.round (price * (1 # 1000000))) in *.
  apply round_mono. nra.
Qed.

(** X20.  The estimated cost is 0 as soon as one of the two prices is
    missing or 0, whatever the other price and the token counts are.  With
    two positive prices and token counts that are not negative it is not
    negative and does not decrease when a token count grows.  It is not the
    exact value of (input tokens at the input price plus output tokens at
    the output price) per million: with the prices 3 and 15 and three tokens
    each way the five roundings give a number other than 54 millionths.  For
    prices between a millionth and a million and token counts up to 2^53
    it is within the relative error 2^-51 of the exact value. *)
Theorem estimateRequestCost_shape :
  forall (modelInfo : Cost.ModelInfo) (inputTokens outputTokens : Z),
    (Cost.truthyQ (Cost.inputPrice modelInfo) = false
     \/ Cost.truthyQ (Cost.outputPrice modelInfo) = false ->
     Cost.estimateRequestCost modelInfo inputTokens outputTokens = 0%Q)
    /\ (forall ip op,
          Cost.inputPrice modelInfo = Some ip ->
          Cost.outputPrice modelInfo = Some op ->
          (0 < ip)%Q -> (0 < op)%Q ->
          (0 <= inputTokens)%Z -> (0 <= outputTokens)%Z ->
          (0 <= Cost.estimateRequestCost modelInfo inputTokens outputTokens)%Q
          /\ (forall moreInput moreOutput,
                (inputTokens <= moreInput)%Z ->
                (outputTokens <= moreOutput)%Z ->
                (Cost.estimateRequestCost modelInfo inputTokens outputTokens
                 <= Cost.estimateRequestCost modelInfo moreInput
                                             moreOutput)%Q)
          /\ ((1 # 1000000 <= ip)%Q /\ (ip <= 1000000)%Q ->
              (1 # 1000000 <= op)%Q /\ (op <= 1000000)%Q ->
              (inputTokens <= 9007199254740992)%Z ->
              (outputTokens <= 9007199254740992)%Z ->
              let exact :=
                ((ip * inject_Z inputTokens + op * inject_Z outputTokens)
                 * (1 # 1000000))%Q in
              (exact - exact * (1 # 2251799813685248)
               <= Cost.estimateRequestCost modelInfo inputTokens
                                           outputTokens)%Q
              /\ (Cost.estimateRequestCost modelInfo inputTokens outputTokens
                  <= exact + exact * (1 # 2251799813685248))%Q))
    /\ ~ (Cost.estimateRequestCost
            (Cost.mkModel None None (Some 3%Q) (Some 15%Q)) 3 3
          == 54 # 1000000)%Q.
Proof.
  intros modelInfo inputTokens outputTokens. split; [| split].
  - intros [H | H]; unfold Cost.estimateRequestCost; rewrite H;
      [reflexivity | rewrite orb_true_r; reflexivity].
  - intros ip op Hip Hop Hpi Hpo Hin Hout.
    assert (Hshape : forall a b,
      Cost.estimateRequestCost modelInfo a b
      = Double.add (Double.mul (Double.div ip 1000000) (inject_Z a))
                   (Double.mul (Double.div op 1000000) (inject_Z b))).
    { intros a b. unfold Cost.estimateRequestCost. rewrite Hip, Hop.
      cbn [Cost.truthyQ Cost.orElse].
      assert (Ei : Qeq_bool ip 0 = false).
      { apply not_true_is_false. intro E. apply Qeq_bool_eq in E.
        rewrite E in Hpi. apply (Qlt_irrefl 0), Hpi. }
      assert (Eo : Qeq_bool op 0 = false).
      { apply not_true_is_false. intro E. apply Qeq_bool_eq in E.
        rewrite E in Hpo. apply (Qlt_irrefl 0), Hpo. }
      rewrite Ei, Eo. reflexivity. }
    assert (Ha : (0 <= inject_Z inputTokens)%Q).
    { change 0%Q with (inject_Z 0). rewrite <- Zle_Qle. exact Hin. }
    assert (Hb : (0 <= inject_Z outputTokens)%Q).
    { change 0%Q with (inject_Z 0). rewrite <- Zle_Qle. exact Hout. }
    destruct (directionCost_bounds ip (inject_Z inputTokens)
                (Qlt_le_weak _ _ Hpi) Ha) as (I0 & I1 & I2).
    destruct (directionCost_bounds op (inject_Z outputTokens)
                (Qlt_le_weak _ _ Hpo) Hb) as (O0 & O1 & O2).
    rewrite !Hshape. unfold Double.add.
    set (I := Double.mul (Double.div ip 1000000) (inject_Z inputTokens))
      in *.
    set (O := Double.mul (Double.div op 1000000) (inject_Z outputTokens))
      in *.
    assert (HS : (0 <= I + O)%Q) by lra.
    split; [apply round_nonneg, HS | split].
    + intros a b Hia Hib. rewrite Hshape. unfold Double.add.
      apply round_mono. apply Qplus_le_compat.
      * apply directionCost_mono; [apply Qlt_le_weak, Hpi |].
        rewrite <- Zle_Qle. exact Hia.
      * apply directionCost_mono; [apply Qlt_le_weak, Hpo |].
        rewrite <- Zle_Qle. exact Hib.
    + intros _ _ _ _. cbv zeta.
      destruct (round_err _ HS) as [C1 C2].
      set (C := Double.round (I + O)) in *.
      assert (HEa : (0 <= ip * inject_Z inputTokens)%Q)
        by (apply Qmult_le_0_compat; [apply Qlt_le_weak, Hpi | exact Ha]).
      assert (HEb : (0 <= op * inject_Z outputTokens)%Q)
        by (apply Qmult_le_0_compat; [apply Qlt_le_weak, Hpo | exact Hb]).
      set (Ea := (ip * inject_Z inputTokens)%Q) in *.
      set (Eb := (op * inject_Z outputTokens)%Q) in *.
      unfold Double.eps in *. split; lra.
  - vm_compute. intro H. discriminate H.
Qed.

(* ================================================================== *)
(** ** A failing enumeration *)
(* ================================================================== *)

(** The loop over the folders ends at a folder whose enumeration fails. *)
Lemma visited_stops : forall h fs before failing after,
  glob fs failing = None ->
  visited h fs (before ++ failing :: after) = visited h fs before
  /\ globOutcome fs (before ++ failing :: after) = Throw GlobError.
Proof.
  intros h fs before failing after Hf.
  induction before as [| f before [IH1 IH2]]; simpl.
  - rewrite Hf. split; reflexivity.
  - destruct (glob fs f); [| split; reflexivity].
    rewrite IH1. split; [reflexivity | exact IH2].
Qed.

(** X21.  When the enumeration of a workspace folder fails, the call is
    rejected with that failure and the index file is not written; the guard
    is cleared; the store keeps what the folders before the failing one
    brought in, and the folders after it are not visited. *)
Theorem indexWorkspace_glob_failure :
  forall (h : Host) (fs : FileSystem) (st : State)
         (before : list string) (failing : string) (after : list string),
    isIndexing st = false ->
    glob fs failing = None ->
    indexWorkspace h fs st (before ++ failing :: after)
    = (mkState (fst (indexFiles h fs (indexedDocuments st)
                       (visited h fs before)))
               false (indexFile st),
       snd (indexFiles h fs (indexedDocuments st) (visited h fs before)),
       Throw GlobError).
Proof.
  intros h fs st before failing after Hg Hf.
  rewrite (indexWorkspace_unfold h fs st _ Hg). cbv zeta.
  destruct (visited_stops h fs before failing after Hf) as [Hv Ho].
  rewrite Hv, Ho. reflexivity.
Qed.

Lemma indexWorkspace_glob_failure_witness :
  let r := indexWorkspace Example.host Example.fs (Example.state [])
             ["/w"; "/missing"; "/w2"] in
  JsMap.keys (indexedDocuments (fst (fst r))) = ["/w/a.ts"; "/w/b.py"]
  /\ indexFile (fst (fst r)) = Absent
  /\ isIndexing (fst (fst r)) = false
  /\ snd r = Throw GlobError.
Proof.
  cbv zeta.
  pose proof (indexWorkspace_glob_failure Example.host Example.fs
                (Example.state []) ["/w"] "/missing" ["/w2"]
                eq_refl eq_refl) as H.
  cbn [app] in H. rewrite H.
  vm_compute. repeat split; reflexivity.
Defined.

(* ================================================================== *)
(** ** The code compressor *)
(* ================================================================== *)

(** A successful match hands its continuation a rest that is no longer
    than the input. *)
Lemma m_shrinks : forall (X : Type) r s c
    (k : string -> option string -> option X) x,
  Regex.m r s c k = Some x ->
  exists s' c', (String.length s' <= String.length s)%nat
                /\ k s' c' = Some x.
Proof.
  intros X r. induction r as [| p | a IHa b IHb | a IHa b IHb | g a IHa
                              | a IHa |]; intros s c k x H;
    [simpl in H | simpl in H | simpl in H | simpl in H | | simpl in H
    | simpl in H].
  - exists s, c. split; [lia | exact H].
  - destruct s as [| ch s']; [discriminate |].
    destruct (p ch); [| discriminate].
    exists s', c. simpl. split; [lia | exact H].
  - apply IHa in H. destruct H as (s1 & c1 & Hl1 & H).
    apply IHb in H. destruct H as (s2 & c2 & Hl2 & H).
    exists s2, c2. split; [lia | exact H].
  - destruct (Regex.m a s c k) eqn:E.
    + inversion H; subst. apply IHa in E. exact E.
    + apply IHb in H. exact H.
  - assert (Hloop : forall n s c,
      (fix loop (n : nat) (s : string) (c : option string) {struct n}
         : option X :=
         match n with
         | O => k s c
         | S n' =>
             let again :=
               Regex.m a s c
                 (fun s' c' =>
                    if (String.length s' <? String.length s)%nat
                    then loop n' s' c' else None) in
             if g then match again with
                       | Some x => Some x
                       | None => k s c
                       end
             else match k s c with
                  | Some x => Some x
                  | None => again
                  end
         end) n s c = Some x ->
      exists s' c', (String.length s' <= String.length s)%nat
                    /\ k s' c' = Some x).
    { clear s c H. induction n as [| n IHn]; intros s c H.
      - exists s, c. split; [lia | exact H].
      - cbv zeta in H.
        match type of H with
        | (if g then match ?again with _ => _ end else _) = _ =>
            set (ag := again) in *
        end.
        assert (Hag : ag = Some x ->
                      exists s' c',
                        (String.length s' <= String.length s)%nat
                        /\ k s' c' = Some x).
        { intro E. unfold ag in E. apply IHa in E.
          destruct E as (s1 & c1 & Hl1 & E).
          destruct (String.length s1 <? String.length s)%nat eqn:El;
            [| discriminate].
          apply Nat.ltb_lt in El.
          apply IHn in E. destruct E as (s2 & c2 & Hl2 & E).
          exists s2, c2. split; [lia | exact E]. }
        destruct g.
        + destruct ag as [y |].
          * inversion H; subst. apply Hag. reflexivity.
          * exists s, c. split; [lia | exact H].
        + destruct (k s c) as [y |] eqn:Ek.
          * inversion H; subst. exists s, c. split; [lia | exact Ek].
          * apply Hag. exact H. }
    apply (Hloop (S (String.length s)) s c). exact H.
  - apply IHa in H. destruct H as (s1 & c1 & Hl1 & H).
    eexists s1, _. split; [exact Hl1 | exact H].
  - destruct s as [| ch s'].
    + exists "", c. split; [lia | exact H].
    + destruct (JsString.isLineTerminator ch); [| discriminate].
      exists (String ch s'), c. split; [lia | exact H].
Qed.

Lemma match_here_shrinks : forall r s rest g,
  Regex.match_here r s = Some (rest, g) ->
  (String.length rest <= String.length s)%nat.
Proof.
  intros r s rest g H. unfold Regex.match_here in H.
  apply m_shrinks in H. destruct H as (s' & c' & Hl & H).
  inversion H; subst. exact Hl.
Qed.

Lemma take_nil_inv : forall n s,
  JsString.take n s = "" -> n = 0%nat \/ s = "".
Proof.
  intros [| n] [| a s] H; auto. discriminate H.
Qed.

Lemma string_length_app : forall a b,
  String.length (a ++ b) = (String.length a + String.length b)%nat.
Proof.
  induction a as [| ch a IH]; intro b; simpl; [| rewrite IH]; reflexivity.
Qed.

(** A global replacement does not lengthen the text when every match is at
    least as long as the replacement text. *)
Lemma replace_g_fuel_length : forall r repl,
  (forall s rest g,
     Regex.match_here r s = Some (rest, g) ->
     (String.length repl + String.length rest <= String.length s)%nat) ->
  forall fuel anchored bol s,
    (String.length (Compress.replace_g_fuel fuel anchored r repl bol s)
     <= String.length s)%nat.
Proof.
  intros r repl Hr. induction fuel as [| fuel IH]; intros anchored bol s.
  - simpl. lia.
  - cbn [Compress.replace_g_fuel].
    destruct (if anchored && negb bol then None else Regex.match_here r s)
      as [[rest g] |] eqn:E.
    + assert (Hm : Regex.match_here r s = Some (rest, g)).
      { destruct (anchored && negb bol); [discriminate | exact E]. }
      pose proof (Hr _ _ _ Hm) as Hl.
      destruct (JsString.take (String.length s - String.length rest) s)
        as [| ch consumed] eqn:Et.
      * destruct s as [| a s'].
        -- simpl in Hl. lia.
        -- apply take_nil_inv in Et. destruct Et as [Et | Et];
             [| discriminate].
           rewrite string_length_app. cbn [String.length] in *.
           specialize (IH anchored (JsString.isLineTerminator a) s'). lia.
      * rewrite string_length_app.
        specialize (IH anchored
                      (Compress.lineStartAfter bol (String ch consumed))
                      rest).
        lia.
    + destruct s as [| a s']; [simpl; lia |].
      cbn [String.length].
      specialize (IH anchored (JsString.isLineTerminator a) s'). lia.
Qed.

Lemma replace_g_deletes : forall anchored r s,
  (String.length (Compress.replace_g anchored r "" s)
   <= String.length s)%nat.
Proof.
  intros anchored r s. unfold Compress.replace_g.
  apply replace_g_fuel_length. intros s0 rest g H.
  apply match_here_shrinks in H. simpl. exact H.
Qed.

Lemma replace_g_spaces : forall s,
  (String.length (Compress.replace_g false Compress.re_spaces " " s)
   <= String.length s)%nat.
Proof.
  intro s. unfold Compress.replace_g.
  apply replace_g_fuel_length. intros s0 rest g H.
  unfold Regex.match_here, Compress.re_spaces in H.
  cbn [Regex.seq fold_right] in H.
  change (Regex.m (Regex.Seq Regex.ws
                     (Regex.Seq Regex.ws
                        (Regex.Seq (Regex.star Regex.ws) Regex.Eps)))
                  s0 None (fun s' c => Some (s', c)))
    with (Regex.m Regex.ws s0 None
            (fun s1 c1 =>
               Regex.m Regex.ws s1 c1
                 (fun s2 c2 =>
                    Regex.m (Regex.star Regex.ws) s2 c2
                      (fun s3 c3 => Some (s3, c3))))) in H.
  apply m_shrinks in H. destruct H as (s1 & c1 & Hl1 & H).
  destruct s1 as [| b s2]; [discriminate H |].
  cbn [Regex.m Regex.ws] in H.
  destruct (JsString.isWhiteSpace b); [| discriminate H].
  apply m_shrinks in H. destruct H as (s3 & c3 & Hl3 & H).
  inversion H; subst.
  unfold Regex.ws in Hl1.
  destruct s0 as [| a s0']; simpl in *; lia.
Qed.

(** The greedy [\s*] takes the whole run of white space. *)
Lemma star_ws_greedy : forall s c,
  exists rest,
    Regex.m (Regex.star Regex.ws) s c (fun s' c' => Some (s', c'))
    = Some (rest, c)
    /\ firstIsWhiteSpace rest = false.
Proof.
  intros s c.
  assert (Hloop : forall n s c, (String.length s < n)%nat ->
    exists rest,
      (fix loop (n : nat) (s : string) (c : option string) {struct n}
         : option (string * option string) :=
         match n with
         | O => Some (s, c)
         | S n' =>
             let again :=
               Regex.m Regex.ws s c
                 (fun s' c' =>
                    if (String.length s' <? String.length s)%nat
                    then loop n' s' c' else None) in
             if true then match again with
                          | Some x => Some x
                          | None => Some (s, c)
                          end
             else match Some (s, c) with
                  | Some x => Some x
                  | None => again
                  end
         end) n s c = Some (rest, c)
      /\ firstIsWhiteSpace rest = false).
  { clear s c. induction n as [| n IHn]; intros s c Hn; [lia |].
    destruct s as [| a s'].
    - exists "". split; reflexivity.
    - cbv zeta. cbn [Regex.m Regex.ws].
      destruct (JsString.isWhiteSpace a) eqn:Ea.
      + assert (El : (String.length s' <? String.length (String a s'))%nat
                     = true) by (apply Nat.ltb_lt; simpl; lia).
        rewrite El.
        destruct (IHn s' c) as (rest & E & Hrest); [simpl in Hn; lia |].
        exists rest. cbn [Regex.m Regex.ws] in E. rewrite E.
        split; [reflexivity | exact Hrest].
      + exists (String a s'). split; [reflexivity | exact Ea]. }
  destruct (Hloop (S (String.length s)) s c) as (rest & E & Hrest); [lia |].
  exists rest. split; [exact E | exact Hrest].
Qed.

(** What the pattern for runs of white space finds at the start of a
    text. *)
Lemma match_spaces : forall s,
  match Regex.match_here Compress.re_spaces s with
  | Some (rest, _) =>
      firstIsWhiteSpace s = true
      /\ firstIsWhiteSpace rest = false
      /\ (String.length rest + 2 <= String.length s)%nat
  | None =>
      match s with
      | String a s' =>
          JsString.isWhiteSpace a && firstIsWhiteSpace s' = false
      | EmptyString => True
      end
  end.
Proof.
  intro s. unfold Regex.match_here, Compress.re_spaces.
  cbn [Regex.seq fold_right].
  destruct s as [| a s']; [exact I |].
  cbn [Regex.m Regex.ws].
  destruct (JsString.isWhiteSpace a) eqn:Ea; [| reflexivity].
  destruct s' as [| b s'']; [reflexivity |].
  cbn [firstIsWhiteSpace andb].
  destruct (JsString.isWhiteSpace b) eqn:Eb; [| reflexivity].
  change (Regex.m (Regex.Seq (Regex.star Regex.ws) Regex.Eps) s'' None
            (fun s' c => Some (s', c)))
    with (Regex.m (Regex.star Regex.ws) s'' None
            (fun s' c => Some (s', c))).
  destruct (star_ws_greedy s'' None) as (rest & E & Hrest).
  pose proof E as E'. apply m_shrinks in E'.
  destruct E' as (s3 & c3 & Hl & E'). inversion E'; subst.
  rewrite E. cbn [String.length firstIsWhiteSpace].
  split; [exact Ea | split; [exact Hrest | lia]].
Qed.

Lemma spaces_collapsed : forall fuel bol s,
  (String.length s < fuel)%nat ->
  let out := Compress.replace_g_fuel fuel false Compress.re_spaces " " bol s
  in noWhiteSpaceRun out = true
     /\ (firstIsWhiteSpace s = false -> firstIsWhiteSpace out = false).
Proof.
  induction fuel as [| fuel IH]; intros bol s Hf; [lia |].
  cbn [Compress.replace_g_fuel andb]. cbv zeta.
  pose proof (match_spaces s) as Hm.
  destruct (Regex.match_here Compress.re_spaces s) as [[rest g] |].
  - destruct Hm as (Hs & Hrest & Hl).
    destruct (JsString.take (String.length s - String.length rest) s)
      as [| ch consumed] eqn:Et.
    + apply take_nil_inv in Et. destruct Et as [Et | Et];
        [lia | subst s; discriminate Hs].
    + destruct (IH (Compress.lineStartAfter bol (String ch consumed)) rest)
        as [H1 H2]; [lia |].
      cbn [String.append noWhiteSpaceRun]. rewrite (H2 Hrest), H1.
      split; [reflexivity | rewrite Hs; discriminate].
  - destruct s as [| a s']; [split; reflexivity |].
    destruct (IH (JsString.isLineTerminator a) s') as [H1 H2];
      [simpl in Hf; lia |].
    cbn [noWhiteSpaceRun firstIsWhiteSpace]. rewrite H1.
    split; [| intro Ha; exact Ha].
    destruct (JsString.isWhiteSpace a); [| reflexivity].
    simpl in Hm. rewrite (H2 Hm). reflexivity.
Qed.

(** X22.  The text that [basicCompression] returns has no two white-space
    characters in a row: every run of two or more, line breaks and
    indentation included, has become one space.  The language-specific
    compressors delete statements after that step and can leave a run
    behind. *)
Theorem basicCompression_collapses_white_space :
  (forall code, noWhiteSpaceRun (Compress.basicCompression code) = true)
  /\ exists code, noWhiteSpaceRun (Compress.compressJavaScript code) = false.
Proof.
  split.
  - intro code. unfold Compress.basicCompression. cbv zeta.
    unfold Compress.replace_g at 1.
    apply spaces_collapsed. lia.
  - exists "a debugger; b". vm_compute. reflexivity.
Qed.

Lemma estimateTokenCount_mono : forall a b,
  (String.length a <= String.length b)%nat ->
  (estimateTokenCount a <= estimateTokenCount b)%Z.
Proof.
  intros a b H. unfold estimateTokenCount. apply Qceiling_resp_le.
  apply Qmult_le_compat_r; [| discriminate].
  rewrite <- Zle_Qle. lia.
Qed.

(** X23.  Compression never lengthens the code, whatever the language
    name: the result has at most as many code units as the input, and so
    its estimated token count is at most that of the input. *)
Theorem compress_never_longer : forall code language,
  (String.length (Compress.compress code language) <= String.length code)%nat
  /\ (estimateTokenCount (Compress.compress code language)
      <= estimateTokenCount code)%Z.
Proof.
  intros code language.
  assert (Hb : forall c, (String.length (Compress.basicCompression c)
                          <= String.length c)%nat).
  { intro c. unfold Compress.basicCompression. cbv zeta.
    eapply Nat.le_trans; [apply replace_g_spaces |].
    eapply Nat.le_trans; [apply replace_g_deletes |].
    eapply Nat.le_trans; [apply replace_g_deletes |].
    apply replace_g_deletes. }
  assert (H : (String.length (Compress.compress code language)
               <= String.length code)%nat).
  { unfold Compress.compress. cbv zeta.
    repeat match goal with
           | |- context [if ?b then _ else _] => destruct b
           end.
    - unfold Compress.compressJavaScript. cbv zeta.
      eapply Nat.le_trans; [apply replace_g_deletes |].
      eapply Nat.le_trans; [apply replace_g_deletes |]. apply Hb.
    - unfold Compress.compressPython. cbv zeta.
      eapply Nat.le_trans; [apply replace_g_deletes |].
      eapply Nat.le_trans; [apply replace_g_spaces |].
      eapply Nat.le_trans; [apply replace_g_deletes |].
      eapply Nat.le_trans; [apply replace_g_deletes |].
      eapply Nat.le_trans; [apply replace_g_deletes |].
      apply replace_g_deletes.
    - unfold Compress.compressJava. cbv zeta.
      eapply Nat.le_trans; [apply replace_g_deletes |]. apply Hb.
    - unfold Compress.compressCFamily. cbv zeta.
      eapply Nat.le_trans; [apply replace_g_deletes |].
      eapply Nat.le_trans; [apply replace_g_deletes |]. apply Hb.
    - apply Hb. }
  split; [exact H | apply estimateTokenCount_mono, H].
Qed.
